(** * Tikz-CAD: the shape-manipulation core of [App.tsx]

    A shallow embedding of the edit history (undo/redo) and of the batch
    transform operations (duplicate, paste, linear and circular pattern,
    offset, mirror, nudge, delete, property update) of the drawing
    application, together with the properties the specification states
    about them; then of the other handlers of [App] (selection, callbacks
    of the canvas, diameter, text, keyboard), of the geometry, the
    coordinate transforms, the zoom and the drag update of the canvas, of
    the template generators and of the filter of the export dialog, with
    properties of their own.

    Conventions of the embedding.
    - A JavaScript [number] is a value of [num]: a real number, one of the
      two infinities, or NaN.  Arithmetic on finite values is exact real
      arithmetic (binary64 rounding and overflow are not modelled, and the
      two signed zeros are identified); the special values follow IEEE 754
      as JavaScript does.
    - An optional numeric field ([cx1?: number]) is an [option num];
      [undefined] used as a number is NaN ([toNum]).
    - [Set<string>] is a [gset string]; arrays are lists.
    - The counts of the two patterns are entered in numeric fields of
      integer step; they are integers here.
    - The React state cells are the fields of one record [App]; an event
      handler is a function from [App] to [App].  The identifiers obtained
      from [Math.random().toString(36).substr(2, 9)] are read from an
      explicit source [rnd : nat -> string], whose [k]-th value is the
      result of the [k]-th call made by the handler.
    - The [useEffect] hooks that run after a state change are not part of
      a handler and are not modelled: they set cells of the toolbar, and
      empty the selection when the mode becomes a drawing mode (the
      handlers modelled here set no mode but [pan] and [mirror_axis],
      which are none); none of them writes the collection or the two
      stacks. *)

From Stdlib Require Import Reals Lra Lia ZArith List.
From stdpp Require Import base gmap strings list.
Import ListNotations.

Local Open Scope R_scope.

(** ** JavaScript numbers *)

Inductive num : Type :=
  | Fin (r : R)
  | PInf
  | NInf
  | NaN.

Definition Rpos (r : R) : bool := if Rlt_dec 0 r then true else false.
Definition Rneg (r : R) : bool := if Rlt_dec r 0 then true else false.
Definition Rzero (r : R) : bool := if Req_dec_T r 0 then true else false.

Module Js.

(** [a + b] *)
Definition add (a b : num) : num :=
  match a, b with
  | NaN, _ | _, NaN => NaN
  | Fin x, Fin y => Fin (x + y)
  | PInf, NInf | NInf, PInf => NaN
  | PInf, _ | _, PInf => PInf
  | NInf, _ | _, NInf => NInf
  end.

(** [-a] *)
Definition neg (a : num) : num :=
  match a with
  | Fin x => Fin (- x)
  | PInf => NInf
  | NInf => PInf
  | NaN => NaN
  end.

(** [a - b] *)
Definition sub (a b : num) : num :=
  match a, b with
  | NaN, _ | _, NaN => NaN
  | Fin x, Fin y => Fin (x - y)
  | PInf, PInf | NInf, NInf => NaN
  | PInf, _ | _, NInf => PInf
  | NInf, _ | _, PInf => NInf
  end.

(** The product of an infinity of sign [pos] with the finite [y]. *)
Definition inf_times (pos : bool) (y : R) : num :=
  if Rzero y then NaN
  else if Bool.eqb pos (Rpos y) then PInf else NInf.

(** [a * b] *)
Definition mul (a b : num) : num :=
  match a, b with
  | NaN, _ | _, NaN => NaN
  | Fin x, Fin y => Fin (x * y)
  | PInf, Fin y | Fin y, PInf => inf_times true y
  | NInf, Fin y | Fin y, NInf => inf_times false y
  | PInf, PInf | NInf, NInf => PInf
  | PInf, NInf | NInf, PInf => NInf
  end.

(** [a / b] *)
Definition div (a b : num) : num :=
  match a, b with
  | NaN, _ | _, NaN => NaN
  | Fin x, Fin y =>
      if Rzero y then
        (if Rzero x then NaN else if Rpos x then PInf else NInf)
      else Fin (x / y)
  | Fin _, (PInf | NInf) => Fin 0
  | PInf, Fin y => if Rneg y then NInf else PInf
  | NInf, Fin y => if Rneg y then PInf else NInf
  | (PInf | NInf), (PInf | NInf) => NaN
  end.

(** [a > b] *)
Definition gt (a b : num) : bool :=
  match a, b with
  | NaN, _ | _, NaN => false
  | Fin x, Fin y => if Rlt_dec y x then true else false
  | PInf, PInf => false
  | PInf, _ => true
  | NInf, _ => false
  | Fin _, NInf => true
  | Fin _, PInf => false
  end.

(** [a >= b] *)
Definition ge (a b : num) : bool :=
  match a, b with
  | NaN, _ | _, NaN => false
  | Fin x, Fin y => if Rle_dec y x then true else false
  | PInf, _ => true
  | _, NInf => true
  | NInf, _ => false
  | Fin _, PInf => false
  end.

(** [a === b] on numbers *)
Definition eq (a b : num) : bool :=
  match a, b with
  | Fin x, Fin y => if Req_dec_T x y then true else false
  | PInf, PInf | NInf, NInf => true
  | _, _ => false
  end.

(** Truthiness of a number: [0] and NaN are falsy. *)
Definition truthy (a : num) : bool :=
  match a with
  | Fin x => negb (Rzero x)
  | NaN => false
  | PInf | NInf => true
  end.

(** [a || b] on numbers *)
Definition or (a b : num) : num := if truthy a then a else b.

(** A possibly [undefined] value used where a number is expected. *)
Definition toNum (o : option num) : num :=
  match o with
  | Some v => v
  | None => NaN
  end.

(** [o || d] for an optional number [o] *)
Definition orU (o : option num) (d : num) : num :=
  match o with
  | Some v => or v d
  | None => d
  end.

(** Truthiness of an optional number: [undefined] is falsy. *)
Definition truthyU (o : option num) : bool :=
  match o with
  | Some v => truthy v
  | None => false
  end.

End Js.

Module Math.

Definition PI : num := Fin Rtrigo1.PI.

Definition abs (a : num) : num :=
  match a with
  | Fin x => Fin (Rabs x)
  | PInf | NInf => PInf
  | NaN => NaN
  end.

Definition sqrt (a : num) : num :=
  match a with
  | Fin x => if Rneg x then NaN else Fin (R_sqrt.sqrt x)
  | PInf => PInf
  | NInf | NaN => NaN
  end.

(** [Math.pow(a, 2)], the only exponent the program uses. *)
Definition pow2 (a : num) : num := Js.mul a a.

Definition min (a b : num) : num :=
  match a, b with
  | NaN, _ | _, NaN => NaN
  | Fin x, Fin y => Fin (Rmin x y)
  | NInf, _ | _, NInf => NInf
  | PInf, v | v, PInf => v
  end.

Definition max (a b : num) : num :=
  match a, b with
  | NaN, _ | _, NaN => NaN
  | Fin x, Fin y => Fin (Rmax x y)
  | PInf, _ | _, PInf => PInf
  | NInf, v | v, NInf => v
  end.

(** [Math.min(a, b, c)] and [Math.max(a, b, c)] *)
Definition min3 (a b c : num) : num := min (min a b) c.
Definition max3 (a b c : num) : num := max (max a b) c.

Definition cos (a : num) : num :=
  match a with
  | Fin x => Fin (Rtrigo_def.cos x)
  | _ => NaN
  end.

Definition sin (a : num) : num :=
  match a with
  | Fin x => Fin (Rtrigo_def.sin x)
  | _ => NaN
  end.

(** The angle of the vector [(x, y)] in [(-PI, PI]]. *)
Definition Ratan2 (y x : R) : R :=
  if Rpos x then atan (y / x)
  else if Rneg x then
    (if Rneg y then atan (y / x) - Rtrigo1.PI else atan (y / x) + Rtrigo1.PI)
  else if Rpos y then Rtrigo1.PI / 2
  else if Rneg y then - (Rtrigo1.PI / 2)
  else 0.

Definition atan2 (y x : num) : num :=
  match y, x with
  | NaN, _ | _, NaN => NaN
  | Fin b, Fin a => Fin (Ratan2 b a)
  | Fin b, PInf => Fin 0
  | Fin b, NInf => if Rneg b then Fin (- Rtrigo1.PI) else Fin Rtrigo1.PI
  | PInf, Fin _ => Fin (Rtrigo1.PI / 2)
  | NInf, Fin _ => Fin (- (Rtrigo1.PI / 2))
  | PInf, PInf => Fin (Rtrigo1.PI / 4)
  | NInf, PInf => Fin (- (Rtrigo1.PI / 4))
  | PInf, NInf => Fin (3 * Rtrigo1.PI / 4)
  | NInf, NInf => Fin (- (3 * Rtrigo1.PI / 4))
  end.

(** Round to the nearest integer, a tie going up: [floor (x + 1/2)]. *)
Definition Rround (x : R) : R := IZR (Zfloor (x + / 2)).

Definition round (a : num) : num :=
  match a with
  | Fin x => Fin (Rround x)
  | v => v
  end.

End Math.

(** A literal and an integer loop counter used as numbers. *)
Definition lit (z : Z) : num := Fin (IZR z).

Definition finite (a : num) : Prop := exists r, a = Fin r.
Definition finiteU (o : option num) : Prop :=
  match o with
  | Some v => finite v
  | None => True
  end.

(** ** The shape model *)

(** The declarations of [Shape], [Point], [LineStyle], [ArrowStyle],
    [HatchStyle] and [DrawingMode] are imported by [App.tsx] from the canvas
    component. *)

Module ShapeType.
(** The [type] tag of a [Shape].  The declaration gives it the type
    [string]; the constructors are the tags the canvas gives a shape (its
    drawing modes) and the handlers test. *)
Inductive t : Set :=
  | freehand | line | bezier | rect | round_rect | circle | ellipse | arc
  | measure | measure_radius | mark_angle | brace | text.

Definition eqb (a b : t) : bool :=
  match a, b with
  | freehand, freehand | line, line | bezier, bezier | rect, rect
  | round_rect, round_rect | circle, circle | ellipse, ellipse | arc, arc
  | measure, measure | measure_radius, measure_radius
  | mark_angle, mark_angle | brace, brace | text, text => true
  | _, _ => false
  end.

(** [list.includes(ty)] *)
Definition includes (l : list t) (ty : t) : bool := existsb (eqb ty) l.
End ShapeType.

Module LineStyle.
(** [LineStyle]: solid, dashed or dotted. *)
Inductive t : Set := solid | dashed | dotted.
End LineStyle.

Module ArrowStyle.
(** [ArrowStyle]: none, start, end or both. *)
Inductive t : Set := none | start | end_ | both.
End ArrowStyle.

Module HatchStyle.
(** [HatchStyle]: none, lines, grid or dots. *)
Inductive t : Set := none | lines | grid | dots.
End HatchStyle.

(** A point object [{ x, y }]. *)
Record Point : Type := mkPoint { p_x : num; p_y : num }.

(** A [Shape]; the fields are those of the declaration, each optional
    where the declaration marks it so or the program gives it a default
    ([lineWidth]). *)
Record Shape : Type := mkShape {
  id : string;
  type : ShapeType.t;
  x1 : num;
  y1 : num;
  x2 : num;
  y2 : num;
  cx1 : option num;
  cy1 : option num;
  cx2 : option num;
  cy2 : option num;
  points : option (list Point);
  textX : option num;
  textY : option num;
  style : LineStyle.t;
  arrow : ArrowStyle.t;
  lineWidth : option num;
  fillColor : option string;
  strokeColor : option string;
  hatchStyle : option HatchStyle.t;
  rotation : option num;
  startAngle : option num;
  endAngle : option num;
  cornerRadius : option num;
  isGuide : option bool;
  text : option string
}.

(** Field update, [{ ...s, f: v }] or [ns.f = v]: the record rebuilt with
    the field [proj] replaced. *)
Ltac shape_setter proj :=
  let e := constr:(fun s : Shape =>
    mkShape (id s) (type s) (x1 s) (y1 s) (x2 s) (y2 s)
            (cx1 s) (cy1 s) (cx2 s) (cy2 s) (points s) (textX s) (textY s)
            (style s) (arrow s) (lineWidth s) (fillColor s) (strokeColor s)
            (hatchStyle s) (rotation s) (startAngle s) (endAngle s)
            (cornerRadius s) (isGuide s) (text s)) in
  let e' := eval pattern proj in e in
  match e' with
  | ?g _ =>
      let t := eval cbv beta in (fun v s => g (fun _ => v) s) in exact t
  end.

Definition set_id : string -> Shape -> Shape := ltac:(shape_setter id).
Definition set_x1 : num -> Shape -> Shape := ltac:(shape_setter x1).
Definition set_y1 : num -> Shape -> Shape := ltac:(shape_setter y1).
Definition set_x2 : num -> Shape -> Shape := ltac:(shape_setter x2).
Definition set_y2 : num -> Shape -> Shape := ltac:(shape_setter y2).
Definition set_cx1 : option num -> Shape -> Shape := ltac:(shape_setter cx1).
Definition set_cy1 : option num -> Shape -> Shape := ltac:(shape_setter cy1).
Definition set_cx2 : option num -> Shape -> Shape := ltac:(shape_setter cx2).
Definition set_cy2 : option num -> Shape -> Shape := ltac:(shape_setter cy2).
Definition set_points : option (list Point) -> Shape -> Shape :=
  ltac:(shape_setter points).
Definition set_textX : option num -> Shape -> Shape :=
  ltac:(shape_setter textX).
Definition set_textY : option num -> Shape -> Shape :=
  ltac:(shape_setter textY).
Definition set_style : LineStyle.t -> Shape -> Shape :=
  ltac:(shape_setter style).
Definition set_arrow : ArrowStyle.t -> Shape -> Shape :=
  ltac:(shape_setter arrow).
Definition set_lineWidth : option num -> Shape -> Shape :=
  ltac:(shape_setter lineWidth).
Definition set_fillColor : option string -> Shape -> Shape :=
  ltac:(shape_setter fillColor).
Definition set_strokeColor : option string -> Shape -> Shape :=
  ltac:(shape_setter strokeColor).
Definition set_hatchStyle : option HatchStyle.t -> Shape -> Shape :=
  ltac:(shape_setter hatchStyle).
Definition set_rotation : option num -> Shape -> Shape :=
  ltac:(shape_setter rotation).
Definition set_startAngle : option num -> Shape -> Shape :=
  ltac:(shape_setter startAngle).
Definition set_endAngle : option num -> Shape -> Shape :=
  ltac:(shape_setter endAngle).
Definition set_cornerRadius : option num -> Shape -> Shape :=
  ltac:(shape_setter cornerRadius).

(** [s |> f |> g] applies the updates [f] then [g], in program order. *)
Notation "s |> f" := (f s) (at level 45, left associativity, only parsing).

(** [ns.x1 = a; ns.y1 = b; ns.x2 = c; ns.y2 = d] *)
Definition set_anchors (a b c d : num) (s : Shape) : Shape :=
  s |> set_x1 a |> set_y1 b |> set_x2 c |> set_y2 d.

(** [DrawingMode]: [pan], the two transform modes and one drawing mode per
    shape type; [measure_angle] is the one further mode [App.tsx] names. *)
Inductive DrawingMode : Set :=
  | pan
  | circular_pattern
  | mirror_axis
  | measure_angle
  | draw (ty : ShapeType.t).

Inductive PatternDirection : Set :=
  | horizontal | vertical | horizontal_neg | vertical_neg.

(** ** The application state *)

Module Toolbar.
(** The style cells of the toolbar: the style given to the next shape. *)
Record t : Type := mk {
  lineStyle : LineStyle.t;
  arrowStyle : ArrowStyle.t;
  lineWidth : num;
  fillColor : string;
  strokeColor : string;
  hatchStyle : HatchStyle.t
}.
End Toolbar.

(** The state cells of [App] that the history and the transform operations
    read or write.  The cells of the dialogs, of the export options and of
    grid snapping hold no shape data and are left out. *)
Record App : Type := mkApp {
  shapes : list Shape;
  history : list (list Shape);
  future : list (list Shape);
  selectedShapeIds : gset string;
  mode : DrawingMode;
  offsetDistance : num;
  patternDirection : PatternDirection;
  patternCount : Z;
  patternSpacing : num;
  circularCount : Z;
  clipboard : option (list Shape);
  toolbar : Toolbar.t
}.

Ltac app_setter proj :=
  let e := constr:(fun s : App =>
    mkApp (shapes s) (history s) (future s) (selectedShapeIds s) (mode s)
          (offsetDistance s) (patternDirection s) (patternCount s)
          (patternSpacing s) (circularCount s) (clipboard s) (toolbar s)) in
  let e' := eval pattern proj in e in
  match e' with
  | ?g _ =>
      let t := eval cbv beta in (fun v s => g (fun _ => v) s) in exact t
  end.

Definition setShapes : list Shape -> App -> App := ltac:(app_setter shapes).
Definition setHistory : list (list Shape) -> App -> App :=
  ltac:(app_setter history).
Definition setFuture : list (list Shape) -> App -> App :=
  ltac:(app_setter future).
Definition setSelectedShapeIds : gset string -> App -> App :=
  ltac:(app_setter selectedShapeIds).
Definition setMode : DrawingMode -> App -> App := ltac:(app_setter mode).
Definition setClipboard : option (list Shape) -> App -> App :=
  ltac:(app_setter clipboard).
Definition setToolbar : Toolbar.t -> App -> App := ltac:(app_setter toolbar).

(** [selectedShapeIds.has(s.id)] *)
Definition has (sel : gset string) (i : string) : bool :=
  bool_decide (i ∈ sel).

(** [l.find(s => s.id === i)], used as a condition. *)
Definition findById (l : list Shape) (i : string) : option Shape :=
  List.find (fun s => String.eqb (id s) i) l.

(** [o !== undefined] *)
Definition isDefined {A : Type} (o : option A) : bool :=
  match o with
  | Some _ => true
  | None => false
  end.

(** [if (b) { f }] as an update of the shape under construction. *)
Definition when (b : bool) (f : Shape -> Shape) : Shape -> Shape :=
  if b then f else fun s => s.

(** The arrays and the set a handler fills while it walks the shapes
    ([newShapes.push], [newIds.add]), with the number of identifiers it has
    drawn so far. *)
Record Acc : Type := mkAcc {
  newShapes : list Shape;
  newIds : gset string;
  draws : nat
}.

Definition push (s : Shape) (acc : Acc) : Acc :=
  mkAcc (newShapes acc ++ [s]) (newIds acc) (draws acc).
Definition addId (i : string) (acc : Acc) : Acc :=
  mkAcc (newShapes acc) (newIds acc ∪ {[ i ]}) (draws acc).
Definition tick (acc : Acc) : Acc :=
  mkAcc (newShapes acc) (newIds acc) (S (draws acc)).

(** [l.forEach(a => body)] over an accumulator. *)
Definition forEach {A S : Type} (l : list A) (body : A -> S -> S) (acc : S) : S :=
  fold_left (fun acc a => body a acc) l acc.

(** ** Edit history *)

Definition saveHistory (st : App) : App :=
  st |> setHistory (history st ++ [shapes st])
     |> setFuture [].

(** The selection kept by undo and redo: the identifiers of [prev] that
    [restored] has a shape for. *)
Definition pruneSelection (restored : list Shape) (prev : gset string)
  : gset string :=
  filter (fun i => is_Some (findById restored i)) prev.

Definition handleUndo (st : App) : App :=
  if Nat.eqb (length (history st)) 0 then st
  else
    let previousShapes := List.last (history st) [] in
    st |> setFuture (future st ++ [shapes st])
       |> setShapes previousShapes
       |> setHistory (removelast (history st))
       |> setSelectedShapeIds
            (pruneSelection previousShapes (selectedShapeIds st)).

Definition handleRedo (st : App) : App :=
  if Nat.eqb (length (future st)) 0 then st
  else
    let nextShapes := List.last (future st) [] in
    st |> setHistory (history st ++ [shapes st])
       |> setShapes nextShapes
       |> setFuture (removelast (future st))
       |> setSelectedShapeIds
            (pruneSelection nextShapes (selectedShapeIds st)).

(** ** Shape add, copy, delete *)

Definition handleShapeAdd (shape : Shape) (st : App) : App :=
  let st := saveHistory st in
  st |> setShapes (shapes st ++ [shape]).

Definition handleCopy (st : App) : App :=
  if Nat.ltb 0 (size (selectedShapeIds st)) then
    st |> setClipboard
            (Some (List.filter (fun s => has (selectedShapeIds st) (id s))
                               (shapes st)))
  else st.

Definition handleDelete (st : App) : App :=
  if Nat.ltb 0 (size (selectedShapeIds st)) then
    let sel := selectedShapeIds st in
    let st := saveHistory st in
    st |> setShapes (List.filter (fun s => negb (has sel (id s))) (shapes st))
       |> setSelectedShapeIds ∅
  else st.

(** ** Duplicate and paste *)

(** The copy both [handleDuplicate] and [handlePaste] build for one shape;
    the two handlers spell out the same statements. *)
Definition duplicateShape (newId : string) (shape : Shape) : Shape :=
  let offset := lit 2 in
  let newShape :=
    shape |> set_id newId
          |> set_x1 (Js.add (x1 shape) offset)
          |> set_y1 (Js.sub (y1 shape) offset)
          |> set_x2 (Js.add (x2 shape) offset)
          |> set_y2 (Js.sub (y2 shape) offset) in
  let newShape :=
    match points shape with
    | Some ps =>
        newShape |> set_points
          (Some (map (fun p => mkPoint (Js.add (p_x p) offset)
                                       (Js.sub (p_y p) offset)) ps))
    | None => newShape
    end in
  if ShapeType.eqb (type shape) ShapeType.bezier
     || ShapeType.eqb (type shape) ShapeType.measure
  then
    newShape
      |> when (Js.truthyU (cx1 shape))
           (set_cx1 (Some (Js.add (Js.toNum (cx1 shape)) offset)))
      |> when (Js.truthyU (cy1 shape))
           (set_cy1 (Some (Js.sub (Js.toNum (cy1 shape)) offset)))
      |> when (Js.truthyU (cx2 shape))
           (set_cx2 (Some (Js.add (Js.toNum (cx2 shape)) offset)))
      |> when (Js.truthyU (cy2 shape))
           (set_cy2 (Some (Js.sub (Js.toNum (cy2 shape)) offset)))
  else newShape.

Definition duplicateBody (rnd : nat -> string) (sel : gset string)
    (shape : Shape) (acc : Acc) : Acc :=
  if has sel (id shape) then
    let newShape := duplicateShape (rnd (draws acc)) shape in
    acc |> tick |> push newShape |> addId (id newShape)
  else acc.

Definition handleDuplicate (rnd : nat -> string) (st : App) : App :=
  if Nat.eqb (size (selectedShapeIds st)) 0 then st
  else
    let acc :=
      forEach (shapes st) (duplicateBody rnd (selectedShapeIds st))
              (mkAcc [] ∅ 0) in
    let st := saveHistory st in
    st |> setShapes (shapes st ++ newShapes acc)
       |> setSelectedShapeIds (newIds acc).

Definition pasteBody (rnd : nat -> string) (clipShape : Shape) (acc : Acc)
  : Acc :=
  let newShape := duplicateShape (rnd (draws acc)) clipShape in
  acc |> tick |> push newShape |> addId (id newShape).

Definition handlePaste (rnd : nat -> string) (st : App) : App :=
  match clipboard st with
  | Some clip =>
      if Nat.ltb 0 (length clip) then
        let acc := forEach clip (pasteBody rnd) (mkAcc [] ∅ 0) in
        let st := saveHistory st in
        st |> setShapes (shapes st ++ newShapes acc)
           |> setSelectedShapeIds (newIds acc)
      else st
  | None => st
  end.

(** ** Linear pattern *)

(** The copy of [shape] moved by [(offX, offY)]. *)
Definition linearCopy (newId : string) (offX offY : num) (shape : Shape)
  : Shape :=
  let newShape :=
    shape |> set_id newId
          |> set_x1 (Js.add (x1 shape) offX)
          |> set_y1 (Js.add (y1 shape) offY)
          |> set_x2 (Js.add (x2 shape) offX)
          |> set_y2 (Js.add (y2 shape) offY) in
  let newShape :=
    newShape
      |> when (isDefined (cx1 shape))
           (set_cx1 (Some (Js.add (Js.orU (cx1 shape) (lit 0)) offX)))
      |> when (isDefined (cy1 shape))
           (set_cy1 (Some (Js.add (Js.orU (cy1 shape) (lit 0)) offY)))
      |> when (isDefined (cx2 shape))
           (set_cx2 (Some (Js.add (Js.orU (cx2 shape) (lit 0)) offX)))
      |> when (isDefined (cy2 shape))
           (set_cy2 (Some (Js.add (Js.orU (cy2 shape) (lit 0)) offY)))
      |> when (isDefined (textX shape))
           (set_textX (Some (Js.add (Js.orU (textX shape) (lit 0)) offX)))
      |> when (isDefined (textY shape))
           (set_textY (Some (Js.add (Js.orU (textY shape) (lit 0)) offY))) in
  match points shape with
  | Some ps =>
      newShape |> set_points
        (Some (map (fun p => mkPoint (Js.add (p_x p) offX)
                                     (Js.add (p_y p) offY)) ps))
  | None => newShape
  end.

(** The step vector [(dx, dy)] of a direction. *)
Definition stepVector (dir : PatternDirection) (spacing : num) : num * num :=
  match dir with
  | horizontal => (spacing, lit 0)
  | horizontal_neg => (Js.neg spacing, lit 0)
  | vertical => (lit 0, spacing)
  | vertical_neg => (lit 0, Js.neg spacing)
  end.

(** [for (let i = ...; i < count; i++) { ... }] with [n] rounds left:
    each round draws an identifier and pushes the shape [mk newId i]. *)
Fixpoint copyLoop (rnd : nat -> string) (mk : string -> Z -> Shape)
    (i : Z) (n : nat) (acc : Acc) : Acc :=
  match n with
  | O => acc
  | S n' =>
      let newShape := mk (rnd (draws acc)) i in
      copyLoop rnd mk (i + 1)%Z n'
               (acc |> tick |> push newShape |> addId (id newShape))
  end.

(** The number of rounds of [for (let i = 1; i < count; i++)]. *)
Definition rounds (count : Z) : nat := Z.to_nat (count - 1).

Definition linearBody (rnd : nat -> string) (sel : gset string)
    (count : Z) (dx dy : num) (shape : Shape) (acc : Acc) : Acc :=
  if has sel (id shape) then
    copyLoop rnd
      (fun newId i =>
         linearCopy newId (Js.mul dx (lit i)) (Js.mul dy (lit i)) shape)
      1%Z (rounds count) (acc |> addId (id shape))
  else acc.

Definition handleLinearPattern (rnd : nat -> string) (st : App) : App :=
  if Nat.eqb (size (selectedShapeIds st)) 0 then st
  else if (patternCount st <? 2)%Z then st
  else
    let '(dx, dy) := stepVector (patternDirection st) (patternSpacing st) in
    let acc :=
      forEach (shapes st)
              (linearBody rnd (selectedShapeIds st) (patternCount st) dx dy)
              (mkAcc [] ∅ 0) in
    let st := saveHistory st in
    st |> setShapes (shapes st ++ newShapes acc)
       |> setSelectedShapeIds (newIds acc).

(** ** Circular pattern *)

Definition rotatePoint (x y pivotX pivotY angle : num) : Point :=
  let cos := Math.cos angle in
  let sin := Math.sin angle in
  let nx := Js.add (Js.sub (Js.mul cos (Js.sub x pivotX))
                           (Js.mul sin (Js.sub y pivotY))) pivotX in
  let ny := Js.add (Js.add (Js.mul sin (Js.sub x pivotX))
                           (Js.mul cos (Js.sub y pivotY))) pivotY in
  mkPoint nx ny.

(** The bounds [(minX, maxX, minY, maxY)] of the anchor points. *)
Definition boundsBody (s : Shape) (b : num * num * num * num)
  : num * num * num * num :=
  let '(minX, maxX, minY, maxY) := b in
  (Math.min3 minX (x1 s) (x2 s), Math.max3 maxX (x1 s) (x2 s),
   Math.min3 minY (y1 s) (y2 s), Math.max3 maxY (y1 s) (y2 s)).

Definition selectionBounds (selectedShapes : list Shape)
  : num * num * num * num :=
  forEach selectedShapes boundsBody (PInf, NInf, PInf, NInf).

Definition guideCircle (newId : string) (cx cy radius : num) : Shape :=
  {| id := newId;
     type := ShapeType.circle;
     x1 := cx; y1 := cy;
     x2 := Js.add cx radius; y2 := cy;
     cx1 := None; cy1 := None; cx2 := None; cy2 := None;
     points := None; textX := None; textY := None;
     style := LineStyle.dashed;
     arrow := ArrowStyle.none;
     lineWidth := Some (lit 1);
     fillColor := Some "none"%string;
     strokeColor := Some "#94a3b8"%string;
     hatchStyle := None;
     rotation := None; startAngle := None; endAngle := None;
     cornerRadius := None;
     isGuide := Some true;
     text := None |}.

Definition boxBasedRotate : list ShapeType.t :=
  [ShapeType.rect; ShapeType.text; ShapeType.arc; ShapeType.ellipse;
   ShapeType.circle; ShapeType.round_rect].

Definition centerAnchored : list ShapeType.t :=
  [ShapeType.circle; ShapeType.ellipse; ShapeType.arc; ShapeType.text].

(** The copy of [s] turned by [angle] about the pivot [(cx, cy)]. *)
Definition circularCopy (newId : string) (cx cy angle : num) (s : Shape)
  : Shape :=
  let ns := s |> set_id newId in
  let isBoxBased := ShapeType.includes boxBasedRotate (type s) in
  if isBoxBased then
    let centred := ShapeType.includes centerAnchored (type s) in
    let midX := if centred then x1 s
                else Js.div (Js.add (x1 s) (x2 s)) (lit 2) in
    let midY := if centred then y1 s
                else Js.div (Js.add (y1 s) (y2 s)) (lit 2) in
    let rotatedCenter := rotatePoint midX midY cx cy angle in
    let dx := Js.sub (x2 s) (x1 s) in
    let dy := Js.sub (y2 s) (y1 s) in
    let ns :=
      if centred then
        ns |> set_x1 (p_x rotatedCenter)
           |> set_y1 (p_y rotatedCenter)
           |> set_x2 (Js.add (p_x rotatedCenter) dx)
           |> set_y2 (Js.add (p_y rotatedCenter) dy)
      else
        ns |> set_x1 (Js.sub (p_x rotatedCenter) (Js.div dx (lit 2)))
           |> set_y1 (Js.sub (p_y rotatedCenter) (Js.div dy (lit 2)))
           |> set_x2 (Js.add (p_x rotatedCenter) (Js.div dx (lit 2)))
           |> set_y2 (Js.add (p_y rotatedCenter) (Js.div dy (lit 2))) in
    ns |> when (isDefined (cx1 s))
            (fun ns =>
               let p := rotatePoint (Js.toNum (cx1 s)) (Js.toNum (cy1 s))
                                    midX midY angle in
               ns |> set_cx1 (Some (p_x p)) |> set_cy1 (Some (p_y p)))
       |> when (isDefined (cx2 s))
            (fun ns =>
               let p := rotatePoint (Js.toNum (cx2 s)) (Js.toNum (cy2 s))
                                    midX midY angle in
               ns |> set_cx2 (Some (p_x p)) |> set_cy2 (Some (p_y p)))
       |> when (isDefined (textX s))
            (fun ns =>
               let p := rotatePoint (Js.toNum (textX s)) (Js.toNum (textY s))
                                    midX midY angle in
               ns |> set_textX (Some (p_x p)) |> set_textY (Some (p_y p)))
       |> set_rotation (Some (Js.add (Js.orU (rotation s) (lit 0)) angle))
  else
    let p1 := rotatePoint (x1 s) (y1 s) cx cy angle in
    let p2 := rotatePoint (x2 s) (y2 s) cx cy angle in
    let ns :=
      ns |> set_x1 (p_x p1) |> set_y1 (p_y p1)
         |> set_x2 (p_x p2) |> set_y2 (p_y p2)
         |> when (isDefined (cx1 s))
              (fun ns =>
                 let p := rotatePoint (Js.toNum (cx1 s)) (Js.toNum (cy1 s))
                                      cx cy angle in
                 ns |> set_cx1 (Some (p_x p)) |> set_cy1 (Some (p_y p)))
         |> when (isDefined (cx2 s))
              (fun ns =>
                 let p := rotatePoint (Js.toNum (cx2 s)) (Js.toNum (cy2 s))
                                      cx cy angle in
                 ns |> set_cx2 (Some (p_x p)) |> set_cy2 (Some (p_y p)))
         |> when (isDefined (textX s))
              (fun ns =>
                 let p := rotatePoint (Js.toNum (textX s))
                                      (Js.toNum (textY s)) cx cy angle in
                 ns |> set_textX (Some (p_x p)) |> set_textY (Some (p_y p))) in
    match points s with
    | Some ps =>
        ns |> set_points
          (Some (map (fun pt => rotatePoint (p_x pt) (p_y pt) cx cy angle)
                     ps))
    | None => ns
    end.

Definition circularBody (rnd : nat -> string) (count : Z)
    (cx cy angleStep : num) (s : Shape) (acc : Acc) : Acc :=
  copyLoop rnd
    (fun newId i => circularCopy newId cx cy (Js.mul (lit i) angleStep) s)
    1%Z (rounds count) (acc |> addId (id s)).

Definition handleCircularPatternCenter (rnd : nat -> string) (cx cy : num)
    (st : App) : App :=
  if Nat.eqb (size (selectedShapeIds st)) 0 || (circularCount st <? 2)%Z
  then st
  else
    let selectedShapes :=
      List.filter (fun s => has (selectedShapeIds st) (id s)) (shapes st) in
    let '(minX, maxX, minY, maxY) := selectionBounds selectedShapes in
    let selCenterX := Js.div (Js.add minX maxX) (lit 2) in
    let selCenterY := Js.div (Js.add minY maxY) (lit 2) in
    let radius :=
      Math.sqrt (Js.add (Math.pow2 (Js.sub selCenterX cx))
                        (Math.pow2 (Js.sub selCenterY cy))) in
    let acc := mkAcc [] ∅ 0 in
    let acc := acc |> tick |> push (guideCircle (rnd 0%nat) cx cy radius) in
    let angleStep :=
      Js.div (Js.mul (lit 2) Math.PI) (lit (circularCount st)) in
    let acc :=
      forEach selectedShapes
              (circularBody rnd (circularCount st) cx cy angleStep) acc in
    let st := saveHistory st in
    st |> setShapes (shapes st ++ newShapes acc)
       |> setSelectedShapeIds (newIds acc)
       |> setMode pan.

(** ** Offset *)

(** The inset copy of [s], or nothing ([newShape] stays [null]).  The
    identifier is drawn only where a copy is built. *)
Definition offsetShape (newId : string) (dist : num) (s : Shape)
  : option Shape :=
  if ShapeType.eqb (type s) ShapeType.rect
     || ShapeType.eqb (type s) ShapeType.round_rect
  then
    let minX := Math.min (x1 s) (x2 s) in
    let maxX := Math.max (x1 s) (x2 s) in
    let minY := Math.min (y1 s) (y2 s) in
    let maxY := Math.max (y1 s) (y2 s) in
    let nMinX := Js.add minX dist in
    let nMaxX := Js.sub maxX dist in
    let nMinY := Js.add minY dist in
    let nMaxY := Js.sub maxY dist in
    if Js.gt nMaxX nMinX && Js.gt nMaxY nMinY then
      Some (s |> set_id newId
              |> set_x1 nMinX |> set_y1 nMinY
              |> set_x2 nMaxX |> set_y2 nMaxY)
    else None
  else if ShapeType.eqb (type s) ShapeType.circle then
    let radius :=
      Math.sqrt (Js.add (Math.pow2 (Js.sub (x2 s) (x1 s)))
                        (Math.pow2 (Js.sub (y2 s) (y1 s)))) in
    let newRadius := Js.sub radius dist in
    if Js.gt newRadius (lit 0) then
      let angle := Math.atan2 (Js.sub (y2 s) (y1 s)) (Js.sub (x2 s) (x1 s)) in
      Some (s |> set_id newId
              |> set_x2 (Js.add (x1 s) (Js.mul newRadius (Math.cos angle)))
              |> set_y2 (Js.add (y1 s) (Js.mul newRadius (Math.sin angle))))
    else None
  else if ShapeType.eqb (type s) ShapeType.ellipse then
    let rx := Math.abs (Js.sub (x2 s) (x1 s)) in
    let ry := Math.abs (Js.sub (y2 s) (y1 s)) in
    let nRx := Js.sub rx dist in
    let nRy := Js.sub ry dist in
    if Js.gt nRx (lit 0) && Js.gt nRy (lit 0) then
      let signX := if Js.ge (x2 s) (x1 s) then lit 1 else lit (-1) in
      let signY := if Js.ge (y2 s) (y1 s) then lit 1 else lit (-1) in
      Some (s |> set_id newId
              |> set_x2 (Js.add (x1 s) (Js.mul signX nRx))
              |> set_y2 (Js.add (y1 s) (Js.mul signY nRy)))
    else None
  else None.

Definition offsetBody (rnd : nat -> string) (sel : gset string) (dist : num)
    (s : Shape) (acc : Acc) : Acc :=
  if negb (has sel (id s)) then acc
  else
    match offsetShape (rnd (draws acc)) dist s with
    | Some newShape => acc |> tick |> push newShape |> addId (id newShape)
    | None => acc
    end.

Definition handleOffset (rnd : nat -> string) (st : App) : App :=
  if Nat.eqb (size (selectedShapeIds st)) 0 then st
  else
    let acc :=
      forEach (shapes st)
              (offsetBody rnd (selectedShapeIds st) (offsetDistance st))
              (mkAcc [] ∅ 0) in
    let st := saveHistory st in
    if Nat.ltb 0 (length (newShapes acc)) then
      st |> setShapes (shapes st ++ newShapes acc)
         |> setSelectedShapeIds (newIds acc)
    else st.

(** ** Mirror *)

(** [round]: four decimal places. *)
Definition round4 (v : num) : num :=
  Js.div (Math.round (Js.mul v (lit 10000))) (lit 10000).

(** The image [{ x, y }] of the point [(px, py)] under the reflection across
    the line through [(lineX1, lineY1)] and [(lineX2, lineY2)].  The
    arguments are values that may be [undefined]; a line of length zero
    hands them back as they are. *)
Definition reflectPoint (lineX1 lineY1 lineX2 lineY2 : num)
    (px py : option num) : option num * option num :=
  let dx := Js.sub lineX2 lineX1 in
  let dy := Js.sub lineY2 lineY1 in
  if Js.eq dx (lit 0) && Js.eq dy (lit 0) then (px, py)
  else
    let den := Js.add (Js.mul dx dx) (Js.mul dy dy) in
    let a := Js.div (Js.sub (Js.mul dx dx) (Js.mul dy dy)) den in
    let b := Js.div (Js.mul (Js.mul (lit 2) dx) dy) den in
    let ux := Js.sub (Js.toNum px) lineX1 in
    let uy := Js.sub (Js.toNum py) lineY1 in
    let x2 := Js.add (Js.add (Js.mul a ux) (Js.mul b uy)) lineX1 in
    let y2 := Js.add (Js.sub (Js.mul b ux) (Js.mul a uy)) lineY1 in
    (Some (round4 x2), Some (round4 y2)).

Definition boxBasedMirror : list ShapeType.t :=
  [ShapeType.rect; ShapeType.round_rect; ShapeType.text; ShapeType.circle;
   ShapeType.ellipse; ShapeType.arc].

(** The mirror image of [s], a copy under the identifier [newId]. *)
Definition mirrorShape (newId : string) (lineX1 lineY1 lineX2 lineY2 : num)
    (s : Shape) : Shape :=
  let reflect := reflectPoint lineX1 lineY1 lineX2 lineY2 in
  let lineAngle :=
    Math.atan2 (Js.sub lineY2 lineY1) (Js.sub lineX2 lineX1) in
  let ns := s |> set_id newId in
  let isBoxBased := ShapeType.includes boxBasedMirror (type s) in
  if isBoxBased then
    let isRect := ShapeType.eqb (type s) ShapeType.rect
                  || ShapeType.eqb (type s) ShapeType.round_rect in
    let isText := ShapeType.eqb (type s) ShapeType.text in
    let cx := if isRect then Js.div (Js.add (x1 s) (x2 s)) (lit 2)
              else x1 s in
    let cy := if isRect then Js.div (Js.add (y1 s) (y2 s)) (lit 2)
              else y1 s in
    let centerReflected := reflect (Some cx) (Some cy) in
    let crx := Js.toNum (fst centerReflected) in
    let cry := Js.toNum (snd centerReflected) in
    let width := Math.abs (Js.sub (x2 s) (x1 s)) in
    let height := Math.abs (Js.sub (y2 s) (y1 s)) in
    let ns :=
      if isRect then
        ns |> set_x1 (Js.sub crx (Js.div width (lit 2)))
           |> set_x2 (Js.add crx (Js.div width (lit 2)))
           |> set_y1 (Js.sub cry (Js.div height (lit 2)))
           |> set_y2 (Js.add cry (Js.div height (lit 2)))
      else
        let ns :=
          ns |> set_x1 crx
             |> set_y1 cry
             |> set_x2 (if isText then crx else Js.add crx width)
             |> set_y2 (if isText then cry else Js.add cry height) in
        if negb isText then
          let rP := reflect (Some (x2 s)) (Some (y2 s)) in
          ns |> set_x2 (Js.toNum (fst rP)) |> set_y2 (Js.toNum (snd rP))
        else ns in
    let oldRot := Js.orU (rotation s) (lit 0) in
    let ns :=
      ns |> set_rotation (Some (Js.sub (Js.mul (lit 2) lineAngle) oldRot)) in
    let ns :=
      if ShapeType.eqb (type s) ShapeType.arc then
        let start := Js.orU (startAngle s) (lit 0) in
        let end_ := Js.orU (endAngle s) (lit 0) in
        ns |> set_startAngle (Some (Js.sub (Js.mul (lit 2) lineAngle) end_))
           |> set_endAngle (Some (Js.sub (Js.mul (lit 2) lineAngle) start))
      else ns in
    ns |> when (isDefined (textX ns))
            (fun ns =>
               let p := reflect (textX s) (textY s) in
               ns |> set_textX (fst p) |> set_textY (snd p))
  else
    let p1 := reflect (Some (x1 s)) (Some (y1 s)) in
    let p2 := reflect (Some (x2 s)) (Some (y2 s)) in
    let ns :=
      ns |> set_x1 (Js.toNum (fst p1)) |> set_y1 (Js.toNum (snd p1))
         |> set_x2 (Js.toNum (fst p2)) |> set_y2 (Js.toNum (snd p2)) in
    let ns :=
      ns |> when (isDefined (cx1 ns))
              (fun ns =>
                 let p := reflect (cx1 s) (cy1 s) in
                 ns |> set_cx1 (fst p) |> set_cy1 (snd p)) in
    let ns :=
      ns |> when (isDefined (cx2 ns))
              (fun ns =>
                 let p := reflect (cx2 s) (cy2 s) in
                 ns |> set_cx2 (fst p) |> set_cy2 (snd p)) in
    match points ns with
    | Some ps =>
        ns |> set_points
          (Some (map (fun p =>
                        let q := reflect (Some (p_x p)) (Some (p_y p)) in
                        mkPoint (Js.toNum (fst q)) (Js.toNum (snd q))) ps))
    | None => ns
    end.

Definition mirrorBody (rnd : nat -> string) (sel : gset string)
    (lineX1 lineY1 lineX2 lineY2 : num) (s : Shape) (acc : Acc) : Acc :=
  if negb (has sel (id s)) then acc
  else
    let ns := mirrorShape (rnd (draws acc)) lineX1 lineY1 lineX2 lineY2 s in
    acc |> tick |> push ns |> addId (id ns).

Definition performMirror (rnd : nat -> string)
    (lineX1 lineY1 lineX2 lineY2 : num) (st : App) : App :=
  let acc :=
    forEach (shapes st)
            (mirrorBody rnd (selectedShapeIds st) lineX1 lineY1 lineX2 lineY2)
            (mkAcc [] ∅ 0) in
  let st := saveHistory st in
  st |> setShapes (shapes st ++ newShapes acc)
     |> setSelectedShapeIds (newIds acc)
     |> setMode pan.

Definition handleMirrorTool (st : App) : App :=
  if Nat.eqb (size (selectedShapeIds st)) 0 then st
  else st |> setMode mirror_axis.

(** ** Nudge *)

Definition nudgeShape (dx dy : num) (s : Shape) : Shape :=
  let ns :=
    s |> set_x1 (Js.add (x1 s) dx) |> set_y1 (Js.add (y1 s) dy)
      |> set_x2 (Js.add (x2 s) dx) |> set_y2 (Js.add (y2 s) dy) in
  let ns :=
    ns |> when (isDefined (cx1 ns))
            (set_cx1 (Some (Js.add (Js.toNum (cx1 ns)) dx)))
       |> when (isDefined (cy1 ns))
            (set_cy1 (Some (Js.add (Js.toNum (cy1 ns)) dy)))
       |> when (isDefined (cx2 ns))
            (set_cx2 (Some (Js.add (Js.toNum (cx2 ns)) dx)))
       |> when (isDefined (cy2 ns))
            (set_cy2 (Some (Js.add (Js.toNum (cy2 ns)) dy)))
       |> when (isDefined (textX ns))
            (set_textX (Some (Js.add (Js.toNum (textX ns)) dx)))
       |> when (isDefined (textY ns))
            (set_textY (Some (Js.add (Js.toNum (textY ns)) dy))) in
  match points ns with
  | Some ps =>
      ns |> set_points
        (Some (map (fun p => mkPoint (Js.add (p_x p) dx) (Js.add (p_y p) dy))
                   ps))
  | None => ns
  end.

Definition handleNudge (dx dy : num) (st : App) : App :=
  if Nat.eqb (size (selectedShapeIds st)) 0 then st
  else
    let sel := selectedShapeIds st in
    let st := saveHistory st in
    st |> setShapes
            (map (fun s => if negb (has sel (id s)) then s
                           else nudgeShape dx dy s) (shapes st)).

(** ** Property update *)

(** The pairs [(key, value)] the toolbar passes to
    [updateSelectedProperty]. *)
Inductive Property : Type :=
  | P_style (v : LineStyle.t)
  | P_arrow (v : ArrowStyle.t)
  | P_lineWidth (v : num)
  | P_fillColor (v : string)
  | P_strokeColor (v : string)
  | P_hatchStyle (v : HatchStyle.t)
  | P_cornerRadius (v : num).

(** [{ ...s, [key]: value }] *)
Definition setProperty (p : Property) (s : Shape) : Shape :=
  match p with
  | P_style v => set_style v s
  | P_arrow v => set_arrow v s
  | P_lineWidth v => set_lineWidth (Some v) s
  | P_fillColor v => set_fillColor (Some v) s
  | P_strokeColor v => set_strokeColor (Some v) s
  | P_hatchStyle v => set_hatchStyle (Some v) s
  | P_cornerRadius v => set_cornerRadius (Some v) s
  end.

(** The toolbar cell that follows the key, if there is one. *)
Definition setToolbarCell (p : Property) (t : Toolbar.t) : Toolbar.t :=
  match p with
  | P_style v =>
      Toolbar.mk v (Toolbar.arrowStyle t) (Toolbar.lineWidth t)
        (Toolbar.fillColor t) (Toolbar.strokeColor t) (Toolbar.hatchStyle t)
  | P_arrow v =>
      Toolbar.mk (Toolbar.lineStyle t) v (Toolbar.lineWidth t)
        (Toolbar.fillColor t) (Toolbar.strokeColor t) (Toolbar.hatchStyle t)
  | P_lineWidth v =>
      Toolbar.mk (Toolbar.lineStyle t) (Toolbar.arrowStyle t) v
        (Toolbar.fillColor t) (Toolbar.strokeColor t) (Toolbar.hatchStyle t)
  | P_fillColor v =>
      Toolbar.mk (Toolbar.lineStyle t) (Toolbar.arrowStyle t)
        (Toolbar.lineWidth t) v (Toolbar.strokeColor t) (Toolbar.hatchStyle t)
  | P_strokeColor v =>
      Toolbar.mk (Toolbar.lineStyle t) (Toolbar.arrowStyle t)
        (Toolbar.lineWidth t) (Toolbar.fillColor t) v (Toolbar.hatchStyle t)
  | P_hatchStyle v =>
      Toolbar.mk (Toolbar.lineStyle t) (Toolbar.arrowStyle t)
        (Toolbar.lineWidth t) (Toolbar.fillColor t) (Toolbar.strokeColor t) v
  | P_cornerRadius _ => t
  end.

Definition updateSelectedProperty (p : Property) (st : App) : App :=
  let st := st |> setToolbar (setToolbarCell p (toolbar st)) in
  if Nat.ltb 0 (size (selectedShapeIds st)) then
    let sel := selectedShapeIds st in
    let st := saveHistory st in
    st |> setShapes
            (map (fun s => if has sel (id s) then setProperty p s else s)
                 (shapes st))
  else st.

(** ** The mutating operations, as one type *)

Inductive Op : Type :=
  | OpShapeAdd (shape : Shape)
  | OpDuplicate
  | OpPaste
  | OpLinearPattern
  | OpCircularPattern (cx cy : num)
  | OpOffset
  | OpMirror (lineX1 lineY1 lineX2 lineY2 : num)
  | OpNudge (dx dy : num)
  | OpDelete
  | OpProperty (p : Property).

Definition perform (rnd : nat -> string) (op : Op) (st : App) : App :=
  match op with
  | OpShapeAdd shape => handleShapeAdd shape st
  | OpDuplicate => handleDuplicate rnd st
  | OpPaste => handlePaste rnd st
  | OpLinearPattern => handleLinearPattern rnd st
  | OpCircularPattern cx cy => handleCircularPatternCenter rnd cx cy st
  | OpOffset => handleOffset rnd st
  | OpMirror a b c d => performMirror rnd a b c d st
  | OpNudge dx dy => handleNudge dx dy st
  | OpDelete => handleDelete st
  | OpProperty p => updateSelectedProperty p st
  end.

(** The condition under which the handler of [op] goes past its opening
    test and carries the operation out. *)
Definition performed (op : Op) (st : App) : bool :=
  match op with
  | OpShapeAdd _ | OpMirror _ _ _ _ => true
  | OpDuplicate | OpOffset | OpNudge _ _ | OpDelete | OpProperty _ =>
      negb (Nat.eqb (size (selectedShapeIds st)) 0)
  | OpPaste =>
      match clipboard st with
      | Some clip => Nat.ltb 0 (length clip)
      | None => false
      end
  | OpLinearPattern =>
      negb (Nat.eqb (size (selectedShapeIds st)) 0)
      && negb (patternCount st <? 2)%Z
  | OpCircularPattern _ _ =>
      negb (Nat.eqb (size (selectedShapeIds st)) 0)
      && negb (circularCount st <? 2)%Z
  end.

(** * The rest of [App]: selection, canvas callbacks, keyboard *)

(** ** Selection and the callbacks of the canvas *)

Definition handleSelectAll (st : App) : App :=
  let allIds : gset string := list_to_set (map id (shapes st)) in
  st |> setSelectedShapeIds allIds.

(** [prev.map(s => updatedShapes.find(u => u.id === s.id) || s)] *)
Definition handleShapesUpdate (updatedShapes : list Shape) (st : App) : App :=
  st |> setShapes
          (map (fun s =>
                  match findById updatedShapes (id s) with
                  | Some update => update
                  | None => s
                  end) (shapes st)).

Definition handleInteractionStart (st : App) : App := saveHistory st.

(** The argument is a set of identifiers or [null]. *)
Definition handleSelectionChange (ids : option (gset string)) (st : App)
  : App :=
  match ids with
  | None => st |> setSelectedShapeIds ∅
  | Some ids => st |> setSelectedShapeIds ids
  end.

Definition handleAddTemplate (templateShapes : list Shape) (st : App) : App :=
  let st := saveHistory st in
  let newIds : gset string := list_to_set (map id templateShapes) in
  st |> setShapes (shapes st ++ templateShapes)
     |> setSelectedShapeIds newIds
     |> setMode pan.

(** ** Diameter of a circle *)

Definition set_text : option string -> Shape -> Shape :=
  ltac:(shape_setter text).



(** ** Label text *)

Definition handleTextChange (newText : string) (st : App) : App :=
  if Nat.eqb (size (selectedShapeIds st)) 1 then
    let sel := selectedShapeIds st in
    let st := saveHistory st in
    st |> setShapes
            (map (fun s => if has sel (id s) then set_text (Some newText) s
                           else s) (shapes st))
  else st.

(** ** The corner-radius dialog *)

(** [App] together with the two state cells of the corner-radius dialog. *)
Record Ui : Type := mkUi {
  app : App;
  isRadiusModalOpen : bool;
  editingShapeId : option string
}.

(** A handler of [App] run within [Ui]. *)
Definition onApp (f : App -> App) (ui : Ui) : Ui :=
  mkUi (f (app ui)) (isRadiusModalOpen ui) (editingShapeId ui).

Definition setIsRadiusModalOpen (b : bool) (ui : Ui) : Ui :=
  mkUi (app ui) b (editingShapeId ui).

Definition setEditingShapeId (o : option string) (ui : Ui) : Ui :=
  mkUi (app ui) (isRadiusModalOpen ui) o.

Definition handleRadiusApply (radius : num) (ui : Ui) : Ui :=
  match editingShapeId ui with
  | Some editing =>
      (* a string is truthy unless it is empty *)
      if Nat.eqb (String.length editing) 0 then ui
      else
        ui |> onApp saveHistory
           |> onApp (fun st =>
                st |> setShapes
                        (map (fun s =>
                                if String.eqb (id s) editing
                                then set_cornerRadius (Some radius) s else s)
                             (shapes st)))
           |> setIsRadiusModalOpen false
           |> setEditingShapeId None
  | None => ui
  end.

(** ** Keyboard *)

(** The fields of a [KeyboardEvent] the handler reads; [targetIsInput] is
    [e.target instanceof HTMLInputElement]. *)
Record KeyboardEvent : Type := mkKeyboardEvent {
  targetIsInput : bool;
  metaKey : bool;
  ctrlKey : bool;
  shiftKey : bool;
  key : string
}.

Definition lowerChar (c : Ascii.ascii) : Ascii.ascii :=
  let n := Ascii.nat_of_ascii c in
  if Nat.leb 65 n && Nat.leb n 90 then Ascii.ascii_of_nat (n + 32) else c.

(** [s.toLowerCase()] on the letters A to Z; a character outside ASCII is
    left as it is: lowering it never gives one of the letters the handler
    compares with. *)
Fixpoint toLowerCase (s : string) : string :=
  match s with
  | EmptyString => EmptyString
  | String c s' => String (lowerChar c) (toLowerCase s')
  end.

Definition NUDGE_SMALL : num := Fin (1 / 10).
Definition NUDGE_LARGE : num := lit 1.

(** [handleKeyDown]; [e.preventDefault()] has no effect on the state.  The
    tests of the four unguarded [if]s and of the arrow keys read the state
    the event found; the keys they compare with differ, so at most one of
    the handlers runs. *)
Definition handleKeyDown (rnd : nat -> string) (e : KeyboardEvent) (ui : Ui)
  : Ui :=
  if targetIsInput e then ui
  else
    let isCtrlOrMeta := metaKey e || ctrlKey e in
    let keyIs := String.eqb (key e) in
    let lowerIs := String.eqb (toLowerCase (key e)) in
    let selected := Nat.ltb 0 (size (selectedShapeIds (app ui))) in
    if keyIs "Escape" then
      let ui := ui |> onApp (setMode pan)
                   |> onApp (setSelectedShapeIds ∅) in
      if isRadiusModalOpen ui then setIsRadiusModalOpen false ui else ui
    else if isCtrlOrMeta && negb (shiftKey e) && lowerIs "z" then
      onApp handleUndo ui
    else if (isCtrlOrMeta && lowerIs "y")
            || (isCtrlOrMeta && shiftKey e && lowerIs "z") then
      onApp handleRedo ui
    else if isCtrlOrMeta && lowerIs "a" then
      onApp handleSelectAll ui
    else
      let modalOpen := isRadiusModalOpen ui in
      let ui :=
        if isCtrlOrMeta && keyIs "d" then onApp (handleDuplicate rnd) ui
        else ui in
      let ui :=
        if isCtrlOrMeta && keyIs "c" then onApp handleCopy ui else ui in
      let ui :=
        if isCtrlOrMeta && keyIs "v" then onApp (handlePaste rnd) ui
        else ui in
      let ui :=
        if (keyIs "Delete" || keyIs "Backspace") && selected
           && negb modalOpen
        then onApp handleDelete ui else ui in
      if selected then
        let step := if shiftKey e then NUDGE_LARGE else NUDGE_SMALL in
        if keyIs "ArrowUp" then onApp (handleNudge (lit 0) step) ui
        else if keyIs "ArrowDown" then
          onApp (handleNudge (lit 0) (Js.neg step)) ui
        else if keyIs "ArrowLeft" then
          onApp (handleNudge (Js.neg step) (lit 0)) ui
        else if keyIs "ArrowRight" then
          onApp (handleNudge step (lit 0)) ui
        else ui
      else ui.

(** ** Which controls of the toolbar show *)

(** [mode === ty], for the drawing mode of a shape type. *)
Definition modeIs (m : DrawingMode) (ty : ShapeType.t) : bool :=
  match m with
  | draw ty' => ShapeType.eqb ty' ty
  | _ => false
  end.

Definition showArrowControls (st : App) : bool :=
  if modeIs (mode st) ShapeType.line || modeIs (mode st) ShapeType.arc
     || modeIs (mode st) ShapeType.bezier
     || modeIs (mode st) ShapeType.measure_radius then true
  else if Nat.eqb (size (selectedShapeIds st)) 0 then false
  else
    existsb (fun s =>
               has (selectedShapeIds st) (id s)
               && (ShapeType.eqb (type s) ShapeType.line
                   || ShapeType.eqb (type s) ShapeType.arc
                   || ShapeType.eqb (type s) ShapeType.bezier
                   || ShapeType.eqb (type s) ShapeType.measure_radius))
            (shapes st).

Definition fillable : list ShapeType.t :=
  [ShapeType.rect; ShapeType.round_rect; ShapeType.circle; ShapeType.ellipse;
   ShapeType.freehand].

Definition showFillControls (st : App) : bool :=
  if existsb (modeIs (mode st)) fillable then true
  else if Nat.eqb (size (selectedShapeIds st)) 0 then false
  else
    existsb (fun s =>
               has (selectedShapeIds st) (id s)
               && ShapeType.includes fillable (type s))
            (shapes st).

Definition controlsActive (st : App) : bool :=
  negb (match mode st with pan => true | _ => false end)
  || Nat.ltb 0 (size (selectedShapeIds st)).

(** * The canvas *)

(** [a <= b] and [a < b] *)
Definition Js_le (a b : num) : bool := Js.ge b a.
Definition Js_lt (a b : num) : bool := Js.gt b a.

(** [Math.exp] *)
Definition Math_exp (a : num) : num :=
  match a with
  | Fin x => Fin (exp x)
  | PInf => PInf
  | NInf => Fin 0
  | NaN => NaN
  end.

Module HandleType.
(** The [HandleType] of a resize handle, and the string that is its
    value. *)
Inductive t : Set :=
  | start | end_ | n | s | e | w | nw | ne | sw | se | move.

Definition name (h : t) : string :=
  match h with
  | start => "start" | end_ => "end"
  | n => "n" | s => "s" | e => "e" | w => "w"
  | nw => "nw" | ne => "ne" | sw => "sw" | se => "se"
  | move => "move"
  end.

(** [h.includes(c)] for a string [c] of one character. *)
Definition includes (h : t) (c : string) : bool :=
  existsb (fun a => String.eqb (String a EmptyString) c)
          (String.list_ascii_of_string (name h)).

Definition eqb (a b : t) : bool := String.eqb (name a) (name b).
End HandleType.

Module Canvas.

(** ** Geometry helpers *)

Definition dist (p1 p2 : Point) : num :=
  Math.sqrt (Js.add (Math.pow2 (Js.sub (p_x p1) (p_x p2)))
                    (Math.pow2 (Js.sub (p_y p1) (p_y p2)))).

Definition distToSegment (p v w : Point) : num :=
  let l2 := Math.pow2 (dist v w) in
  if Js.eq l2 (lit 0) then dist p v
  else
    let t :=
      Js.div (Js.add (Js.mul (Js.sub (p_x p) (p_x v))
                             (Js.sub (p_x w) (p_x v)))
                     (Js.mul (Js.sub (p_y p) (p_y v))
                             (Js.sub (p_y w) (p_y v)))) l2 in
    let t := Math.max (lit 0) (Math.min (lit 1) t) in
    dist p (mkPoint (Js.add (p_x v) (Js.mul t (Js.sub (p_x w) (p_x v))))
                    (Js.add (p_y v) (Js.mul t (Js.sub (p_y w) (p_y v))))).

Definition isPointInRect (px py x1 y1 x2 y2 : num) : bool :=
  let minX := Math.min x1 x2 in
  let maxX := Math.max x1 x2 in
  let minY := Math.min y1 y2 in
  let maxY := Math.max y1 y2 in
  Js.ge px minX && Js_le px maxX && Js.ge py minY && Js_le py maxY.

(** ** Coordinate transforms *)

(** The [left] and [top] of the [getBoundingClientRect()] of the
    container. *)
Record ClientRect : Type := mkClientRect { left : num; top : num }.

(** The state the transforms read: zoom, pan offset, size of the canvas,
    and the container ([None] while [containerRef.current] is null). *)
Record View : Type := mkView {
  scale : num;
  offset : Point;
  width : num;
  height : num;
  container : option ClientRect
}.

Definition screenToGrid (v : View) (sx sy : num) : Point :=
  match container v with
  | None => mkPoint (lit 0) (lit 0)
  | Some rect =>
      if Js.eq (width v) (lit 0) then mkPoint (lit 0) (lit 0)
      else
        let x :=
          Js.div (Js.sub (Js.sub (Js.sub sx (left rect))
                                 (Js.div (width v) (lit 2)))
                         (p_x (offset v))) (scale v) in
        let y :=
          Js.div (Js.neg (Js.sub (Js.sub (Js.sub sy (top rect))
                                         (Js.div (height v) (lit 2)))
                                 (p_y (offset v)))) (scale v) in
        mkPoint x y
  end.

Definition gridToScreen (v : View) (gx gy : num) : Point :=
  let x := Js.add (Js.add (Js.mul gx (scale v)) (Js.div (width v) (lit 2)))
                  (p_x (offset v)) in
  let y := Js.add (Js.add (Js.mul (Js.neg gy) (scale v))
                          (Js.div (height v) (lit 2)))
                  (p_y (offset v)) in
  mkPoint x y.

Definition snap (isSnapEnabled : bool) (val : num) : num :=
  if negb isSnapEnabled then val
  else Js.div (Math.round (Js.mul val (lit 2))) (lit 2).

(** ** Zoom *)

Definition handleWheel (deltaY : num) (v : View) : View :=
  let s := Math_exp (Js.mul (Js.neg deltaY) (Fin (1 / 1000))) in
  mkView (Math.max (lit 5) (Math.min (lit 500) (Js.mul (scale v) s)))
         (offset v) (width v) (height v) (container v).

(** ** Dragging *)

Definition isBoxShape (ty : ShapeType.t) : bool :=
  ShapeType.includes
    [ShapeType.rect; ShapeType.round_rect; ShapeType.ellipse; ShapeType.text;
     ShapeType.arc] ty.

(** The update [handleMouseMove] maps over the shapes it recorded when the
    drag began: [s] moved, or resized by its handle, by the displacement
    [(dx, dy)] of the cursor since then. *)
Definition dragShape (editHandle : HandleType.t) (dx dy : num) (s : Shape)
  : Shape :=
  let ns := s in
  if HandleType.eqb editHandle HandleType.move then
    let ns :=
      ns |> set_x1 (Js.add (x1 ns) dx) |> set_y1 (Js.add (y1 ns) dy)
         |> set_x2 (Js.add (x2 ns) dx) |> set_y2 (Js.add (y2 ns) dy) in
    let ns :=
      ns |> when (Js.truthyU (cx1 ns))
              (set_cx1 (Some (Js.add (Js.toNum (cx1 ns)) dx)))
         |> when (Js.truthyU (cy1 ns))
              (set_cy1 (Some (Js.add (Js.toNum (cy1 ns)) dy)))
         |> when (Js.truthyU (cx2 ns))
              (set_cx2 (Some (Js.add (Js.toNum (cx2 ns)) dx)))
         |> when (Js.truthyU (cy2 ns))
              (set_cy2 (Some (Js.add (Js.toNum (cy2 ns)) dy))) in
    let ns :=
      match points ns with
      | Some ps =>
          ns |> set_points
            (Some (map (fun p => mkPoint (Js.add (p_x p) dx)
                                         (Js.add (p_y p) dy)) ps))
      | None => ns
      end in
    ns |> when (Js.truthyU (textX ns))
            (set_textX (Some (Js.add (Js.toNum (textX ns)) dx)))
       |> when (Js.truthyU (textY ns))
            (set_textY (Some (Js.add (Js.toNum (textY ns)) dy)))
  else if isBoxShape (type s) then
    let isX1Min := Js_le (x1 s) (x2 s) in
    let isY1Min := Js_le (y1 s) (y2 s) in
    let addX1 := fun ns => set_x1 (Js.add (x1 ns) dx) ns in
    let addX2 := fun ns => set_x2 (Js.add (x2 ns) dx) ns in
    let addY1 := fun ns => set_y1 (Js.add (y1 ns) dy) ns in
    let addY2 := fun ns => set_y2 (Js.add (y2 ns) dy) ns in
    ns |> when (HandleType.includes editHandle "w")
            (if isX1Min then addX1 else addX2)
       |> when (HandleType.includes editHandle "e")
            (if isX1Min then addX2 else addX1)
       |> when (HandleType.includes editHandle "n")
            (if isY1Min then addY2 else addY1)
       |> when (HandleType.includes editHandle "n")
            (if isY1Min then addY2 else addY1)
       |> when (HandleType.includes editHandle "s")
            (if isY1Min then addY1 else addY2)
  else if HandleType.eqb editHandle HandleType.start then
    ns |> set_x1 (Js.add (x1 ns) dx) |> set_y1 (Js.add (y1 ns) dy)
  else if HandleType.eqb editHandle HandleType.end_ then
    ns |> set_x2 (Js.add (x2 ns) dx) |> set_y2 (Js.add (y2 ns) dy)
  else ns.

End Canvas.

(** * The zoom buttons *)

Module ZoomControls.

Definition zoomIn (scale : num) : num :=
  Math.min (lit 500) (Js.mul scale (Fin (12 / 10))).

Definition zoomOut (scale : num) : num :=
  Math.max (lit 5) (Js.div scale (Fin (12 / 10))).

(** Reset: the offset and the scale the two setters receive. *)
Definition resetView : Point * num := (mkPoint (lit 0) (lit 0), lit 30).

End ZoomControls.

(** ** The events that change the zoom *)

(** The two buttons, the reset button and the mouse wheel. *)
Inductive ZoomEvent : Type :=
  | ZoomIn
  | ZoomOut
  | ResetView
  | Wheel (deltaY : num).

Definition setScale (k : num) (v : Canvas.View) : Canvas.View :=
  Canvas.mkView k (Canvas.offset v) (Canvas.width v) (Canvas.height v)
                (Canvas.container v).

Definition setOffset (o : Point) (v : Canvas.View) : Canvas.View :=
  Canvas.mkView (Canvas.scale v) o (Canvas.width v) (Canvas.height v)
                (Canvas.container v).

(** What each event does to the view: the buttons call [setScale] with
    the value [ZoomControls] computes, reset calls [setOffset] and
    [setScale], the wheel runs [handleWheel]. *)
Definition zoomStep (v : Canvas.View) (ev : ZoomEvent) : Canvas.View :=
  match ev with
  | ZoomIn => setScale (ZoomControls.zoomIn (Canvas.scale v)) v
  | ZoomOut => setScale (ZoomControls.zoomOut (Canvas.scale v)) v
  | ResetView =>
      v |> setOffset (fst ZoomControls.resetView)
        |> setScale (snd ZoomControls.resetView)
  | Wheel deltaY => Canvas.handleWheel deltaY v
  end.

(** * The template library *)

(** [for (let i = 0; i < count; i++) shapes.push(side(generateId(), i))]
    with [n] rounds left, the next identifier being draw number [k]. *)
Fixpoint sidesLoop (rnd : nat -> string) (side : string -> Z -> Shape)
    (i : Z) (n : nat) (k : nat) (shapes : list Shape) : list Shape :=
  match n with
  | O => shapes
  | S n' => sidesLoop rnd side (i + 1)%Z n' (S k) (shapes ++ [side (rnd k) i])
  end.

(** A side of a template: a solid segment of width 2. *)
Definition templateLine (newId : string) (xa ya xb yb : num) : Shape :=
  {| id := newId;
     type := ShapeType.line;
     x1 := xa; y1 := ya; x2 := xb; y2 := yb;
     cx1 := None; cy1 := None; cx2 := None; cy2 := None;
     points := None; textX := None; textY := None;
     style := LineStyle.solid;
     arrow := ArrowStyle.none;
     lineWidth := Some (lit 2);
     fillColor := None;
     strokeColor := None;
     hatchStyle := None;
     rotation := None; startAngle := None; endAngle := None;
     cornerRadius := None;
     isGuide := None;
     text := None |}.

Definition createPolygon (rnd : nat -> string) (sides : Z) (radius : num)
  : list Shape :=
  let angleStep := Js.div (Js.mul (lit 2) Math.PI) (lit sides) in
  let startAngle := Js.div (Js.neg Math.PI) (lit 2) in
  sidesLoop rnd
    (fun newId i =>
       let a1 := Js.add startAngle (Js.mul (lit i) angleStep) in
       let a2 := Js.add startAngle (Js.mul (lit (i + 1)) angleStep) in
       templateLine newId
         (Js.mul radius (Math.cos a1)) (Js.mul radius (Math.sin a1))
         (Js.mul radius (Math.cos a2)) (Js.mul radius (Math.sin a2)))
    0%Z (Z.to_nat sides) 0%nat [].

Definition createStar (rnd : nat -> string) (points : Z)
    (outerRadius innerRadius : num) : list Shape :=
  let angleStep := Js.div Math.PI (lit points) in
  let startAngle := Js.div (Js.neg Math.PI) (lit 2) in
  sidesLoop rnd
    (fun newId i =>
       let r1 := if (i mod 2 =? 0)%Z then outerRadius else innerRadius in
       let r2 := if ((i + 1) mod 2 =? 0)%Z then outerRadius
                 else innerRadius in
       let a1 := Js.add startAngle (Js.mul (lit i) angleStep) in
       let a2 := Js.add startAngle (Js.mul (lit (i + 1)) angleStep) in
       templateLine newId
         (Js.mul r1 (Math.cos a1)) (Js.mul r1 (Math.sin a1))
         (Js.mul r2 (Math.cos a2)) (Js.mul r2 (Math.sin a2)))
    0%Z (Z.to_nat (2 * points)) 0%nat [].

(** * The export dialog *)

(** [shapes.filter(s => !s.isGuide)] *)
Definition exportShapes (shapes : list Shape) : list Shape :=
  List.filter (fun s => negb (match isGuide s with
                              | Some b => b
                              | None => false
                              end)) shapes.

(** * The vocabulary of the properties *)

(** ** Sample data *)

(** A shape of the given type and integer anchors, with the style a freshly
    drawn shape gets and no optional field. *)
Definition sampleShape (i : string) (ty : ShapeType.t) (a b c d : Z) : Shape :=
  {| id := i; type := ty;
     x1 := lit a; y1 := lit b; x2 := lit c; y2 := lit d;
     cx1 := None; cy1 := None; cx2 := None; cy2 := None;
     points := None; textX := None; textY := None;
     style := LineStyle.solid; arrow := ArrowStyle.none;
     lineWidth := Some (lit 2);
     fillColor := Some "none"%string; strokeColor := Some "#facc15"%string;
     hatchStyle := None;
     rotation := None; startAngle := None; endAngle := None;
     cornerRadius := None; isGuide := None; text := None |}.

(** The state [App] starts in, with the given shapes and selection. *)
Definition initialApp (l : list Shape) (sel : gset string) : App :=
  {| shapes := l; history := []; future := [];
     selectedShapeIds := sel; mode := pan;
     offsetDistance := Fin (1 / 2);
     patternDirection := vertical; patternCount := 3;
     patternSpacing := lit 2; circularCount := 6;
     clipboard := None;
     toolbar := Toolbar.mk LineStyle.solid ArrowStyle.none (lit 2)
                  "none" "#facc15" HatchStyle.none |}.

(** A source of identifiers for the concrete instances. *)
Definition ids0 : nat -> string := fun _ => "k0"%string.

(** ** What the loops of the transform operations build *)

(** The shapes a [copyLoop] of [n] rounds pushes, the first identifier
    being draw number [k]. *)
Fixpoint loopShapes (rnd : nat -> string) (mk : string -> Z -> Shape)
    (i : Z) (n : nat) (k : nat) : list Shape :=
  match n with
  | O => []
  | S n' => mk (rnd k) i :: loopShapes rnd mk (i + 1)%Z n' (S k)
  end.

(** One block of [n] copies for each shape of [l], in order. *)
Fixpoint blocks (rnd : nat -> string) (mk : Shape -> string -> Z -> Shape)
    (n : nat) (k : nat) (l : list Shape) : list Shape :=
  match l with
  | [] => []
  | s :: l' => loopShapes rnd (mk s) 1%Z n k ++ blocks rnd mk n (k + n) l'
  end.

(** One copy for each shape of [l], in order. *)
Fixpoint copies (rnd : nat -> string) (g : string -> Shape -> Shape)
    (k : nat) (l : list Shape) : list Shape :=
  match l with
  | [] => []
  | s :: l' => g (rnd k) s :: copies rnd g (S k) l'
  end.

(** The identifiers of the shapes of [l]. *)
Definition idSet (l : list Shape) : gset string := list_to_set (id <$> l).

(** The shapes of the collection that are selected, in order. *)
Definition selectedOf (st : App) : list Shape :=
  List.filter (fun s => has (selectedShapeIds st) (id s)) (shapes st).

(** ** Duplicate and paste *)

(** A Bezier curve drawn upwards along the Y axis, from (0,0) to (0,3),
    with its control points at (0,1) and (0,2). *)
Definition bezierOnAxis : Shape :=
  sampleShape "a" ShapeType.bezier 0 0 0 3
    |> set_cx1 (Some (lit 0)) |> set_cy1 (Some (lit 1))
    |> set_cx2 (Some (lit 0)) |> set_cy2 (Some (lit 2)).

(** ** Fresh identifiers *)

(** The first [m] draws give [m] different identifiers, none of them the
    identifier of a shape of [existing]. *)
Definition freshDraws (rnd : nat -> string) (existing : list Shape) (m : nat)
  : Prop :=
  NoDup (rnd <$> seq 0 m)
  /\ forall k, (k < m)%nat -> rnd k ∉ (id <$> existing).

(** ** Linear pattern *)

Definition translatePoint (vx vy : num) (p : Point) : Point :=
  mkPoint (Js.add (p_x p) vx) (Js.add (p_y p) vy).

(** The shape with every coordinate field it has (both end points, control
    points, label anchor, point list) moved by [(vx, vy)], and nothing else
    changed: translation as the specification words it. *)
Definition translateShape (vx vy : num) (s : Shape) : Shape :=
  {| id := id s; type := type s;
     x1 := Js.add (x1 s) vx; y1 := Js.add (y1 s) vy;
     x2 := Js.add (x2 s) vx; y2 := Js.add (y2 s) vy;
     cx1 := (fun v => Js.add v vx) <$> cx1 s;
     cy1 := (fun v => Js.add v vy) <$> cy1 s;
     cx2 := (fun v => Js.add v vx) <$> cx2 s;
     cy2 := (fun v => Js.add v vy) <$> cy2 s;
     points := map (translatePoint vx vy) <$> points s;
     textX := (fun v => Js.add v vx) <$> textX s;
     textY := (fun v => Js.add v vy) <$> textY s;
     style := style s; arrow := arrow s; lineWidth := lineWidth s;
     fillColor := fillColor s; strokeColor := strokeColor s;
     hatchStyle := hatchStyle s;
     rotation := rotation s; startAngle := startAngle s;
     endAngle := endAngle s;
     cornerRadius := cornerRadius s; isGuide := isGuide s; text := text s |}.

Definition noNaN (o : option num) : Prop := o <> Some NaN.

(** No optional coordinate of the shape holds NaN. *)
Definition coordsNoNaN (s : Shape) : Prop :=
  noNaN (cx1 s) /\ noNaN (cy1 s) /\ noNaN (cx2 s) /\ noNaN (cy2 s)
  /\ noNaN (textX s) /\ noNaN (textY s).

(** ** Circular pattern *)

(** The radius the handler gives the guide circle, from the bounds of the
    selection. *)
Definition guideRadius (cx cy : num) (b : num * num * num * num) : num :=
  let '(minX, maxX, minY, maxY) := b in
  let selCenterX := Js.div (Js.add minX maxX) (lit 2) in
  let selCenterY := Js.div (Js.add minY maxY) (lit 2) in
  Math.sqrt (Js.add (Math.pow2 (Js.sub selCenterX cx))
                    (Math.pow2 (Js.sub selCenterY cy))).

Definition angleStepOf (count : Z) : num :=
  Js.div (Js.mul (lit 2) Math.PI) (lit count).

(** The copy the handler builds in round [i] for the shape [s]. *)
Definition circularMk (cx cy : num) (count : Z) (s : Shape) (newId : string)
    (i : Z) : Shape :=
  circularCopy newId cx cy (Js.mul (lit i) (angleStepOf count)) s.

(** The centre of a box-based shape: its first anchor for [circle],
    [ellipse], [arc] and [text], the middle of its two corners for [rect]
    and [round_rect]. *)
Definition centerOf (s : Shape) : Point :=
  if ShapeType.includes centerAnchored (type s) then mkPoint (x1 s) (y1 s)
  else mkPoint (Js.div (Js.add (x1 s) (x2 s)) (lit 2))
               (Js.div (Js.add (y1 s) (y2 s)) (lit 2)).

Definition widthOf (s : Shape) : num := Math.abs (Js.sub (x2 s) (x1 s)).

Definition heightOf (s : Shape) : num := Math.abs (Js.sub (y2 s) (y1 s)).


(** The square [rect] of corners (-1,-1) and (1,1). *)
Definition unitSquare : Shape := sampleShape "a" ShapeType.rect (-1) (-1) 1 1.

(** The state in which [unitSquare] is selected and the count is 4. *)
Definition squareApp : App :=
  {| shapes := [unitSquare]; history := []; future := [];
     selectedShapeIds := {[ "a"%string ]}; mode := circular_pattern;
     offsetDistance := Fin (1 / 2);
     patternDirection := vertical; patternCount := 3;
     patternSpacing := lit 2; circularCount := 4;
     clipboard := None;
     toolbar := Toolbar.mk LineStyle.solid ArrowStyle.none (lit 2)
                  "none" "#facc15" HatchStyle.none |}.

(** ** The guide circle *)

(** The real value of a finite number. *)
Definition Rval (a : num) : R :=
  match a with
  | Fin r => r
  | _ => 0
  end.

Definition finiteAnchors (s : Shape) : Prop :=
  finite (x1 s) /\ finite (y1 s) /\ finite (x2 s) /\ finite (y2 s).




(** The distance between [(x, y)] and [(px, py)]. *)
Definition dist (x y px py : R) : R :=
  sqrt ((x - px) * (x - px) + (y - py) * (y - py)).

(** ** Offset *)

(** Whether the inset copy of [s] is built; the identifier plays no part. *)
Definition offsetOk (dist : num) (s : Shape) : bool :=
  isDefined (offsetShape ""%string dist s).

(** The shapes [handleOffset] pushes for the shapes of [l], the next
    identifier being draw number [k]. *)
Fixpoint offsets (rnd : nat -> string) (dist : num) (k : nat)
    (l : list Shape) : list Shape :=
  match l with
  | [] => []
  | s :: l' =>
      match offsetShape (rnd k) dist s with
      | Some ns => ns :: offsets rnd dist (S k) l'
      | None => offsets rnd dist k l'
      end
  end.


(** ** Mirror *)

Definition optList (o : option num) : list num :=
  match o with
  | Some v => [v]
  | None => []
  end.

Definition pointCoords (o : option (list Point)) : list num :=
  match o with
  | Some ps => flat_map (fun p => [p_x p; p_y p]) ps
  | None => []
  end.

(** Every coordinate the shape holds: anchors, control points, label
    anchor, point list. *)
Definition coordsOf (s : Shape) : list num :=
  [x1 s; y1 s; x2 s; y2 s]
  ++ optList (cx1 s) ++ optList (cy1 s) ++ optList (cx2 s) ++ optList (cy2 s)
  ++ optList (textX s) ++ optList (textY s) ++ pointCoords (points s).

(** ** Reflection in real arithmetic *)

(** [round4] on a finite number. *)
Definition Rround4 (x : R) : R := Math.Rround (x * 10000) / 10000.

(** The two coefficients of the reflection across the line through
    [(lx1, ly1)] and [(lx2, ly2)]. *)
Definition coefA (lx1 ly1 lx2 ly2 : R) : R :=
  ((lx2 - lx1) * (lx2 - lx1) - (ly2 - ly1) * (ly2 - ly1))
  / ((lx2 - lx1) * (lx2 - lx1) + (ly2 - ly1) * (ly2 - ly1)).

Definition coefB (lx1 ly1 lx2 ly2 : R) : R :=
  2 * (lx2 - lx1) * (ly2 - ly1)
  / ((lx2 - lx1) * (lx2 - lx1) + (ly2 - ly1) * (ly2 - ly1)).

(** The exact image of [(px, py)]. *)
Definition reflectX (lx1 ly1 lx2 ly2 px py : R) : R :=
  coefA lx1 ly1 lx2 ly2 * (px - lx1) + coefB lx1 ly1 lx2 ly2 * (py - ly1)
  + lx1.

Definition reflectY (lx1 ly1 lx2 ly2 px py : R) : R :=
  coefB lx1 ly1 lx2 ly2 * (px - lx1) - coefA lx1 ly1 lx2 ly2 * (py - ly1)
  + ly1.

(** The image the program computes: the exact one, rounded. *)
Definition mirrorX (lx1 ly1 lx2 ly2 px py : R) : R :=
  Rround4 (reflectX lx1 ly1 lx2 ly2 px py).

Definition mirrorY (lx1 ly1 lx2 ly2 px py : R) : R :=
  Rround4 (reflectY lx1 ly1 lx2 ly2 px py).

(** The tolerance two mirrors in a row stay within. *)
Definition tolerance : R := (1 + sqrt 2) / 2 * / 10000.

(** ** The mirror image, field by field *)

Definition isRect (ty : ShapeType.t) : bool :=
  ShapeType.eqb ty ShapeType.rect || ShapeType.eqb ty ShapeType.round_rect.

Definition isBox (ty : ShapeType.t) : bool :=
  ShapeType.includes boxBasedMirror ty.

Definition isText (ty : ShapeType.t) : bool :=
  ShapeType.eqb ty ShapeType.text.

Definition isArc (ty : ShapeType.t) : bool :=
  ShapeType.eqb ty ShapeType.arc.

(** The image of one point of a point list. *)
Definition mirrorPoint (a b c d : num) (p : Point) : Point :=
  let q := reflectPoint a b c d (Some (p_x p)) (Some (p_y p)) in
  mkPoint (Js.toNum (fst q)) (Js.toNum (snd q)).

(** ** Two mirrors in a row *)

(** Two finite numbers at most [tol] apart. *)
Definition closeTo (tol : R) (u v : num) : Prop :=
  exists x y : R, u = Fin x /\ v = Fin y /\ Rabs (x - y) <= tol.

(** Two optional numbers: the same, or both there and close. *)
Definition closeU (tol : R) (o1 o2 : option num) : Prop :=
  o1 = o2
  \/ exists u v, o1 = Some u /\ o2 = Some v /\ closeTo tol u v.

Definition closePoint (tol : R) (p q : Point) : Prop :=
  closeTo tol (p_x p) (p_x q) /\ closeTo tol (p_y p) (p_y q).

(** Two optional point lists: the same, or both there and close, point by
    point. *)
Definition closePoints (tol : R) (o1 o2 : option (list Point)) : Prop :=
  o1 = o2
  \/ exists l1 l2, o1 = Some l1 /\ o2 = Some l2
                   /\ Forall2 (closePoint tol) l1 l2.

(** An optional coordinate pair that, when its X is there, is a pair of
    finite numbers. *)
Definition finitePair (ox oy : option num) : Prop :=
  match ox with
  | Some u => finite u /\ exists v, oy = Some v /\ finite v
  | None => True
  end.

(** A shape whose numbers are all finite and whose pairs are complete. *)
Definition finiteShape (s : Shape) : Prop :=
  finiteAnchors s
  /\ finitePair (cx1 s) (cy1 s) /\ finitePair (cx2 s) (cy2 s)
  /\ finitePair (textX s) (textY s)
  /\ Forall finite (pointCoords (points s))
  /\ finiteU (rotation s) /\ finiteU (startAngle s) /\ finiteU (endAngle s).

(** The anchors a shape comes back to after two mirrors: the corners of a
    [rect] or [round_rect] in order, least first; for a [text] the anchor
    twice; for every other type its own anchors. *)
Definition canonicalAnchors (s : Shape) : num * num * num * num :=
  if isRect (type s) then
    (Math.min (x1 s) (x2 s), Math.min (y1 s) (y2 s),
     Math.max (x1 s) (x2 s), Math.max (y1 s) (y2 s))
  else if isText (type s) then (x1 s, y1 s, x1 s, y1 s)
  else (x1 s, y1 s, x2 s, y2 s).

(** One mirror of an optional pair, when it is mirrored at all. *)
Definition pairStep (lx1 ly1 lx2 ly2 : R) (p : option num * option num)
  : option num * option num :=
  if isDefined (fst p)
  then reflectPoint (Fin lx1) (Fin ly1) (Fin lx2) (Fin ly2) (fst p) (snd p)
  else p.

(** Twice the angle of the line. *)
Definition twiceLineAngle (lx1 ly1 lx2 ly2 : R) : R :=
  2 * Math.Ratan2 (ly2 - ly1) (lx2 - lx1).

(** A segment one end of which lies off the grid of four decimal places. *)
Definition offGridLine : Shape :=
  sampleShape "a" ShapeType.line 0 0 0 0
    |> set_x1 (Fin (197 / 1000000)) |> set_y1 (Fin (171 / 1000000)).

(** ** The timeline of the edit history *)

(** Every collection the history knows, oldest first: the undo stack, the
    current collection, and the redo stack from its top down. *)
Definition timeline (st : App) : list (list Shape) :=
  history st ++ [shapes st] ++ rev (future st).

(** The operations of [ops] carried out one after the other, each with its
    own source of identifiers. *)
Fixpoint performAll (ops : list ((nat -> string) * Op)) (st : App) : App :=
  match ops with
  | [] => st
  | (rnd, op) :: ops' => performAll ops' (perform rnd op st)
  end.

(** Each operation of [ops] passes the opening test of its handler in the
    state it meets. *)
Fixpoint allPerformed (ops : list ((nat -> string) * Op)) (st : App) : bool :=
  match ops with
  | [] => true
  | (rnd, op) :: ops' =>
      performed op st && allPerformed ops' (perform rnd op st)
  end.

(** Two shapes drawn one after the other. *)
Definition opsSample : list ((nat -> string) * Op) :=
  [(ids0, OpShapeAdd (sampleShape "a" ShapeType.line 0 0 3 4));
   (ids0, OpShapeAdd (sampleShape "b" ShapeType.rect 0 0 1 1))].

(** ** Shapes moved, updated, edited *)

(** The shape the canvas hands back for [s], or [s] itself. *)
Definition updated (u : list Shape) (s : Shape) : Shape :=
  match findById u (id s) with
  | Some x => x
  | None => s
  end.

(** The shapes of [l], the selected ones moved by [(dx, dy)]. *)
Definition nudged (sel : gset string) (dx dy : num) (l : list Shape)
  : list Shape :=
  map (fun s => if has sel (id s) then translateShape dx dy s else s) l.

(** What places a shape: its identifier, its type and every coordinate it
    holds. *)
Definition geometry (s : Shape) : string * ShapeType.t * list num :=
  (id s, type s, coordsOf s).

(** The four anchor coordinates of a shape. *)
Definition anchors (s : Shape) : num * num * num * num :=
  (x1 s, y1 s, x2 s, y2 s).

(** What a shape looks like, its place apart: line style, arrow, line
    width, colours, hatching, sweep of an arc, corner radius, guide mark
    and text. *)
Definition appearance (s : Shape) :=
  (style s, arrow s, lineWidth s, fillColor s, strokeColor s, hatchStyle s,
   startAngle s, endAngle s, cornerRadius s, isGuide s, text s).

(** A shape that is not a guide. *)
Definition notGuide (s : Shape) : Prop := isGuide s <> Some true.

(** A line and a circle of radius 5, for the concrete instances. *)
Definition lineA : Shape := sampleShape "a" ShapeType.line 0 0 3 4.


(** An arc with its sweep from 0 to 1. *)
Definition arcA : Shape :=
  sampleShape "a" ShapeType.arc 0 0 1 1
    |> set_startAngle (Some (Fin 0)) |> set_endAngle (Some (Fin 1)).

(** The unit square with a corner at the origin. *)
Definition rectB : Shape := sampleShape "b" ShapeType.rect 0 0 1 1.

(** The states in which [lineA], or [circleA], is selected. *)
Definition lineApp : App := initialApp [lineA] {[ "a"%string ]}.


(** ** Keyboard *)

(** A key pressed outside an input field. *)
Definition press (meta ctrl shift : bool) (k : string) : KeyboardEvent :=
  mkKeyboardEvent false meta ctrl shift k.

(** The interface with [st] as its drawing and the dialog closed. *)
Definition uiOf (st : App) : Ui := mkUi st false None.

(** ** The canvas *)

(** A view whose numbers are all finite, on a mounted container. *)
Definition finiteView (k ox oy w h l t : R) : Canvas.View :=
  Canvas.mkView (Fin k) (mkPoint (Fin ox) (Fin oy)) (Fin w) (Fin h)
                (Some (Canvas.mkClientRect (Fin l) (Fin t))).

(** The point [(x, y)]. *)
Definition pt (x y : R) : Point := mkPoint (Fin x) (Fin y).

(** The point of the segment from [(vx, vy)] to [(wx, wy)] at the
    parameter [s]. *)
Definition along (vx vy wx wy s : R) : R * R :=
  (vx + s * (wx - vx), vy + s * (wy - vy)).

(** A wheel event carries a finite amount. *)
Definition finiteWheel (ev : ZoomEvent) : Prop :=
  match ev with
  | Wheel deltaY => finite deltaY
  | _ => True
  end.

(** The scale is a finite number from 5 to 500. *)
Definition scaleInRange (v : Canvas.View) : Prop :=
  exists k, Canvas.scale v = Fin k /\ 5 <= k <= 500.

(** ** Templates *)

(** The point at the angle [-PI/2 + k * step] of the circle of radius [r]
    about the origin, in the arithmetic of the program: the step times
    [k], added to the start angle, then the radius times the cosine and
    the sine. *)
Definition spoke (r step : num) (k : Z) : num * num :=
  let a := Js.add (Js.div (Js.neg Math.PI) (lit 2)) (Js.mul (lit k) step) in
  (Js.mul r (Math.cos a), Js.mul r (Math.sin a)).

(** The segment from [p] to [q], as a template has it. *)
Definition isSide (s : Shape) (newId : string) (p q : num * num) : Prop :=
  id s = newId /\ type s = ShapeType.line
  /\ anchors s = (fst p, snd p, fst q, snd q).

(** The tip number [k] of a star: on the outer circle when [k] is even, on
    the inner one when it is odd. *)
Definition starTip (points : Z) (outer inner : num) (k : Z) : num * num :=
  spoke (if (k mod 2 =? 0)%Z then outer else inner)
        (Js.div Math.PI (lit points)) k.

(** ** Turning about a pivot, in the arithmetic of the program *)

(** The point [(x, y)] turned counter-clockwise by [angle] about the pivot:
    the rotation matrix applied to the offset from the pivot, with the
    operations of the program in their order - the two products, their
    difference (for the abscissa) or sum (for the ordinate), then the
    pivot added. *)
Definition turnedAbout (pivotX pivotY angle x y : num) : Point :=
  mkPoint
    (Js.add (Js.sub (Js.mul (Math.cos angle) (Js.sub x pivotX))
                    (Js.mul (Math.sin angle) (Js.sub y pivotY))) pivotX)
    (Js.add (Js.add (Js.mul (Math.sin angle) (Js.sub x pivotX))
                    (Js.mul (Math.cos angle) (Js.sub y pivotY))) pivotY).

(** ** Identifiers that differ, and a circle *)

(** A source of identifiers whose first draws differ. *)
Definition ids1 (k : nat) : string :=
  match k with
  | 0%nat => "k0"
  | 1%nat => "k1"
  | 2%nat => "k2"
  | _ => "k3"
  end.





(** * Properties *)

(** ** Edit history *)

Lemma ltb_0_eqb_0 (n : nat) : Nat.ltb 0 n = negb (Nat.eqb n 0).
Proof. destruct n; reflexivity. Qed.

(** An operation that is carried out pushes the collection it found and
    empties the redo stack. *)
Lemma perform_pushes rnd op st :
  performed op st = true ->
  history (perform rnd op st) = history st ++ [shapes st]
  /\ future (perform rnd op st) = [].
Proof.
  destruct op; simpl; intros Hg.
  - split; reflexivity.
  - unfold handleDuplicate.
    destruct (Nat.eqb (size (selectedShapeIds st)) 0); [discriminate|].
    split; reflexivity.
  - unfold handlePaste. destruct (clipboard st) as [clip|]; [|discriminate].
    rewrite Hg. split; reflexivity.
  - unfold handleLinearPattern.
    destruct (Nat.eqb (size (selectedShapeIds st)) 0); [discriminate|].
    destruct (patternCount st <? 2)%Z; [discriminate|].
    destruct (stepVector _ _). split; reflexivity.
  - unfold handleCircularPatternCenter.
    destruct (Nat.eqb (size (selectedShapeIds st)) 0); [discriminate|].
    destruct (circularCount st <? 2)%Z; [discriminate|]. simpl.
    destruct (selectionBounds _) as [[[? ?] ?] ?]. split; reflexivity.
  - unfold handleOffset.
    destruct (Nat.eqb (size (selectedShapeIds st)) 0); [discriminate|].
    match goal with |- context [if ?b then _ else _] => destruct b end;
      split; reflexivity.
  - split; reflexivity.
  - unfold handleNudge.
    destruct (Nat.eqb (size (selectedShapeIds st)) 0); [discriminate|].
    split; reflexivity.
  - unfold handleDelete. rewrite ltb_0_eqb_0, Hg. split; reflexivity.
  - unfold updateSelectedProperty. simpl. rewrite ltb_0_eqb_0, Hg.
    split; reflexivity.
Qed.

Lemma handleUndo_nonempty st :
  history st <> [] ->
  handleUndo st =
    st |> setFuture (future st ++ [shapes st])
       |> setShapes (List.last (history st) [])
       |> setHistory (removelast (history st))
       |> setSelectedShapeIds
            (pruneSelection (List.last (history st) []) (selectedShapeIds st)).
Proof.
  intros H. unfold handleUndo. destruct (history st); [congruence|reflexivity].
Qed.

Lemma handleRedo_nonempty st :
  future st <> [] ->
  handleRedo st =
    st |> setHistory (history st ++ [shapes st])
       |> setShapes (List.last (future st) [])
       |> setFuture (removelast (future st))
       |> setSelectedShapeIds
            (pruneSelection (List.last (future st) []) (selectedShapeIds st)).
Proof.
  intros H. unfold handleRedo. destruct (future st); [congruence|reflexivity].
Qed.

Lemma snoc_nonempty {A : Type} (l : list A) (a : A) : l ++ [a] <> [].
Proof. destruct l; discriminate. Qed.

Lemma findById_is_Some (l : list Shape) (i : string) :
  is_Some (findById l i) <-> exists s, s ∈ l /\ id s = i.
Proof.
  unfold findById. split.
  - intros [s Hs]. apply find_some in Hs as [Hin Heq].
    exists s. split; [apply list_elem_of_In; exact Hin|].
    apply String.eqb_eq. exact Heq.
  - intros (s & Hin & Heq).
    destruct (List.find _ l) as [s'|] eqn:E; [eexists; reflexivity|].
    exfalso. apply list_elem_of_In in Hin.
    pose proof (find_none _ _ E s Hin) as Hn. simpl in Hn.
    apply String.eqb_neq in Hn. contradiction.
Qed.

Lemma pruneSelection_spec (restored : list Shape) (prev : gset string) i :
  i ∈ pruneSelection restored prev
  <-> i ∈ prev /\ exists s, s ∈ restored /\ id s = i.
Proof.
  unfold pruneSelection. rewrite elem_of_filter, findById_is_Some. tauto.
Qed.

(** C1. Undo/redo inverse law: when an operation [X] (shape add, duplicate,
    paste, linear or circular pattern, offset, mirror, nudge, delete,
    property update) is carried out, an undo right after it brings back
    exactly the collection (and the undo stack) of before [X]; a redo right
    after that undo brings back exactly the collection of after [X]; and
    any operation [Y] carried out after the undo leaves the redo stack,
    which the undo had filled, empty. *)
Theorem undo_redo_inverse (rnd rnd' : nat -> string) (X Y : Op) (st : App) :
  performed X st = true ->
  let st1 := perform rnd X st in
  let st2 := handleUndo st1 in
  (shapes st2 = shapes st /\ history st2 = history st
   /\ future st2 = [shapes st1])
  /\ (shapes (handleRedo st2) = shapes st1
      /\ history (handleRedo st2) = history st1
      /\ future (handleRedo st2) = [])
  /\ (performed Y st2 = true -> future (perform rnd' Y st2) = []).
Proof.
  intros HX st1 st2.
  destruct (perform_pushes rnd X st HX) as [Hh Hf].
  fold st1 in Hh, Hf.
  assert (E2 : st2 =
    st1 |> setFuture [shapes st1]
        |> setShapes (shapes st)
        |> setHistory (history st)
        |> setSelectedShapeIds
             (pruneSelection (shapes st) (selectedShapeIds st1))).
  { unfold st2. rewrite handleUndo_nonempty.
    - rewrite Hh, Hf, last_last, removelast_last. reflexivity.
    - rewrite Hh. apply snoc_nonempty. }
  split; [|split].
  - rewrite E2. simpl. auto.
  - rewrite handleRedo_nonempty.
    + rewrite E2. simpl. rewrite Hh. auto.
    + rewrite E2. simpl. discriminate.
  - intros HY. apply (perform_pushes rnd' Y st2 HY).
Qed.

Lemma undo_redo_inverse_witness :
  let X := OpShapeAdd (sampleShape "a" ShapeType.line 0 0 3 4) in
  let Y := OpShapeAdd (sampleShape "b" ShapeType.line 1 1 2 2) in
  let st := initialApp [] ∅ in
  performed X st = true
  /\ shapes (handleUndo (perform ids0 X st)) = []
  /\ shapes (handleRedo (handleUndo (perform ids0 X st)))
     = [sampleShape "a" ShapeType.line 0 0 3 4]
  /\ future (perform ids0 Y (handleUndo (perform ids0 X st))) = [].
Proof.
  intros X Y st.
  assert (HX : performed X st = true) by reflexivity.
  destruct (undo_redo_inverse ids0 ids0 X Y st HX) as [[H1 _] [[H2 _] H3]].
  split; [exact HX|]. split; [exact H1|]. split; [exact H2|].
  apply H3. reflexivity.
Defined.

(** C7. Selection pruning: after an undo that restores a collection, and
    after a redo that restores one, an identifier is selected if and only
    if it was selected before and the restored collection has a shape with
    that identifier; so the selection holds only identifiers of restored
    shapes and gains none. *)
Theorem undo_redo_prune_selection (st : App) :
  (history st <> [] ->
   forall i, i ∈ selectedShapeIds (handleUndo st)
     <-> i ∈ selectedShapeIds st
         /\ exists s, s ∈ shapes (handleUndo st) /\ id s = i)
  /\ (future st <> [] ->
      forall i, i ∈ selectedShapeIds (handleRedo st)
        <-> i ∈ selectedShapeIds st
            /\ exists s, s ∈ shapes (handleRedo st) /\ id s = i).
Proof.
  split; intros H i.
  - rewrite handleUndo_nonempty by exact H. simpl.
    apply pruneSelection_spec.
  - rewrite handleRedo_nonempty by exact H. simpl.
    apply pruneSelection_spec.
Qed.

Lemma undo_redo_prune_selection_witness :
  let a := sampleShape "a" ShapeType.line 0 0 3 4 in
  let b := sampleShape "b" ShapeType.rect 0 0 1 1 in
  let st := initialApp [a; b] {[ "a"; "b" ]}
              |> setHistory [[a]] |> setFuture [[b]] in
  (history st <> [] /\ future st <> [])
  /\ ("a"%string ∈ selectedShapeIds (handleUndo st)
      /\ "b"%string ∉ selectedShapeIds (handleUndo st))
  /\ ("b"%string ∈ selectedShapeIds (handleRedo st)
      /\ "a"%string ∉ selectedShapeIds (handleRedo st)).
Proof.
  intros a b st.
  assert (Hh : history st <> []) by discriminate.
  assert (Hf : future st <> []) by discriminate.
  destruct (undo_redo_prune_selection st) as [Hu Hr].
  specialize (Hu Hh). specialize (Hr Hf).
  split; [split; assumption|].
  assert (Hab : forall s : Shape, s ∈ [a] -> id s = "b"%string -> False).
  { intros s Hs E. apply list_elem_of_singleton in Hs. subst s. discriminate. }
  assert (Hba : forall s : Shape, s ∈ [b] -> id s = "a"%string -> False).
  { intros s Hs E. apply list_elem_of_singleton in Hs. subst s. discriminate. }
  split; split.
  - apply (Hu "a"%string). split; [set_solver|]. exists a.
    split; [|reflexivity]. apply list_elem_of_singleton. reflexivity.
  - intros Hin. apply (Hu "b"%string) in Hin as [_ (s & Hs & E)].
    exact (Hab s Hs E).
  - apply (Hr "b"%string). split; [set_solver|]. exists b.
    split; [|reflexivity]. apply list_elem_of_singleton. reflexivity.
  - intros Hin. apply (Hr "a"%string) in Hin as [_ (s & Hs & E)].
    exact (Hba s Hs E).
Defined.

(** C10. Undo on an empty undo stack changes nothing: the collection, the
    selection and both stacks (the whole state) stay as they are; so does
    redo on an empty redo stack. *)
Theorem undo_redo_empty_noop (st : App) :
  (history st = [] -> handleUndo st = st)
  /\ (future st = [] -> handleRedo st = st).
Proof.
  split; intros H.
  - unfold handleUndo. rewrite H. reflexivity.
  - unfold handleRedo. rewrite H. reflexivity.
Qed.

Lemma undo_redo_empty_noop_witness :
  let st := initialApp [sampleShape "a" ShapeType.line 0 0 3 4] {[ "a" ]} in
  (history st = [] /\ future st = [])
  /\ handleUndo st = st /\ handleRedo st = st.
Proof.
  intros st.
  destruct (undo_redo_empty_noop st) as [Hu Hr].
  split; [split; reflexivity|].
  split; [apply Hu; reflexivity | apply Hr; reflexivity].
Defined.

(** ** What the loops of the transform operations build *)

Lemma idSet_app (l1 l2 : list Shape) : idSet (l1 ++ l2) = idSet l1 ∪ idSet l2.
Proof. unfold idSet. rewrite fmap_app, list_to_set_app_L. reflexivity. Qed.

Lemma idSet_cons (s : Shape) (l : list Shape) :
  idSet (s :: l) = {[ id s ]} ∪ idSet l.
Proof. reflexivity. Qed.

Lemma elem_of_idSet (l : list Shape) (i : string) :
  i ∈ idSet l <-> exists s, s ∈ l /\ id s = i.
Proof.
  unfold idSet. rewrite elem_of_list_to_set, list_elem_of_fmap.
  split; intros (s & H1 & H2); exists s; auto.
Qed.

Lemma forEach_filter {A S : Type} (p : A -> bool) (f : A -> S -> S)
    (l : list A) (acc : S) :
  forEach l (fun a acc => if p a then f a acc else acc) acc
  = forEach (List.filter p l) f acc.
Proof.
  unfold forEach. revert acc.
  induction l as [|a l IH]; intros acc; simpl; [reflexivity|].
  destruct (p a); simpl; apply IH.
Qed.

Lemma forEach_filter_neg {A S : Type} (p : A -> bool) (f : A -> S -> S)
    (l : list A) (acc : S) :
  forEach l (fun a acc => if negb (p a) then acc else f a acc) acc
  = forEach (List.filter p l) f acc.
Proof.
  unfold forEach. revert acc.
  induction l as [|a l IH]; intros acc; simpl; [reflexivity|].
  destruct (p a); simpl; apply IH.
Qed.

Lemma loopShapes_length rnd mk n : forall i k,
  length (loopShapes rnd mk i n k) = n.
Proof. induction n; intros; simpl; [|rewrite IHn]; reflexivity. Qed.

Lemma loopShapes_lookup rnd mk n : forall i k (j : nat),
  (j < n)%nat ->
  loopShapes rnd mk i n k !! j
  = Some (mk (rnd (k + j)%nat) (i + Z.of_nat j)%Z).
Proof.
  induction n as [|n IH]; intros i k j Hj; [lia|].
  destruct j as [|j]; simpl.
  - rewrite Nat.add_0_r, Z.add_0_r. reflexivity.
  - rewrite IH by lia.
    replace (S k + j)%nat with (k + S j)%nat by lia.
    replace (i + 1 + Z.of_nat j)%Z with (i + Z.of_nat (S j))%Z by lia.
    reflexivity.
Qed.

Lemma copyLoop_spec rnd mk n : forall i acc,
  copyLoop rnd mk i n acc
  = mkAcc (newShapes acc ++ loopShapes rnd mk i n (draws acc))
          (newIds acc ∪ idSet (loopShapes rnd mk i n (draws acc)))
          (draws acc + n).
Proof.
  induction n as [|n IH]; intros i acc; simpl.
  - destruct acc as [l s k]; simpl. rewrite app_nil_r. f_equal.
    + unfold idSet; simpl. set_solver.
    + lia.
  - rewrite IH. simpl. f_equal.
    + rewrite <- app_assoc. reflexivity.
    + rewrite idSet_cons. set_solver.
    + lia.
Qed.

Lemma blocks_length rnd mk n l : forall k,
  length (blocks rnd mk n k l) = (length l * n)%nat.
Proof.
  induction l as [|s l IH]; intros k; simpl; [reflexivity|].
  rewrite length_app, loopShapes_length, IH. reflexivity.
Qed.

Lemma blocks_lookup rnd mk n l : forall k (j i : nat) (s : Shape),
  l !! j = Some s -> (i < n)%nat ->
  blocks rnd mk n k l !! (j * n + i)%nat
  = Some (mk s (rnd (k + (j * n + i))%nat) (1 + Z.of_nat i)%Z).
Proof.
  induction l as [|s0 l IH]; intros k j i s Hj Hi; [discriminate|].
  destruct j as [|j]; simpl in *.
  - inversion Hj; subst s0.
    rewrite lookup_app_l by (rewrite loopShapes_length; exact Hi).
    apply loopShapes_lookup. exact Hi.
  - rewrite lookup_app_r by (rewrite loopShapes_length; lia).
    rewrite loopShapes_length.
    replace (n + j * n + i - n)%nat with (j * n + i)%nat by lia.
    rewrite (IH _ _ _ _ Hj Hi).
    replace (k + n + (j * n + i))%nat with (k + (n + j * n + i))%nat by lia.
    reflexivity.
Qed.

Lemma forEach_blocks rnd (mk : Shape -> string -> Z -> Shape) n l :
  forall acc,
  forEach l (fun s acc => copyLoop rnd (mk s) 1%Z n (acc |> addId (id s))) acc
  = mkAcc (newShapes acc ++ blocks rnd mk n (draws acc) l)
          (newIds acc ∪ idSet l ∪ idSet (blocks rnd mk n (draws acc) l))
          (draws acc + length l * n).
Proof.
  unfold forEach.
  induction l as [|s l IH]; intros acc; simpl.
  - destruct acc as [a b c]; simpl. rewrite app_nil_r. f_equal.
    + unfold idSet; simpl. set_solver.
    + lia.
  - rewrite IH, copyLoop_spec. simpl. f_equal.
    + rewrite <- app_assoc. reflexivity.
    + rewrite idSet_cons, idSet_app. set_solver.
    + lia.
Qed.

Lemma copies_length rnd g l : forall k, length (copies rnd g k l) = length l.
Proof. induction l; intros; simpl; [|rewrite IHl]; reflexivity. Qed.

Lemma copies_lookup rnd g l : forall k (j : nat) (s : Shape),
  l !! j = Some s -> copies rnd g k l !! j = Some (g (rnd (k + j)%nat) s).
Proof.
  induction l as [|s0 l IH]; intros k j s Hj; [discriminate|].
  destruct j as [|j]; simpl in *.
  - inversion Hj. rewrite Nat.add_0_r. reflexivity.
  - rewrite (IH _ _ _ Hj).
    replace (S k + j)%nat with (k + S j)%nat by lia. reflexivity.
Qed.

Lemma forEach_copies rnd (g : string -> Shape -> Shape) l : forall acc,
  forEach l (fun s acc =>
               acc |> tick |> push (g (rnd (draws acc)) s)
                   |> addId (id (g (rnd (draws acc)) s))) acc
  = mkAcc (newShapes acc ++ copies rnd g (draws acc) l)
          (newIds acc ∪ idSet (copies rnd g (draws acc) l))
          (draws acc + length l).
Proof.
  unfold forEach.
  induction l as [|s l IH]; intros acc; simpl.
  - destruct acc as [a b c]; simpl. rewrite app_nil_r. f_equal.
    + unfold idSet; simpl. set_solver.
    + lia.
  - rewrite IH. simpl. f_equal.
    + rewrite <- app_assoc. reflexivity.
    + rewrite idSet_cons. set_solver.
    + lia.
Qed.

(** ** Evaluating the number tests *)

Lemma Rzero_true (r : R) : r = 0 -> Rzero r = true.
Proof. intros H. unfold Rzero. destruct (Req_dec_T r 0); [reflexivity|contradiction]. Qed.

Lemma Rzero_false (r : R) : r <> 0 -> Rzero r = false.
Proof. intros H. unfold Rzero. destruct (Req_dec_T r 0); [contradiction|reflexivity]. Qed.

Lemma Rpos_true (r : R) : 0 < r -> Rpos r = true.
Proof. intros H. unfold Rpos. destruct (Rlt_dec 0 r); [reflexivity|contradiction]. Qed.

Lemma Rpos_false (r : R) : r <= 0 -> Rpos r = false.
Proof. intros H. unfold Rpos. destruct (Rlt_dec 0 r); [lra|reflexivity]. Qed.

Lemma Rneg_true (r : R) : r < 0 -> Rneg r = true.
Proof. intros H. unfold Rneg. destruct (Rlt_dec r 0); [reflexivity|contradiction]. Qed.

Lemma Rneg_false (r : R) : 0 <= r -> Rneg r = false.
Proof. intros H. unfold Rneg. destruct (Rlt_dec r 0); [lra|reflexivity]. Qed.

Lemma gt_Fin (x y : R) : Js.gt (Fin x) (Fin y) = true <-> y < x.
Proof. simpl. destruct (Rlt_dec y x); split; intros; try easy. Qed.

Lemma ge_Fin (x y : R) : Js.ge (Fin x) (Fin y) = true <-> y <= x.
Proof. simpl. destruct (Rle_dec y x); split; intros; try easy. Qed.

Lemma eq_Fin (x y : R) : Js.eq (Fin x) (Fin y) = true <-> x = y.
Proof. simpl. destruct (Req_dec_T x y); split; intros; try easy. Qed.

Lemma div_Fin (x y : R) : y <> 0 -> Js.div (Fin x) (Fin y) = Fin (x / y).
Proof. intros H. simpl. rewrite Rzero_false by exact H. reflexivity. Qed.

Lemma truthy_zero : Js.truthy (lit 0) = false.
Proof. simpl. rewrite Rzero_true; reflexivity. Qed.

Lemma has_true (sel : gset string) (i : string) : i ∈ sel -> has sel i = true.
Proof. intros H. unfold has. apply bool_decide_eq_true. exact H. Qed.

Lemma has_false (sel : gset string) (i : string) : i ∉ sel -> has sel i = false.
Proof. intros H. unfold has. apply bool_decide_eq_false. exact H. Qed.

(** ** Duplicate and paste *)

Lemma duplicateShape_id (newId : string) (shape : Shape) :
  id (duplicateShape newId shape) = newId.
Proof.
  unfold duplicateShape, when.
  destruct (points shape);
    repeat match goal with
           | |- context [if ?b then _ else _] => destruct b
           end; reflexivity.
Qed.

(** A control coordinate that is exactly 0 stays where it is in the copy. *)
Lemma duplicateShape_zero_cx1 (newId : string) (shape : Shape) :
  cx1 shape = Some (lit 0) -> cx1 (duplicateShape newId shape) = Some (lit 0).
Proof.
  intros H.
  assert (Hf : Js.truthyU (cx1 shape) = false).
  { rewrite H. apply truthy_zero. }
  unfold duplicateShape. rewrite Hf. unfold when.
  destruct (points shape);
    destruct (_ || _);
    repeat match goal with
           | |- context [if ?b then _ else _] => destruct b
           end; simpl; exact H.
Qed.

(** C9, evaluated where it fails.  Duplicating the selected curve
    [bezierOnAxis] appends one copy, selects it, and moves its end points
    and the Y of its control points by (+2, -2); the X of both control
    points, being 0, is not moved: the copy runs from (2,-2) to (2,1) with
    control points (0,-1) and (0,0).  Pasting the same curve from the
    clipboard gives the same copy. *)
Theorem duplicate_zero_control_point (rnd : nat -> string) :
  let st := initialApp [bezierOnAxis] {[ "a"%string ]} in
  let c := duplicateShape (rnd 0%nat) bezierOnAxis in
  shapes (handleDuplicate rnd st) = [bezierOnAxis; c]
  /\ shapes (handlePaste rnd (handleCopy st)) = [bezierOnAxis; c]
  /\ selectedShapeIds (handleDuplicate rnd st) = {[ rnd 0%nat ]}
  /\ (x1 c = Fin (0 + 2) /\ y1 c = Fin (0 - 2)
      /\ x2 c = Fin (0 + 2) /\ y2 c = Fin (3 - 2))
  /\ (cx1 c = Some (Fin 0) /\ cy1 c = Some (Fin (1 - 2))
      /\ cx2 c = Some (Fin 0) /\ cy2 c = Some (Fin (2 - 2))).
Proof.
  intros st c.
  assert (Hsel : has {[ "a"%string ]} "a" = true) by (apply has_true; set_solver).
  assert (Hc : (cx1 c = Some (Fin 0) /\ cy1 c = Some (Fin (1 - 2))
      /\ cx2 c = Some (Fin 0) /\ cy2 c = Some (Fin (2 - 2)))).
  { unfold c, duplicateShape, when. simpl.
    rewrite (Rzero_true 0) by reflexivity.
    rewrite (Rzero_false 1), (Rzero_false 2) by lra. simpl. auto. }
  split; [|split; [|split; [|split]]].
  - unfold handleDuplicate, forEach, duplicateBody. simpl.
    rewrite Hsel. reflexivity.
  - unfold handleCopy, handlePaste. simpl. rewrite Hsel. reflexivity.
  - unfold handleDuplicate, forEach, duplicateBody.
    replace (size (selectedShapeIds st)) with 1%nat by reflexivity.
    simpl. rewrite Hsel. simpl. fold c. rewrite (duplicateShape_id _ _ : id c = _).
    set_solver.
  - unfold c, duplicateShape, when. simpl.
    rewrite (Rzero_true 0) by reflexivity.
    rewrite (Rzero_false 1), (Rzero_false 2) by lra. simpl. auto.
  - exact Hc.
Qed.

(** ** The sample states *)

Lemma lineApp_size : size (selectedShapeIds lineApp) <> 0%nat.
Proof. change (size (selectedShapeIds lineApp)) with 1%nat. discriminate. Qed.

Lemma lineApp_selected : selectedOf lineApp = [lineA].
Proof.
  unfold selectedOf, lineApp. simpl. rewrite has_true by set_solver.
  reflexivity.
Qed.

(** ** Fresh identifiers *)

Lemma loopShapes_ids rnd mk n :
  (forall newId i, id (mk newId i) = newId) ->
  forall i k, id <$> loopShapes rnd mk i n k = rnd <$> seq k n.
Proof.
  intros Hid. induction n as [|n IH]; intros i k; simpl; [reflexivity|].
  rewrite Hid, IH. reflexivity.
Qed.

Lemma blocks_ids rnd mk n l :
  (forall s newId i, id (mk s newId i) = newId) ->
  forall k, id <$> blocks rnd mk n k l = rnd <$> seq k (length l * n).
Proof.
  intros Hid. induction l as [|s l IH]; intros k; simpl; [reflexivity|].
  rewrite fmap_app, (loopShapes_ids _ _ _ (Hid s)), IH.
  rewrite seq_app, fmap_app. reflexivity.
Qed.

Lemma copies_ids rnd g l :
  (forall newId s, id (g newId s) = newId) ->
  forall k, id <$> copies rnd g k l = rnd <$> seq k (length l).
Proof.
  intros Hid. induction l as [|s l IH]; intros k; simpl; [reflexivity|].
  rewrite Hid, IH. reflexivity.
Qed.

(** Appending shapes whose identifiers are the first draws keeps the
    identifiers of the collection pairwise different, when the draws are
    fresh. *)
Lemma fresh_NoDup rnd (existing added : list Shape) :
  id <$> added = rnd <$> seq 0 (length added) ->
  freshDraws rnd existing (length added) ->
  NoDup (id <$> existing) ->
  NoDup (id <$> (existing ++ added)).
Proof.
  intros Hids [Hnd Hout] Hex.
  rewrite fmap_app. apply NoDup_app. split; [exact Hex|]. split.
  - intros i Hi Hin. rewrite Hids in Hin.
    apply list_elem_of_fmap in Hin as (k & -> & Hk).
    apply elem_of_seq in Hk. apply (Hout k); [lia|exact Hi].
  - rewrite Hids. exact Hnd.
Qed.

(** The identifiers stay pairwise different exactly when the draws are
    fresh. *)
Lemma fresh_NoDup_iff rnd (existing added : list Shape) :
  id <$> added = rnd <$> seq 0 (length added) ->
  NoDup (id <$> existing) ->
  NoDup (id <$> (existing ++ added))
  <-> freshDraws rnd existing (length added).
Proof.
  intros Hids Hex. split.
  - rewrite fmap_app. intros H. apply NoDup_app in H as (_ & Hout & Hnd).
    rewrite Hids in Hout, Hnd. split; [exact Hnd|].
    intros k Hk Hin. apply (Hout _ Hin).
    apply list_elem_of_fmap. exists k. split; [reflexivity|].
    apply elem_of_seq. lia.
  - intros Hfresh. apply (fresh_NoDup rnd); assumption.
Qed.

(** ** Linear pattern *)

Lemma orU_zero (v : num) : v <> NaN -> Js.orU (Some v) (lit 0) = v.
Proof.
  intros H. unfold Js.orU, Js.or. destruct v as [r| | |]; simpl; try easy.
  unfold Rzero. destruct (Req_dec_T r 0) as [->|]; reflexivity.
Qed.

Lemma linearCopy_id newId vx vy s : id (linearCopy newId vx vy s) = newId.
Proof.
  unfold linearCopy, when.
  destruct (points s);
    repeat match goal with
           | |- context [if ?b then _ else _] => destruct b
           end; reflexivity.
Qed.

Lemma linearCopy_translate newId vx vy s :
  coordsNoNaN s ->
  linearCopy newId vx vy s = set_id newId (translateShape vx vy s).
Proof.
  intros (H1 & H2 & H3 & H4 & H5 & H6).
  unfold linearCopy, translateShape, when, noNaN in *.
  destruct s as [i ty a b c d o1 o2 o3 o4 ps tx ty' ? ? ? ? ? ? ? ? ? ? ? ?].
  simpl in *.
  destruct o1 as [v1|], o2 as [v2|], o3 as [v3|], o4 as [v4|],
           tx as [v5|], ty' as [v6|], ps as [ps|]; cbn -[Js.orU Js.add];
    rewrite ?orU_zero by congruence; reflexivity.
Qed.

Lemma linear_forEach rnd sel count dx dy (l : list Shape) (acc : Acc) :
  let mk := fun shape newId i =>
              linearCopy newId (Js.mul dx (lit i)) (Js.mul dy (lit i)) shape in
  let sl := List.filter (fun s => has sel (id s)) l in
  forEach l (linearBody rnd sel count dx dy) acc
  = mkAcc (newShapes acc ++ blocks rnd mk (rounds count) (draws acc) sl)
          (newIds acc ∪ idSet sl
             ∪ idSet (blocks rnd mk (rounds count) (draws acc) sl))
          (draws acc + length sl * rounds count).
Proof.
  intros mk sl. unfold linearBody.
  rewrite (forEach_filter (fun s => has sel (id s))
             (fun s acc => copyLoop rnd (mk s) 1%Z (rounds count)
                                    (acc |> addId (id s)))).
  apply forEach_blocks.
Qed.

(** The state a linear pattern that is carried out ends in. *)
Lemma linear_pattern_state rnd st :
  size (selectedShapeIds st) <> 0%nat ->
  (2 <= patternCount st)%Z ->
  let v := stepVector (patternDirection st) (patternSpacing st) in
  let mk := fun shape newId i =>
              linearCopy newId (Js.mul (fst v) (lit i))
                         (Js.mul (snd v) (lit i)) shape in
  let cps := blocks rnd mk (rounds (patternCount st)) 0 (selectedOf st) in
  handleLinearPattern rnd st
  = saveHistory st
      |> setShapes (shapes st ++ cps)
      |> setSelectedShapeIds (∅ ∪ idSet (selectedOf st) ∪ idSet cps).
Proof.
  intros Hsel HN v mk cps. apply Nat.eqb_neq in Hsel.
  unfold handleLinearPattern. rewrite Hsel.
  replace (patternCount st <? 2)%Z with false
    by (symmetry; apply Z.ltb_ge; exact HN).
  unfold cps, mk, v. destruct (stepVector _ _) as [dx dy].
  rewrite linear_forEach. reflexivity.
Qed.

(** C2, as the code has it.  Linear pattern, for a non-empty selection.
    With a count [N] below 2 the state is left as it is.  With [N >= 2]
    the collection keeps its shapes, in place, and gains [N - 1] copies for
    each selected shape; the [i]-th copy ([i] from 1 to [N - 1]) of the
    [j]-th selected shape is that shape with every coordinate field it has
    moved by [i] times the step vector, which is [(s, 0)], [(-s, 0)],
    [(0, s)] or [(0, -s)] for the spacing [s] and the four directions; the
    selection becomes the selected shapes together with all the copies.
    The copy carries the identifier just drawn for it; the identifiers of
    the collection stay pairwise different exactly when the draws differ
    from one another and from the identifiers the collection has: nothing
    in the handler makes them so. *)
Theorem linear_pattern_copies (rnd : nat -> string) (st : App) :
  size (selectedShapeIds st) <> 0%nat ->
  let N := patternCount st in
  let n := rounds N in
  let sp := patternSpacing st in
  let v := match patternDirection st with
           | horizontal => (sp, lit 0)
           | horizontal_neg => (Js.neg sp, lit 0)
           | vertical => (lit 0, sp)
           | vertical_neg => (lit 0, Js.neg sp)
           end in
  let st' := handleLinearPattern rnd st in
  ((N < 2)%Z -> st' = st)
  /\ ((2 <= N)%Z ->
      Z.of_nat n = (N - 1)%Z
      /\ exists cps : list Shape,
          shapes st' = shapes st ++ cps
          /\ length cps = (length (selectedOf st) * n)%nat
          /\ (forall (j : nat) (s : Shape) (i : nat),
                selectedOf st !! j = Some s -> (1 <= i <= n)%nat ->
                exists c, cps !! (j * n + (i - 1))%nat = Some c
                  /\ id c = rnd (j * n + (i - 1))%nat
                  /\ (coordsNoNaN s ->
                      c = set_id (id c)
                            (translateShape
                               (Js.mul (fst v) (lit (Z.of_nat i)))
                               (Js.mul (snd v) (lit (Z.of_nat i))) s)))
          /\ selectedShapeIds st' = idSet (selectedOf st) ∪ idSet cps
          /\ (NoDup (id <$> shapes st) ->
              NoDup (id <$> shapes st')
              <-> freshDraws rnd (shapes st) (length cps))).
Proof.
  intros Hsel N n sp v st'.
  assert (Hv : v = stepVector (patternDirection st) (patternSpacing st))
    by (unfold v, sp; destruct (patternDirection st); reflexivity).
  split.
  - intros HN. apply Nat.eqb_neq in Hsel.
    unfold st', handleLinearPattern. rewrite Hsel.
    replace (patternCount st <? 2)%Z with true; [reflexivity|].
    symmetry. apply Z.ltb_lt. exact HN.
  - intros HN.
    split; [unfold n, rounds; lia|].
    pose proof (linear_pattern_state rnd st Hsel HN) as Hst.
    cbv zeta in Hst. rewrite <- Hv in Hst. fold st' N n in Hst.
    set (mk := fun shape newId i =>
                 linearCopy newId (Js.mul (fst v) (lit i))
                            (Js.mul (snd v) (lit i)) shape) in *.
    exists (blocks rnd mk n 0 (selectedOf st)).
    assert (Hid : forall s newId i, id (mk s newId i) = newId).
    { intros. apply linearCopy_id. }
    split; [rewrite Hst; reflexivity|].
    split; [apply blocks_length|].
    split; [|split].
    + intros j s i Hj Hi.
      eexists. split.
      * apply blocks_lookup; [exact Hj|lia].
      * rewrite Hid. split; [reflexivity|].
        intros Hs. unfold mk. rewrite linearCopy_translate by exact Hs.
        replace (1 + Z.of_nat (i - 1))%Z with (Z.of_nat i) by lia.
        reflexivity.
    + rewrite Hst. simpl. set_solver.
    + intros Hnd. rewrite Hst. simpl.
      apply (fresh_NoDup_iff rnd); [|exact Hnd].
      rewrite (blocks_ids _ _ _ _ Hid), blocks_length. reflexivity.
Qed.

(** C2 as it is worded fails: when two draws give the same identifier,
    the two copies of the selected line carry it both. *)
Lemma linear_pattern_fresh_id_counterexample :
  let st' := handleLinearPattern ids0 lineApp in
  NoDup (id <$> shapes lineApp)
  /\ id <$> shapes st' = ["a"; "k0"; "k0"]%string
  /\ ~ NoDup (id <$> shapes st').
Proof.
  intros st'.
  assert (E : id <$> shapes st' = ["a"; "k0"; "k0"]%string).
  { unfold st'.
    rewrite linear_pattern_state by (apply lineApp_size || (simpl; lia)).
    cbv zeta. rewrite lineApp_selected.
    cbn [shapes setShapes setSelectedShapeIds saveHistory setHistory
         setFuture].
    rewrite fmap_app, blocks_ids by (intros; apply linearCopy_id).
    reflexivity. }
  split; [apply NoDup_singleton|]. split; [exact E|].
  rewrite E. intros H.
  apply NoDup_cons in H as [_ H]. apply NoDup_cons in H as [H _].
  apply H. left.
Qed.

Lemma linear_pattern_copies_witness :
  size (selectedShapeIds lineApp) <> 0%nat
  /\ length (shapes (handleLinearPattern ids1 lineApp)) = 3%nat
  /\ NoDup (id <$> shapes (handleLinearPattern ids1 lineApp)).
Proof.
  pose proof lineApp_size as Hsz.
  split; [exact Hsz|].
  destruct (linear_pattern_copies ids1 lineApp Hsz) as [_ H].
  destruct H as [_ (cps & Hs & Hl & _ & _ & Hfresh)]; [simpl; lia|].
  rewrite lineApp_selected in Hl.
  change (rounds (patternCount lineApp)) with 2%nat in Hl. simpl in Hl.
  split; [rewrite Hs, length_app, Hl; reflexivity|].
  apply Hfresh; [apply NoDup_singleton|].
  rewrite Hl. split.
  - simpl. apply NoDup_cons. split; [|apply NoDup_singleton].
    rewrite list_elem_of_singleton. discriminate.
  - intros k Hk. simpl. rewrite list_elem_of_singleton.
    destruct k as [|[|k]]; [discriminate|discriminate|lia].
Defined.

(** ** Circular pattern *)

Lemma circularCopy_id newId cx cy angle s :
  id (circularCopy newId cx cy angle s) = newId.
Proof.
  unfold circularCopy, when.
  destruct (points s);
    repeat match goal with
           | |- context [if ?b then _ else _] => destruct b
           end; reflexivity.
Qed.

(** The state a circular pattern that is carried out ends in. *)
Lemma circular_pattern_state rnd cx cy st :
  size (selectedShapeIds st) <> 0%nat ->
  (2 <= circularCount st)%Z ->
  let n := rounds (circularCount st) in
  let g := guideCircle (rnd 0%nat) cx cy
             (guideRadius cx cy (selectionBounds (selectedOf st))) in
  let cps := blocks rnd (circularMk cx cy (circularCount st)) n 1
                    (selectedOf st) in
  handleCircularPatternCenter rnd cx cy st
  = saveHistory st
      |> setShapes (shapes st ++ g :: cps)
      |> setSelectedShapeIds (∅ ∪ idSet (selectedOf st) ∪ idSet cps)
      |> setMode pan.
Proof.
  intros Hsel HN n g cps.
  apply Nat.eqb_neq in Hsel.
  unfold handleCircularPatternCenter. rewrite Hsel.
  replace (circularCount st <? 2)%Z with false
    by (symmetry; apply Z.ltb_ge; exact HN).
  simpl orb. cbv iota.
  fold (selectedOf st).
  unfold g, guideRadius.
  destruct (selectionBounds (selectedOf st)) as [[[minX maxX] minY] maxY].
  unfold circularBody.
  rewrite (forEach_blocks rnd (circularMk cx cy (circularCount st))).
  reflexivity.
Qed.

Lemma Fin_eq (a b : R) : a = b -> Fin a = Fin b.
Proof. intros ->. reflexivity. Qed.

Lemma two_neq_0 : IZR 2 <> 0.
Proof. lra. Qed.

(** ** Arithmetic on finite numbers *)

Lemma add_Fin (x y : R) : Js.add (Fin x) (Fin y) = Fin (x + y).
Proof. reflexivity. Qed.

Lemma sub_Fin (x y : R) : Js.sub (Fin x) (Fin y) = Fin (x - y).
Proof. reflexivity. Qed.

Lemma mul_Fin (x y : R) : Js.mul (Fin x) (Fin y) = Fin (x * y).
Proof. reflexivity. Qed.

Lemma neg_Fin (x : R) : Js.neg (Fin x) = Fin (- x).
Proof. reflexivity. Qed.

Lemma pow2_Fin (x : R) : Math.pow2 (Fin x) = Fin (x * x).
Proof. reflexivity. Qed.

Lemma abs_Fin (x : R) : Math.abs (Fin x) = Fin (Rabs x).
Proof. reflexivity. Qed.

Lemma cos_Fin (x : R) : Math.cos (Fin x) = Fin (cos x).
Proof. reflexivity. Qed.

Lemma sin_Fin (x : R) : Math.sin (Fin x) = Fin (sin x).
Proof. reflexivity. Qed.

Lemma min_Fin (x y : R) : Math.min (Fin x) (Fin y) = Fin (Rmin x y).
Proof. reflexivity. Qed.

Lemma max_Fin (x y : R) : Math.max (Fin x) (Fin y) = Fin (Rmax x y).
Proof. reflexivity. Qed.

Lemma atan2_Fin (y x : R) :
  Math.atan2 (Fin y) (Fin x) = Fin (Math.Ratan2 y x).
Proof. reflexivity. Qed.

Lemma round_Fin (x : R) : Math.round (Fin x) = Fin (Math.Rround x).
Proof. reflexivity. Qed.

Lemma lit_Fin (z : Z) : lit z = Fin (IZR z).
Proof. reflexivity. Qed.

Lemma sqrt_Fin (x : R) : 0 <= x -> Math.sqrt (Fin x) = Fin (sqrt x).
Proof. intros H. simpl. rewrite Rneg_false by exact H. reflexivity. Qed.

Lemma div_lit (x : R) (z : Z) :
  (z <> 0)%Z -> Js.div (Fin x) (lit z) = Fin (x / IZR z).
Proof.
  intros H. unfold lit. apply div_Fin. intros E.
  apply eq_IZR_R0 in E. contradiction.
Qed.

Lemma div_lit2 (x : R) : Js.div (Fin x) (Fin 2) = Fin (x / 2).
Proof. apply (div_lit x 2). discriminate. Qed.

Lemma div_lit10000 (x : R) : Js.div (Fin x) (Fin 10000) = Fin (x / 10000).
Proof. apply (div_lit x 10000). discriminate. Qed.

Lemma toNum_Some (v : num) : Js.toNum (Some v) = v.
Proof. reflexivity. Qed.

#[global] Arguments Js.add : simpl never.

#[global] Arguments Js.sub : simpl never.

#[global] Arguments Js.mul : simpl never.

#[global] Arguments Js.div : simpl never.

#[global] Arguments Js.neg : simpl never.

#[global] Arguments Js.orU : simpl never.

#[global] Arguments Js.gt : simpl never.

#[global] Arguments Js.ge : simpl never.

#[global] Arguments Js.eq : simpl never.

#[global] Arguments Math.pow2 : simpl never.

#[global] Arguments Math.abs : simpl never.

#[global] Arguments Math.sqrt : simpl never.

#[global] Arguments Math.cos : simpl never.

#[global] Arguments Math.sin : simpl never.

#[global] Arguments Math.min : simpl never.

#[global] Arguments Math.max : simpl never.

#[global] Arguments Math.atan2 : simpl never.

#[global] Arguments Math.round : simpl never.

#[global] Arguments lit : simpl never.

Create Rewrite HintDb js.

#[global] Hint Rewrite add_Fin sub_Fin mul_Fin neg_Fin pow2_Fin abs_Fin
  cos_Fin sin_Fin min_Fin max_Fin atan2_Fin round_Fin div_lit2 div_lit10000
  toNum_Some : js.

(** Push the arithmetic of the program on finite numbers down to [R]. *)
Ltac js := cbn; unfold lit; autorewrite with js.

(** The copy of a box-based shape, field by field. *)
Section CircularFields.

Variables (newId : string) (cx cy angle : num).

Local Abbreviation C := (circularCopy newId cx cy angle).
Local Abbreviation turned s :=
  (rotatePoint (p_x (centerOf s)) (p_y (centerOf s)) cx cy angle).
Local Abbreviation aboutCenter s u v :=
  (rotatePoint (Js.toNum u) (Js.toNum v)
               (p_x (centerOf s)) (p_y (centerOf s)) angle).

Ltac by_cases s :=
  destruct s as [i ty xa ya xb yb o1 o2 o3 o4 ps tx ty' ? ? ? ? ? ? rot ? ? ? ? ?];
  destruct ty, o1, o3, tx, ps; try discriminate; reflexivity.

Lemma circular_type s : type (C s) = type s.
Proof. by_cases s. Qed.

Lemma circular_box_x1 s :
  ShapeType.includes boxBasedRotate (type s) = true ->
  x1 (C s) =
  if ShapeType.includes centerAnchored (type s) then p_x (turned s)
  else Js.sub (p_x (turned s)) (Js.div (Js.sub (x2 s) (x1 s)) (lit 2)).
Proof. by_cases s. Qed.

Lemma circular_box_y1 s :
  ShapeType.includes boxBasedRotate (type s) = true ->
  y1 (C s) =
  if ShapeType.includes centerAnchored (type s) then p_y (turned s)
  else Js.sub (p_y (turned s)) (Js.div (Js.sub (y2 s) (y1 s)) (lit 2)).
Proof. by_cases s. Qed.

Lemma circular_box_x2 s :
  ShapeType.includes boxBasedRotate (type s) = true ->
  x2 (C s) =
  if ShapeType.includes centerAnchored (type s)
  then Js.add (p_x (turned s)) (Js.sub (x2 s) (x1 s))
  else Js.add (p_x (turned s)) (Js.div (Js.sub (x2 s) (x1 s)) (lit 2)).
Proof. by_cases s. Qed.

Lemma circular_box_y2 s :
  ShapeType.includes boxBasedRotate (type s) = true ->
  y2 (C s) =
  if ShapeType.includes centerAnchored (type s)
  then Js.add (p_y (turned s)) (Js.sub (y2 s) (y1 s))
  else Js.add (p_y (turned s)) (Js.div (Js.sub (y2 s) (y1 s)) (lit 2)).
Proof. by_cases s. Qed.

Lemma circular_box_rotation s :
  ShapeType.includes boxBasedRotate (type s) = true ->
  rotation (C s) = Some (Js.add (Js.orU (rotation s) (lit 0)) angle).
Proof. by_cases s. Qed.

Lemma circular_box_control1 s u :
  ShapeType.includes boxBasedRotate (type s) = true ->
  cx1 s = Some u ->
  mkPoint (Js.toNum (cx1 (C s))) (Js.toNum (cy1 (C s)))
  = aboutCenter s (cx1 s) (cy1 s).
Proof. by_cases s. Qed.

Lemma circular_box_control2 s u :
  ShapeType.includes boxBasedRotate (type s) = true ->
  cx2 s = Some u ->
  mkPoint (Js.toNum (cx2 (C s))) (Js.toNum (cy2 (C s)))
  = aboutCenter s (cx2 s) (cy2 s).
Proof. by_cases s. Qed.

Lemma circular_box_label s u :
  ShapeType.includes boxBasedRotate (type s) = true ->
  textX s = Some u ->
  mkPoint (Js.toNum (textX (C s))) (Js.toNum (textY (C s)))
  = aboutCenter s (textX s) (textY s).
Proof. by_cases s. Qed.

End CircularFields.

Lemma rotatePoint_turnedAbout (x y pivotX pivotY angle : num) :
  rotatePoint x y pivotX pivotY angle = turnedAbout pivotX pivotY angle x y.
Proof. reflexivity. Qed.

(** Where the copy of a box-based shape is put: its centre turned about
    the pivot, the anchors set out from there by the differences the
    original has. *)
Lemma circularCopy_boxPlaced newId (cx cy angle : num) (s : Shape) :
  ShapeType.includes boxBasedRotate (type s) = true ->
  let c := circularCopy newId cx cy angle s in
  let mid := centerOf s in
  let rc := turnedAbout cx cy angle (p_x mid) (p_y mid) in
  let dx := Js.sub (x2 s) (x1 s) in
  let dy := Js.sub (y2 s) (y1 s) in
  anchors c
  = (if ShapeType.includes centerAnchored (type s)
     then (p_x rc, p_y rc, Js.add (p_x rc) dx, Js.add (p_y rc) dy)
     else (Js.sub (p_x rc) (Js.div dx (lit 2)),
           Js.sub (p_y rc) (Js.div dy (lit 2)),
           Js.add (p_x rc) (Js.div dx (lit 2)),
           Js.add (p_y rc) (Js.div dy (lit 2))))
  /\ rotation c = Some (Js.add (Js.orU (rotation s) (lit 0)) angle)
  /\ (forall u, cx1 s = Some u ->
        mkPoint (Js.toNum (cx1 c)) (Js.toNum (cy1 c))
        = turnedAbout (p_x mid) (p_y mid) angle u (Js.toNum (cy1 s)))
  /\ (forall u, cx2 s = Some u ->
        mkPoint (Js.toNum (cx2 c)) (Js.toNum (cy2 c))
        = turnedAbout (p_x mid) (p_y mid) angle u (Js.toNum (cy2 s)))
  /\ (forall u, textX s = Some u ->
        mkPoint (Js.toNum (textX c)) (Js.toNum (textY c))
        = turnedAbout (p_x mid) (p_y mid) angle u (Js.toNum (textY s))).
Proof.
  intros Hbox c mid rc dx dy.
  split; [|split; [|split; [|split]]].
  - unfold anchors, c.
    rewrite (circular_box_x1 newId cx cy angle s Hbox),
            (circular_box_y1 newId cx cy angle s Hbox),
            (circular_box_x2 newId cx cy angle s Hbox),
            (circular_box_y2 newId cx cy angle s Hbox).
    rewrite rotatePoint_turnedAbout. fold mid rc dx dy.
    destruct (ShapeType.includes centerAnchored (type s)); reflexivity.
  - apply circular_box_rotation. exact Hbox.
  - intros u Hu. unfold c.
    rewrite (circular_box_control1 _ _ _ _ s u Hbox Hu), Hu. reflexivity.
  - intros u Hu. unfold c.
    rewrite (circular_box_control2 _ _ _ _ s u Hbox Hu), Hu. reflexivity.
  - intros u Hu. unfold c.
    rewrite (circular_box_label _ _ _ _ s u Hbox Hu), Hu. reflexivity.
Qed.

(** The angle of round [i] of a pattern of [count] items. *)
Lemma circular_angle (i count : Z) :
  (2 <= count)%Z ->
  Js.mul (lit i) (angleStepOf count) = Fin (IZR i * (2 * PI / IZR count)).
Proof.
  intros H. unfold angleStepOf, Math.PI, lit.
  rewrite (mul_Fin 2), div_Fin, mul_Fin; [reflexivity|].
  apply not_0_IZR. lia.
Qed.

Lemma squareApp_selected : selectedOf squareApp = [unitSquare].
Proof.
  unfold selectedOf. simpl. rewrite has_true by set_solver. reflexivity.
Qed.

Lemma squareApp_size : size (selectedShapeIds squareApp) <> 0%nat.
Proof. change (size (selectedShapeIds squareApp)) with 1%nat. discriminate. Qed.

(** The first copy the pattern about (3,0) makes of the square. *)
Lemma squareApp_first_copy rnd :
  shapes (handleCircularPatternCenter rnd (Fin 3) (Fin 0) squareApp)
    !! 2%nat
  = Some (circularCopy (rnd 1%nat) (Fin 3) (Fin 0) (Fin (PI / 2)) unitSquare).
Proof.
  rewrite circular_pattern_state by (apply squareApp_size || (simpl; lia)).
  rewrite squareApp_selected.
  change (rounds (circularCount squareApp)) with 3%nat.
  remember (circularCopy _ _ _ _ _) as c eqn:Ec.
  cbn -[circularMk]. subst c.
  unfold circularMk. rewrite circular_angle by (simpl; lia).
  do 3 f_equal. simpl. lra.
Qed.

Lemma squareApp_first_copy_center rnd :
  centerOf (circularCopy (rnd 1%nat) (Fin 3) (Fin 0) (Fin (PI / 2)) unitSquare)
  = mkPoint (Fin 3) (Fin (-3)).
Proof.
  unfold circularCopy, centerOf, unitSquare, sampleShape, when. js.
  rewrite cos_PI2, sin_PI2. f_equal; apply Fin_eq; lra.
Qed.

(** The same, with the angle as the program computes it. *)
Lemma circular_pattern_copy rnd cx cy st (j : nat) (s : Shape) (i : nat) :
  size (selectedShapeIds st) <> 0%nat ->
  (2 <= circularCount st)%Z ->
  selectedOf st !! j = Some s ->
  (1 <= i <= rounds (circularCount st))%nat ->
  shapes (handleCircularPatternCenter rnd cx cy st)
    !! (length (shapes st) + 1 + j * rounds (circularCount st) + (i - 1))%nat
  = Some (circularCopy
            (rnd (1 + (j * rounds (circularCount st) + (i - 1)))%nat) cx cy
            (Js.mul (lit (Z.of_nat i)) (angleStepOf (circularCount st))) s).
Proof.
  intros Hsel HN Hj Hi.
  rewrite circular_pattern_state by assumption.
  cbn [shapes setShapes setSelectedShapeIds setMode saveHistory setHistory
       setFuture].
  rewrite lookup_app_r by lia.
  replace (length (shapes st) + 1 + j * rounds (circularCount st) + (i - 1)
           - length (shapes st))%nat
    with (S (j * rounds (circularCount st) + (i - 1))) by lia.
  cbn [lookup list_lookup].
  rewrite (blocks_lookup _ _ _ _ _ _ _ _ Hj) by lia.
  unfold circularMk.
  replace (1 + Z.of_nat (i - 1))%Z with (Z.of_nat i) by lia.
  reflexivity.
Qed.

(** C3, as the code has it.  In a circular pattern of count [N] about a
    pivot, the copy of round [i] of a selected box-based shape ([rect],
    [round_rect], [circle], [ellipse], [arc], [text]) is put by its centre:
    with [rc] the centre of the original turned about the pivot by
    [i * (2 * PI / N)], and [dx], [dy] the differences of the anchors of
    the original, a [rect] or [round_rect] gets the corners
    [rc - (dx / 2, dy / 2)] and [rc + (dx / 2, dy / 2)], and a [circle],
    [ellipse], [arc] or [text] gets the anchors [rc] and [rc + (dx, dy)],
    all in the arithmetic of the program.  Its rotation is the rotation of
    the original (0 when it has none) plus that angle, and its control
    points and label anchor are turned about the centre the original had,
    not about the pivot.  In particular the square of corners (-1,-1) and
    (1,1), patterned about (3,0) with count 4, gets a first copy of centre
    (3,-3), width and height 2, and rotation [PI / 2]. *)
Theorem circular_pattern_box_based :
  (forall (rnd : nat -> string) (st : App) (cx cy : num)
          (j : nat) (s : Shape) (i : nat),
     size (selectedShapeIds st) <> 0%nat ->
     (2 <= circularCount st)%Z ->
     selectedOf st !! j = Some s ->
     (1 <= i <= rounds (circularCount st))%nat ->
     ShapeType.includes boxBasedRotate (type s) = true ->
     let n := rounds (circularCount st) in
     let theta := Js.mul (lit (Z.of_nat i))
                         (Js.div (Js.mul (lit 2) Math.PI)
                                 (lit (circularCount st))) in
     let mid := centerOf s in
     let rc := turnedAbout cx cy theta (p_x mid) (p_y mid) in
     let dx := Js.sub (x2 s) (x1 s) in
     let dy := Js.sub (y2 s) (y1 s) in
     exists c : Shape,
       shapes (handleCircularPatternCenter rnd cx cy st)
         !! (length (shapes st) + 1 + j * n + (i - 1))%nat = Some c
       /\ type c = type s
       /\ anchors c
          = (if ShapeType.includes centerAnchored (type s)
             then (p_x rc, p_y rc, Js.add (p_x rc) dx, Js.add (p_y rc) dy)
             else (Js.sub (p_x rc) (Js.div dx (lit 2)),
                   Js.sub (p_y rc) (Js.div dy (lit 2)),
                   Js.add (p_x rc) (Js.div dx (lit 2)),
                   Js.add (p_y rc) (Js.div dy (lit 2))))
       /\ rotation c = Some (Js.add (Js.orU (rotation s) (lit 0)) theta)
       /\ (forall u, cx1 s = Some u ->
             mkPoint (Js.toNum (cx1 c)) (Js.toNum (cy1 c))
             = turnedAbout (p_x mid) (p_y mid) theta u (Js.toNum (cy1 s)))
       /\ (forall u, cx2 s = Some u ->
             mkPoint (Js.toNum (cx2 c)) (Js.toNum (cy2 c))
             = turnedAbout (p_x mid) (p_y mid) theta u (Js.toNum (cy2 s)))
       /\ (forall u, textX s = Some u ->
             mkPoint (Js.toNum (textX c)) (Js.toNum (textY c))
             = turnedAbout (p_x mid) (p_y mid) theta u
                           (Js.toNum (textY s))))
  /\ (forall rnd : nat -> string,
        exists c : Shape,
          shapes (handleCircularPatternCenter rnd (Fin 3) (Fin 0) squareApp)
            !! 2%nat = Some c
          /\ centerOf c = mkPoint (Fin 3) (Fin (-3))
          /\ widthOf c = Fin 2 /\ heightOf c = Fin 2
          /\ rotation c = Some (Fin (PI / 2))).
Proof.
  split.
  - intros rnd st cx cy j s i Hsel HN Hj Hi Hbox n theta mid rc dx dy.
    eexists. split; [exact (circular_pattern_copy rnd cx cy st j s i
                              Hsel HN Hj Hi)|].
    split; [apply circular_type|].
    exact (circularCopy_boxPlaced _ cx cy theta s Hbox).
  - intros rnd. eexists. split; [apply squareApp_first_copy|].
    split; [apply squareApp_first_copy_center|].
    unfold circularCopy, widthOf, heightOf, unitSquare, sampleShape, when.
    js. rewrite cos_PI2, sin_PI2.
    repeat split.
    + apply Fin_eq.
      match goal with |- Rabs ?e = _ => replace e with 2 by lra end.
      apply Rabs_right. lra.
    + apply Fin_eq.
      match goal with |- Rabs ?e = _ => replace e with 2 by lra end.
      apply Rabs_right. lra.
    + unfold Js.orU. rewrite add_Fin. do 2 f_equal. lra.
Qed.

(** C3 as it is worded fails on its own example: the first copy of the
    square has its centre at (3,-3), not at (0,3). *)
Lemma circular_square_center_counterexample :
  exists c : Shape,
    shapes (handleCircularPatternCenter ids0 (Fin 3) (Fin 0) squareApp)
      !! 2%nat = Some c
    /\ centerOf c = mkPoint (Fin 3) (Fin (-3))
    /\ centerOf c <> mkPoint (Fin 0) (Fin 3).
Proof.
  eexists. split; [apply squareApp_first_copy|].
  split; [apply squareApp_first_copy_center|].
  rewrite squareApp_first_copy_center. intros E.
  inversion E as [[E1 E2]]. lra.
Qed.

Lemma circular_pattern_box_based_witness :
  (size (selectedShapeIds squareApp) <> 0%nat
   /\ (2 <= circularCount squareApp)%Z
   /\ selectedOf squareApp !! 0%nat = Some unitSquare
   /\ (1 <= 2 <= rounds (circularCount squareApp))%nat
   /\ ShapeType.includes boxBasedRotate (type unitSquare) = true)
  /\ exists c : Shape,
       shapes (handleCircularPatternCenter ids0 (Fin 3) (Fin 0) squareApp)
         !! 3%nat = Some c
       /\ rotation c
          = Some (Js.add (lit 0)
                    (Js.mul (lit 2) (Js.div (Js.mul (lit 2) Math.PI)
                                            (lit 4)))).
Proof.
  assert (H1 : size (selectedShapeIds squareApp) <> 0%nat)
    by apply squareApp_size.
  assert (H2 : (2 <= circularCount squareApp)%Z) by (simpl; lia).
  assert (H3 : selectedOf squareApp !! 0%nat = Some unitSquare)
    by (rewrite squareApp_selected; reflexivity).
  assert (H4 : (1 <= 2 <= rounds (circularCount squareApp))%nat)
    by (change (rounds (circularCount squareApp)) with 3%nat; lia).
  assert (H5 : ShapeType.includes boxBasedRotate (type unitSquare) = true)
    by reflexivity.
  split; [repeat split; assumption || lia|].
  destruct circular_pattern_box_based as [H _].
  destruct (H ids0 squareApp (Fin 3) (Fin 0) 0%nat unitSquare 2%nat
              H1 H2 H3 H4 H5)
    as (c & Hl & _ & _ & Hrot & _).
  exists c. split; [exact Hl|exact Hrot].
Defined.

(** ** The guide circle *)





Lemma sum_sqr_nonneg (a b : R) : 0 <= a * a + b * b.
Proof.
  pose proof (Rle_0_sqr a). pose proof (Rle_0_sqr b). unfold Rsqr in *. lra.
Qed.










(** ** Offset *)

Lemma offsetShape_ok newId newId' dist s :
  isDefined (offsetShape newId dist s) = isDefined (offsetShape newId' dist s).
Proof.
  unfold offsetShape.
  repeat match goal with
         | |- context [if ?b then _ else _] => destruct b
         end; reflexivity.
Qed.

Lemma offsetShape_id newId dist s ns :
  offsetShape newId dist s = Some ns -> id ns = newId.
Proof.
  unfold offsetShape.
  repeat match goal with
         | |- context [if ?b then _ else _] => destruct b
         end; intros E; inversion E; reflexivity.
Qed.

Lemma forEach_offsets rnd sel dist (l : list Shape) : forall acc,
  forEach l (offsetBody rnd sel dist) acc
  = let outs := offsets rnd dist (draws acc)
                        (List.filter (fun s => has sel (id s)) l) in
    mkAcc (newShapes acc ++ outs) (newIds acc ∪ idSet outs)
          (draws acc + length outs).
Proof.
  unfold forEach.
  induction l as [|s l IH]; intros acc; simpl.
  - destruct acc as [a b c]; simpl. rewrite app_nil_r. f_equal.
    + unfold idSet; simpl. set_solver.
    + lia.
  - unfold offsetBody at 2. destruct (has sel (id s)); simpl; [|apply IH].
    destruct (offsetShape (rnd (draws acc)) dist s) as [ns|] eqn:E.
    + rewrite IH. simpl. f_equal.
      * rewrite <- app_assoc. reflexivity.
      * rewrite idSet_cons. set_solver.
      * lia.
    + apply IH.
Qed.


Lemma offsets_length rnd dist (l : list Shape) : forall k,
  length (offsets rnd dist k l) = length (List.filter (offsetOk dist) l).
Proof.
  induction l as [|s0 l IH]; intros k; [reflexivity|].
  simpl. unfold offsetOk at 1. rewrite (offsetShape_ok _ (rnd k)).
  destruct (offsetShape (rnd k) dist s0); simpl; rewrite IH; reflexivity.
Qed.

Lemma gt_Fin_true (x y : R) : y < x -> Js.gt (Fin x) (Fin y) = true.
Proof. apply gt_Fin. Qed.

Lemma gt_Fin_false (x y : R) : ~ y < x -> Js.gt (Fin x) (Fin y) = false.
Proof. intros H. destruct (Js.gt (Fin x) (Fin y)) eqn:E; [|reflexivity]. apply gt_Fin in E. contradiction. Qed.


Lemma offset_rect newId (d : R) (s : Shape) (a1 b1 a2 b2 : R) :
  type s = ShapeType.rect \/ type s = ShapeType.round_rect ->
  x1 s = Fin a1 -> y1 s = Fin b1 -> x2 s = Fin a2 -> y2 s = Fin b2 ->
  let minX := Rmin a1 a2 in let maxX := Rmax a1 a2 in
  let minY := Rmin b1 b2 in let maxY := Rmax b1 b2 in
  let w := (maxX - d) - (minX + d) in
  let h := (maxY - d) - (minY + d) in
  (0 < w /\ 0 < h ->
   exists ns, offsetShape newId (Fin d) s = Some ns
     /\ type ns = type s
     /\ x1 ns = Fin (minX + d) /\ y1 ns = Fin (minY + d)
     /\ x2 ns = Fin (maxX - d) /\ y2 ns = Fin (maxY - d)
     /\ widthOf ns = Fin w /\ heightOf ns = Fin h)
  /\ (~ (0 < w /\ 0 < h) -> offsetShape newId (Fin d) s = None).
Proof.
  intros Ht E1 E2 E3 E4 minX maxX minY maxY w h.
  unfold offsetShape.
  replace (ShapeType.eqb (type s) ShapeType.rect
           || ShapeType.eqb (type s) ShapeType.round_rect) with true
    by (destruct Ht as [-> | ->]; reflexivity).
  rewrite E1, E2, E3, E4. js.
  fold minX maxX minY maxY.
  split.
  - intros [Hw Hh].
    rewrite !gt_Fin_true by (unfold w, h in *; lra).
    eexists. split; [reflexivity|].
    unfold widthOf, heightOf. js.
    repeat split; apply Fin_eq; apply Rabs_right; unfold w, h in *; lra.
  - intros Hn.
    destruct (Rlt_dec (minX + d) (maxX - d)) as [Hw|Hw].
    + rewrite (gt_Fin_true _ _ Hw).
      rewrite gt_Fin_false; [reflexivity|].
      intros Hh. apply Hn. unfold w, h. lra.
    + rewrite (gt_Fin_false _ _ Hw). reflexivity.
Qed.





(** ** Mirror *)

(** What [performMirror] leaves: one image for each selected shape. *)
Lemma performMirror_state rnd a b c d st :
  performMirror rnd a b c d st
  = let imgs := copies rnd (fun newId s => mirrorShape newId a b c d s) 0
                       (selectedOf st) in
    saveHistory st
      |> setShapes (shapes st ++ imgs)
      |> setSelectedShapeIds (∅ ∪ idSet imgs)
      |> setMode pan.
Proof.
  unfold performMirror, mirrorBody.
  rewrite (forEach_filter_neg (fun s => has (selectedShapeIds st) (id s))
             (fun s acc =>
                acc |> tick
                    |> push (mirrorShape (rnd (draws acc)) a b c d s)
                    |> addId (id (mirrorShape (rnd (draws acc)) a b c d s)))).
  fold (selectedOf st).
  rewrite (forEach_copies rnd (fun newId s => mirrorShape newId a b c d s)).
  reflexivity.
Qed.

(** Across a line whose two end points are the same finite point, every
    point is handed back as it is, whatever it holds. *)
Lemma reflectPoint_degenerate (lx ly : R) (px py : option num) :
  reflectPoint (Fin lx) (Fin ly) (Fin lx) (Fin ly) px py = (px, py).
Proof.
  unfold reflectPoint. rewrite !sub_Fin.
  replace (Js.eq (Fin (lx - lx)) (lit 0)) with true
    by (symmetry; apply eq_Fin; lra).
  replace (Js.eq (Fin (ly - ly)) (lit 0)) with true
    by (symmetry; apply eq_Fin; lra).
  reflexivity.
Qed.

Lemma finite_not_NaN (v : num) : finite v -> v <> NaN.
Proof. intros [r ->]. discriminate. Qed.

Lemma Forall_finite_cons (v : num) (l : list num) :
  Forall finite (v :: l) <-> finite v /\ Forall finite l.
Proof. apply Forall_cons_iff. Qed.

Lemma map_reflect_degenerate (lx ly : R) (ps : list Point) :
  map (fun p =>
         let q := reflectPoint (Fin lx) (Fin ly) (Fin lx) (Fin ly)
                               (Some (p_x p)) (Some (p_y p)) in
         mkPoint (Js.toNum (fst q)) (Js.toNum (snd q))) ps = ps.
Proof.
  induction ps as [|[x y] ps IH]; [reflexivity|].
  cbn [map p_x p_y]. rewrite reflectPoint_degenerate. cbn [fst snd Js.toNum].
  f_equal. exact IH.
Qed.

(** The image of a shape with finite coordinates across a line of length
    zero has finite coordinates. *)
Lemma mirrorShape_degenerate_finite newId (lx ly : R) (s : Shape) :
  Forall finite (coordsOf s) ->
  Forall finite (coordsOf (mirrorShape newId (Fin lx) (Fin ly) (Fin lx)
                                       (Fin ly) s)).
Proof.
  intros Hfin.
  destruct s as [i ty xa ya xb yb o1 o2 o3 o4 ps tx ty' ? ? ? ? ? ? rot ? ? ? ? ?].
  unfold coordsOf in Hfin. cbn [x1 y1 x2 y2 cx1 cy1 cx2 cy2 textX textY points]
    in Hfin.
  apply Forall_finite_cons in Hfin as [[a1 ->] Hfin].
  apply Forall_finite_cons in Hfin as [[b1 ->] Hfin].
  apply Forall_finite_cons in Hfin as [[a2 ->] Hfin].
  apply Forall_finite_cons in Hfin as [[b2 ->] Hfin].
  unfold mirrorShape, when.
  cbn [type x1 y1 x2 y2 cx1 cy1 cx2 cy2 textX textY points rotation
       startAngle endAngle set_id].
  rewrite !reflectPoint_degenerate.
  assert (Hxy : forall u v, finite u -> finite v -> Forall finite (u :: v :: [])).
  { intros. repeat constructor; assumption. }
  destruct ty; cbn -[Js.orU]; unfold coordsOf;
    destruct o1, o3, tx, ps; cbn -[Js.orU];
    rewrite ?map_reflect_degenerate; unfold lit; autorewrite with js;
    cbn [coordsOf optList pointCoords app] in *;
    repeat (apply List.Forall_cons; [eexists; reflexivity|]);
    exact Hfin.
Qed.

Lemma copies_elem rnd (g : string -> Shape -> Shape) (l : list Shape) :
  forall k ns, ns ∈ copies rnd g k l ->
  exists s k', s ∈ l /\ ns = g (rnd k') s.
Proof.
  induction l as [|s l IH]; intros k ns Hin; simpl in Hin.
  - apply elem_of_nil in Hin. contradiction.
  - apply elem_of_cons in Hin as [->|Hin].
    + exists s, k. split; [left|reflexivity].
    + destruct (IH _ _ Hin) as (s' & k' & Hs & E).
      exists s', k'. split; [right; exact Hs|exact E].
Qed.

(** C8. When the two end points of the mirror line are the same (finite)
    point, the reflection hands back every point exactly as it got it; and
    the mirror operation then gives, for selected shapes whose coordinates
    are finite numbers, one image each whose coordinates are all finite
    numbers: none of them is NaN. *)
Theorem mirror_degenerate_line (lx ly : R) :
  (forall px py : option num,
     reflectPoint (Fin lx) (Fin ly) (Fin lx) (Fin ly) px py = (px, py))
  /\ (forall (rnd : nat -> string) (st : App),
        (forall s, s ∈ selectedOf st -> Forall finite (coordsOf s)) ->
        exists imgs : list Shape,
          shapes (performMirror rnd (Fin lx) (Fin ly) (Fin lx) (Fin ly) st)
          = shapes st ++ imgs
          /\ length imgs = length (selectedOf st)
          /\ forall ns v, ns ∈ imgs -> v ∈ coordsOf ns ->
                          finite v /\ v <> NaN).
Proof.
  split.
  - intros px py. apply reflectPoint_degenerate.
  - intros rnd st Hfin. rewrite performMirror_state. cbv zeta.
    eexists. split; [reflexivity|]. split; [apply copies_length|].
    intros ns v Hns Hv.
    apply copies_elem in Hns as (s & k & Hs & ->).
    pose proof (mirrorShape_degenerate_finite (rnd k) lx ly s (Hfin s Hs))
      as Hall.
    rewrite List.Forall_forall in Hall.
    apply list_elem_of_In in Hv. specialize (Hall v Hv).
    split; [exact Hall|apply finite_not_NaN; exact Hall].
Qed.

Lemma mirror_degenerate_line_witness :
  let a := sampleShape "a" ShapeType.line 0 0 3 4 in
  let st := initialApp [a] {[ "a"%string ]} in
  (forall s, s ∈ selectedOf st -> Forall finite (coordsOf s))
  /\ exists imgs : list Shape,
       shapes (performMirror ids0 (Fin 1) (Fin 1) (Fin 1) (Fin 1) st)
       = [a] ++ imgs
       /\ forall ns v, ns ∈ imgs -> v ∈ coordsOf ns -> v <> NaN.
Proof.
  intros a st.
  assert (Hsel : selectedOf st = [a]).
  { unfold selectedOf. simpl. rewrite has_true by set_solver. reflexivity. }
  assert (Hfin : forall s, s ∈ selectedOf st -> Forall finite (coordsOf s)).
  { intros s Hs. rewrite Hsel in Hs. apply list_elem_of_singleton in Hs.
    subst s. unfold coordsOf, a, sampleShape. simpl.
    repeat (apply List.Forall_cons; [eexists; reflexivity|]).
    apply List.Forall_nil. }
  split; [exact Hfin|].
  destruct (mirror_degenerate_line 1 1) as [_ H].
  destruct (H ids0 st Hfin) as (imgs & Hs & _ & Hv).
  exists imgs. split; [exact Hs|].
  intros ns v Hns Hin. apply (Hv ns v Hns Hin).
Defined.

(** ** Reflection in real arithmetic *)

Lemma round4_Fin (x : R) : round4 (Fin x) = Fin (Rround4 x).
Proof. unfold round4, Rround4. js. reflexivity. Qed.

(** Rounding to four decimal places moves a number by at most half of
    1e-4. *)
Lemma Rround4_error (x : R) : Rabs (Rround4 x - x) <= / 20000.
Proof.
  unfold Rround4, Math.Rround.
  pose proof (Zfloor_bound (x * 10000 + / 2)) as [Hlo Hhi].
  apply Rabs_le. split; lra.
Qed.

Lemma Rround_unique (z : Z) (x : R) :
  IZR z - / 2 <= x < IZR z + / 2 -> Math.Rround x = IZR z.
Proof.
  intros H. unfold Math.Rround. f_equal. apply Zfloor_eq. lra.
Qed.

Section Reflection.

(** The mirror line, through [(lx1, ly1)] and [(lx2, ly2)]. *)
Variables lx1 ly1 lx2 ly2 : R.

Hypothesis nondegenerate : lx1 <> lx2 \/ ly1 <> ly2.

Local Abbreviation cA := (coefA lx1 ly1 lx2 ly2).

Local Abbreviation cB := (coefB lx1 ly1 lx2 ly2).

Local Abbreviation rX := (reflectX lx1 ly1 lx2 ly2).

Local Abbreviation rY := (reflectY lx1 ly1 lx2 ly2).

Local Abbreviation mX := (mirrorX lx1 ly1 lx2 ly2).

Local Abbreviation mY := (mirrorY lx1 ly1 lx2 ly2).

Lemma line_length_pos :
  0 < (lx2 - lx1) * (lx2 - lx1) + (ly2 - ly1) * (ly2 - ly1).
Proof.
  pose proof (Rle_0_sqr (lx2 - lx1)) as H1.
  pose proof (Rle_0_sqr (ly2 - ly1)) as H2. unfold Rsqr in *.
  destruct nondegenerate as [H|H].
  - assert (0 < (lx2 - lx1) * (lx2 - lx1)).
    { apply Rsqr_pos_lt. lra. } lra.
  - assert (0 < (ly2 - ly1) * (ly2 - ly1)).
    { apply Rsqr_pos_lt. lra. } lra.
Qed.

Lemma coef_unit : cA * cA + cB * cB = 1.
Proof.
  unfold coefA, coefB. pose proof line_length_pos. field. lra.
Qed.

Lemma reflect_reflect (px py : R) :
  rX (rX px py) (rY px py) = px
  /\ rY (rX px py) (rY px py) = py.
Proof.
  pose proof coef_unit as H. unfold reflectX, reflectY.
  split.
  - replace (cA * (cA * (px - lx1) + cB * (py - ly1) + lx1 - lx1)
             + cB * (cB * (px - lx1) - cA * (py - ly1) + ly1 - ly1)
             + lx1)
      with ((cA * cA + cB * cB) * (px - lx1) + lx1) by ring.
    rewrite H. ring.
  - replace (cB * (cA * (px - lx1) + cB * (py - ly1) + lx1 - lx1)
             - cA * (cB * (px - lx1) - cA * (py - ly1) + ly1 - ly1)
             + ly1)
      with ((cA * cA + cB * cB) * (py - ly1) + ly1) by ring.
    rewrite H. ring.
Qed.

Lemma coef_sum_bound : Rabs cA + Rabs cB <= sqrt 2.
Proof.
  pose proof coef_unit as H.
  pose proof (Rabs_pos cA) as Ha. pose proof (Rabs_pos cB) as Hb.
  assert (Ha2 : Rabs cA * Rabs cA = cA * cA).
  { rewrite <- Rabs_mult. apply Rabs_right.
    pose proof (Rle_0_sqr cA). unfold Rsqr in *. lra. }
  assert (Hb2 : Rabs cB * Rabs cB = cB * cB).
  { rewrite <- Rabs_mult. apply Rabs_right.
    pose proof (Rle_0_sqr cB). unfold Rsqr in *. lra. }
  assert (Hs : sqrt 2 * sqrt 2 = 2) by (apply sqrt_sqrt; lra).
  assert (Hs0 : 0 <= sqrt 2) by apply sqrt_pos.
  pose proof (Rle_0_sqr (Rabs cA - Rabs cB)) as Hd. unfold Rsqr in Hd.
  destruct (Rle_dec (Rabs cA + Rabs cB) (sqrt 2)) as [|Hn]; [assumption|].
  exfalso. apply Rnot_le_lt in Hn.
  assert (sqrt 2 * sqrt 2 < (Rabs cA + Rabs cB) * (Rabs cA + Rabs cB)).
  { apply Rmult_le_0_lt_compat; assumption. }
  nra.
Qed.

(** Mirroring an image again lands within [tolerance] of the point. *)
Lemma mirror_twice_close (px py : R) :
  Rabs (mX (mX px py) (mY px py) - px) <= tolerance
  /\ Rabs (mY (mX px py) (mY px py) - py) <= tolerance.
Proof.
  unfold mirrorX, mirrorY.
  set (rx := rX px py). set (ry := rY px py).
  set (ex := Rround4 rx - rx). set (ey := Rround4 ry - ry).
  pose proof (Rround4_error rx) as Hex. fold ex in Hex.
  pose proof (Rround4_error ry) as Hey. fold ey in Hey.
  destruct (reflect_reflect px py) as [Hx Hy]. fold rx ry in Hx, Hy.
  assert (Ex : rX (Rround4 rx) (Rround4 ry)
               = px + (cA * ex + cB * ey)).
  { rewrite <- Hx. unfold reflectX, ex, ey. ring. }
  assert (Ey : rY (Rround4 rx) (Rround4 ry)
               = py + (cB * ex - cA * ey)).
  { rewrite <- Hy. unfold reflectY, ex, ey. ring. }
  pose proof coef_sum_bound as Hab.
  pose proof (Rabs_pos cA) as Ha. pose proof (Rabs_pos cB) as Hb.
  assert (H1 : Rabs (cA * ex + cB * ey)
               <= (Rabs cA + Rabs cB) * / 20000).
  { eapply Rle_trans; [apply Rabs_triang|]. rewrite !Rabs_mult.
    assert (Rabs cA * Rabs ex <= Rabs cA * / 20000)
      by (apply Rmult_le_compat_l; assumption).
    assert (Rabs cB * Rabs ey <= Rabs cB * / 20000)
      by (apply Rmult_le_compat_l; assumption).
    lra. }
  assert (H2 : Rabs (cB * ex - cA * ey)
               <= (Rabs cA + Rabs cB) * / 20000).
  { unfold Rminus. eapply Rle_trans; [apply Rabs_triang|].
    rewrite Rabs_Ropp, !Rabs_mult.
    assert (Rabs cB * Rabs ex <= Rabs cB * / 20000)
      by (apply Rmult_le_compat_l; assumption).
    assert (Rabs cA * Rabs ey <= Rabs cA * / 20000)
      by (apply Rmult_le_compat_l; assumption).
    lra. }
  unfold tolerance. split.
  - pose proof (Rround4_error (rX (Rround4 rx) (Rround4 ry))) as Hr.
    replace (Rround4 (rX (Rround4 rx) (Rround4 ry)) - px)
      with ((Rround4 (rX (Rround4 rx) (Rround4 ry))
             - rX (Rround4 rx) (Rround4 ry))
            + (cA * ex + cB * ey)) by lra.
    eapply Rle_trans; [apply Rabs_triang|]. lra.
  - pose proof (Rround4_error (rY (Rround4 rx) (Rround4 ry))) as Hr.
    replace (Rround4 (rY (Rround4 rx) (Rround4 ry)) - py)
      with ((Rround4 (rY (Rround4 rx) (Rround4 ry))
             - rY (Rround4 rx) (Rround4 ry))
            + (cB * ex - cA * ey)) by lra.
    eapply Rle_trans; [apply Rabs_triang|]. lra.
Qed.

End Reflection.

(** ** The mirror image, field by field *)

(** On finite numbers and across a line of positive length, the program
    computes the rounded exact image. *)
Lemma reflectPoint_Fin (lx1 ly1 lx2 ly2 px py : R) :
  lx1 <> lx2 \/ ly1 <> ly2 ->
  reflectPoint (Fin lx1) (Fin ly1) (Fin lx2) (Fin ly2)
               (Some (Fin px)) (Some (Fin py))
  = (Some (Fin (mirrorX lx1 ly1 lx2 ly2 px py)),
     Some (Fin (mirrorY lx1 ly1 lx2 ly2 px py))).
Proof.
  intros Hnd. pose proof (line_length_pos lx1 ly1 lx2 ly2 Hnd) as Hpos.
  unfold reflectPoint. rewrite !sub_Fin.
  assert (Hguard : Js.eq (Fin (lx2 - lx1)) (lit 0)
                   && Js.eq (Fin (ly2 - ly1)) (lit 0) = false).
  { destruct (Js.eq (Fin (lx2 - lx1)) (lit 0)) eqn:E1; [|reflexivity].
    destruct (Js.eq (Fin (ly2 - ly1)) (lit 0)) eqn:E2; [|reflexivity].
    apply eq_Fin in E1. apply eq_Fin in E2. exfalso.
    destruct Hnd; lra. }
  rewrite Hguard. cbv zeta. unfold lit. autorewrite with js.
  rewrite !div_Fin by lra. autorewrite with js.
  rewrite !round4_Fin. reflexivity.
Qed.

Section MirrorFields.

Variables (newId : string) (a b c d : num).

Let M := mirrorShape newId a b c d.

Let reflect := reflectPoint a b c d.

Let lineAngle := Math.atan2 (Js.sub d b) (Js.sub c a).

Let center (s : Shape) :=
  reflect (Some (Js.div (Js.add (x1 s) (x2 s)) (lit 2)))
          (Some (Js.div (Js.add (y1 s) (y2 s)) (lit 2))).

Ltac by_cases s :=
  destruct s as [i ty xa ya xb yb o1 o2 o3 o4 ps tx ty' ? ? ? ? ? ? rot ? ? ? ? ?];
  destruct ty, o1, o3, tx, ps; reflexivity.

Lemma mirror_type s : type (M s) = type s.
Proof. by_cases s. Qed.

Lemma mirror_x1 s :
  x1 (M s) =
  if isRect (type s) then
    Js.sub (Js.toNum (fst (center s)))
           (Js.div (Math.abs (Js.sub (x2 s) (x1 s))) (lit 2))
  else Js.toNum (fst (reflect (Some (x1 s)) (Some (y1 s)))).
Proof. by_cases s. Qed.

Lemma mirror_y1 s :
  y1 (M s) =
  if isRect (type s) then
    Js.sub (Js.toNum (snd (center s)))
           (Js.div (Math.abs (Js.sub (y2 s) (y1 s))) (lit 2))
  else Js.toNum (snd (reflect (Some (x1 s)) (Some (y1 s)))).
Proof. by_cases s. Qed.

Lemma mirror_x2 s :
  x2 (M s) =
  if isRect (type s) then
    Js.add (Js.toNum (fst (center s)))
           (Js.div (Math.abs (Js.sub (x2 s) (x1 s))) (lit 2))
  else if isText (type s) then
    Js.toNum (fst (reflect (Some (x1 s)) (Some (y1 s))))
  else Js.toNum (fst (reflect (Some (x2 s)) (Some (y2 s)))).
Proof. by_cases s. Qed.

Lemma mirror_y2 s :
  y2 (M s) =
  if isRect (type s) then
    Js.add (Js.toNum (snd (center s)))
           (Js.div (Math.abs (Js.sub (y2 s) (y1 s))) (lit 2))
  else if isText (type s) then
    Js.toNum (snd (reflect (Some (x1 s)) (Some (y1 s))))
  else Js.toNum (snd (reflect (Some (x2 s)) (Some (y2 s)))).
Proof. by_cases s. Qed.

Lemma mirror_cx1 s :
  cx1 (M s) =
  if isBox (type s) then cx1 s
  else if isDefined (cx1 s) then fst (reflect (cx1 s) (cy1 s)) else cx1 s.
Proof. by_cases s. Qed.

Lemma mirror_cy1 s :
  cy1 (M s) =
  if isBox (type s) then cy1 s
  else if isDefined (cx1 s) then snd (reflect (cx1 s) (cy1 s)) else cy1 s.
Proof. by_cases s. Qed.

Lemma mirror_cx2 s :
  cx2 (M s) =
  if isBox (type s) then cx2 s
  else if isDefined (cx2 s) then fst (reflect (cx2 s) (cy2 s)) else cx2 s.
Proof. by_cases s. Qed.

Lemma mirror_cy2 s :
  cy2 (M s) =
  if isBox (type s) then cy2 s
  else if isDefined (cx2 s) then snd (reflect (cx2 s) (cy2 s)) else cy2 s.
Proof. by_cases s. Qed.

Lemma mirror_textX s :
  textX (M s) =
  if isBox (type s) && isDefined (textX s)
  then fst (reflect (textX s) (textY s)) else textX s.
Proof. by_cases s. Qed.

Lemma mirror_textY s :
  textY (M s) =
  if isBox (type s) && isDefined (textX s)
  then snd (reflect (textX s) (textY s)) else textY s.
Proof. by_cases s. Qed.

Lemma mirror_points s :
  points (M s) =
  if isBox (type s) then points s
  else map (mirrorPoint a b c d) <$> points s.
Proof. by_cases s. Qed.

Lemma mirror_rotation s :
  rotation (M s) =
  if isBox (type s) then
    Some (Js.sub (Js.mul (lit 2) lineAngle) (Js.orU (rotation s) (lit 0)))
  else rotation s.
Proof. by_cases s. Qed.

Lemma mirror_startAngle s :
  startAngle (M s) =
  if isArc (type s) then
    Some (Js.sub (Js.mul (lit 2) lineAngle) (Js.orU (endAngle s) (lit 0)))
  else startAngle s.
Proof. by_cases s. Qed.

Lemma mirror_endAngle s :
  endAngle (M s) =
  if isArc (type s) then
    Some (Js.sub (Js.mul (lit 2) lineAngle) (Js.orU (startAngle s) (lit 0)))
  else endAngle s.
Proof. by_cases s. Qed.

End MirrorFields.

(** ** Two mirrors in a row *)

Section MirrorTwice.

Variables lx1 ly1 lx2 ly2 : R.

Hypothesis nondegenerate : lx1 <> lx2 \/ ly1 <> ly2.

Local Abbreviation pairStep := (pairStep lx1 ly1 lx2 ly2).

Local Abbreviation twiceLineAngle := (twiceLineAngle lx1 ly1 lx2 ly2).

Let M (i : string) : Shape -> Shape :=
  mirrorShape i (Fin lx1) (Fin ly1) (Fin lx2) (Fin ly2).

Let mX := mirrorX lx1 ly1 lx2 ly2.

Let mY := mirrorY lx1 ly1 lx2 ly2.

Let tol := tolerance.

Lemma reflect_Fin (px py : R) :
  reflectPoint (Fin lx1) (Fin ly1) (Fin lx2) (Fin ly2)
               (Some (Fin px)) (Some (Fin py))
  = (Some (Fin (mX px py)), Some (Fin (mY px py))).
Proof. apply reflectPoint_Fin. exact nondegenerate. Qed.

Lemma twice_close (px py : R) :
  closeTo tol (Fin (mX (mX px py) (mY px py))) (Fin px)
  /\ closeTo tol (Fin (mY (mX px py) (mY px py))) (Fin py).
Proof.
  destruct (mirror_twice_close lx1 ly1 lx2 ly2 nondegenerate px py) as [H1 H2].
  split; eexists _, _; (split; [reflexivity|]); (split; [reflexivity|]);
    assumption.
Qed.

(** The first anchor, for a type other than [rect] and [round_rect]. *)
Lemma anchor1_once i s (a1 b1 : R) :
  isRect (type s) = false -> x1 s = Fin a1 -> y1 s = Fin b1 ->
  x1 (M i s) = Fin (mX a1 b1) /\ y1 (M i s) = Fin (mY a1 b1).
Proof.
  intros Hr E1 E2. unfold M.
  rewrite mirror_x1, mirror_y1.
  rewrite Hr, E1, E2.
  rewrite reflect_Fin. auto.
Qed.

(** The second anchor, for a type other than [rect], [round_rect], [text]. *)
Lemma anchor2_once i s (a2 b2 : R) :
  isRect (type s) = false -> isText (type s) = false ->
  x2 s = Fin a2 -> y2 s = Fin b2 ->
  x2 (M i s) = Fin (mX a2 b2) /\ y2 (M i s) = Fin (mY a2 b2).
Proof.
  intros Hr Ht E1 E2. unfold M.
  rewrite mirror_x2, mirror_y2, Hr, Ht, E1, E2, reflect_Fin. auto.
Qed.

(** The corners of a [rect] or [round_rect]. *)
Lemma rect_once i s (a1 b1 a2 b2 : R) :
  isRect (type s) = true ->
  x1 s = Fin a1 -> y1 s = Fin b1 -> x2 s = Fin a2 -> y2 s = Fin b2 ->
  let cx := mX ((a1 + a2) / 2) ((b1 + b2) / 2) in
  let cy := mY ((a1 + a2) / 2) ((b1 + b2) / 2) in
  x1 (M i s) = Fin (cx - Rabs (a2 - a1) / 2)
  /\ y1 (M i s) = Fin (cy - Rabs (b2 - b1) / 2)
  /\ x2 (M i s) = Fin (cx + Rabs (a2 - a1) / 2)
  /\ y2 (M i s) = Fin (cy + Rabs (b2 - b1) / 2).
Proof.
  intros Hr E1 E2 E3 E4 cx cy. unfold M.
  rewrite mirror_x1, mirror_y1, mirror_x2, mirror_y2, Hr, E1, E2, E3, E4.
  unfold lit. autorewrite with js. rewrite reflect_Fin.
  cbn [fst snd]. autorewrite with js. auto.
Qed.

Lemma Rmin_mid (x y : R) : Rmin x y = (x + y) / 2 - Rabs (y - x) / 2.
Proof.
  unfold Rmin, Rabs. destruct (Rle_dec x y), (Rcase_abs (y - x)); lra.
Qed.

Lemma Rmax_mid (x y : R) : Rmax x y = (x + y) / 2 + Rabs (y - x) / 2.
Proof.
  unfold Rmax, Rabs. destruct (Rle_dec x y), (Rcase_abs (y - x)); lra.
Qed.

Lemma closeTo_shift (x y w : R) :
  closeTo tol (Fin x) (Fin y) -> closeTo tol (Fin (x + w)) (Fin (y + w)).
Proof.
  intros (x' & y' & Ex & Ey & H). inversion Ex; inversion Ey; subst.
  eexists _, _. split; [reflexivity|]. split; [reflexivity|].
  replace (x' + w - (y' + w)) with (x' - y') by lra. exact H.
Qed.

(** Two mirrors bring the anchors back to the canonical ones. *)
Lemma anchors_twice i j s :
  finiteAnchors s ->
  let m2 := M j (M i s) in
  let '(ox1, oy1, ox2, oy2) := canonicalAnchors s in
  closeTo tol (x1 m2) ox1 /\ closeTo tol (y1 m2) oy1
  /\ closeTo tol (x2 m2) ox2 /\ closeTo tol (y2 m2) oy2.
Proof.
  intros ([a1 E1] & [b1 E2] & [a2 E3] & [b2 E4]) m2.
  unfold canonicalAnchors.
  assert (Hty : type (M i s) = type s)
    by exact (mirror_type i (Fin lx1) (Fin ly1) (Fin lx2) (Fin ly2) s).
  destruct (isRect (type s)) eqn:Hr.
  - destruct (rect_once i s a1 b1 a2 b2 Hr E1 E2 E3 E4)
      as (F1 & F2 & F3 & F4).
    assert (Hr' : isRect (type (M i s)) = true) by (rewrite Hty; exact Hr).
    destruct (rect_once j (M i s) _ _ _ _ Hr' F1 F2 F3 F4)
      as (G1 & G2 & G3 & G4).
    fold m2 in G1, G2, G3, G4. rewrite G1, G2, G3, G4, E1, E2, E3, E4.
    autorewrite with js. rewrite !Rmin_mid, !Rmax_mid.
    set (cx := mX ((a1 + a2) / 2) ((b1 + b2) / 2)).
    set (cy := mY ((a1 + a2) / 2) ((b1 + b2) / 2)).
    set (w := Rabs (a2 - a1)). set (h := Rabs (b2 - b1)).
    assert (Hw : 0 <= w) by apply Rabs_pos.
    assert (Hh : 0 <= h) by apply Rabs_pos.
    replace ((cx - w / 2 + (cx + w / 2)) / 2) with cx by lra.
    replace ((cy - h / 2 + (cy + h / 2)) / 2) with cy by lra.
    replace (cx + w / 2 - (cx - w / 2)) with w by lra.
    replace (cy + h / 2 - (cy - h / 2)) with h by lra.
    rewrite (Rabs_right w), (Rabs_right h) by lra.
    destruct (twice_close ((a1 + a2) / 2) ((b1 + b2) / 2)) as [Hx Hy].
    fold cx cy in Hx, Hy.
    split; [|split; [|split]].
    + apply (closeTo_shift _ _ (- (w / 2))) in Hx. exact Hx.
    + apply (closeTo_shift _ _ (- (h / 2))) in Hy. exact Hy.
    + apply (closeTo_shift _ _ (w / 2)) in Hx. exact Hx.
    + apply (closeTo_shift _ _ (h / 2)) in Hy. exact Hy.
  - assert (Hr' : isRect (type (M i s)) = false) by (rewrite Hty; exact Hr).
    destruct (anchor1_once i s a1 b1 Hr E1 E2) as [F1 F2].
    destruct (anchor1_once j (M i s) _ _ Hr' F1 F2) as [G1 G2].
    fold m2 in G1, G2.
    destruct (twice_close a1 b1) as [Hx Hy].
    destruct (isText (type s)) eqn:Ht.
    + assert (G3 : x2 m2 = x1 m2 /\ y2 m2 = y1 m2).
      { unfold m2.
        pose proof (mirror_x2 j (Fin lx1) (Fin ly1) (Fin lx2) (Fin ly2) (M i s)) as P1.
        pose proof (mirror_y2 j (Fin lx1) (Fin ly1) (Fin lx2) (Fin ly2) (M i s)) as P2.
        pose proof (mirror_x1 j (Fin lx1) (Fin ly1) (Fin lx2) (Fin ly2) (M i s)) as P3.
        pose proof (mirror_y1 j (Fin lx1) (Fin ly1) (Fin lx2) (Fin ly2) (M i s)) as P4.
        rewrite Hr' in P1, P2, P3, P4. rewrite Hty, Ht in P1, P2.
        split; [exact (eq_trans P1 (eq_sym P3))|exact (eq_trans P2 (eq_sym P4))]. }
      destruct G3 as [G3 G4]. rewrite G3, G4, G1, G2, E1, E2. auto.
    + assert (Ht' : isText (type (M i s)) = false) by (rewrite Hty; exact Ht).
      destruct (anchor2_once i s a2 b2 Hr Ht E3 E4) as [F3 F4].
      destruct (anchor2_once j (M i s) _ _ Hr' Ht' F3 F4) as [G3 G4].
      fold m2 in G3, G4.
      destruct (twice_close a2 b2) as [Hx2 Hy2].
      rewrite G1, G2, G3, G4, E1, E2, E3, E4. auto.
Qed.

Lemma closeU_refl (o : option num) : closeU tol o o.
Proof. left. reflexivity. Qed.

Lemma pair_twice (ox oy : option num) :
  finitePair ox oy ->
  closeU tol (fst (pairStep (pairStep (ox, oy)))) ox
  /\ closeU tol (snd (pairStep (pairStep (ox, oy)))) oy.
Proof.
  intros H. destruct ox as [u|]; [|split; apply closeU_refl].
  destruct H as ([x ->] & v & -> & [y ->]).
  unfold pairStep. cbn [fst snd isDefined]. rewrite reflect_Fin.
  cbn [fst snd isDefined]. rewrite reflect_Fin. cbn [fst snd].
  destruct (twice_close x y) as [Hx Hy].
  split; right; eexists _, _; (split; [reflexivity|]);
    (split; [reflexivity|]); assumption.
Qed.

Lemma mirror_control1 i s :
  (cx1 (M i s), cy1 (M i s))
  = if isBox (type s) then (cx1 s, cy1 s) else pairStep (cx1 s, cy1 s).
Proof.
  unfold M, pairStep. rewrite mirror_cx1, mirror_cy1. cbn [fst snd].
  destruct (isBox (type s)); [reflexivity|].
  destruct (isDefined (cx1 s)); [|reflexivity].
  destruct (reflectPoint _ _ _ _ _ _); reflexivity.
Qed.

Lemma mirror_control2 i s :
  (cx2 (M i s), cy2 (M i s))
  = if isBox (type s) then (cx2 s, cy2 s) else pairStep (cx2 s, cy2 s).
Proof.
  unfold M, pairStep. rewrite mirror_cx2, mirror_cy2. cbn [fst snd].
  destruct (isBox (type s)); [reflexivity|].
  destruct (isDefined (cx2 s)); [|reflexivity].
  destruct (reflectPoint _ _ _ _ _ _); reflexivity.
Qed.

Lemma mirror_label i s :
  (textX (M i s), textY (M i s))
  = if isBox (type s) then pairStep (textX s, textY s) else (textX s, textY s).
Proof.
  unfold M, pairStep. rewrite mirror_textX, mirror_textY. cbn [fst snd].
  destruct (isBox (type s)); [|reflexivity]. cbn [andb].
  destruct (isDefined (textX s)); [|reflexivity].
  destruct (reflectPoint _ _ _ _ _ _); reflexivity.
Qed.

Lemma pair_eq {A B : Type} (a : A) (b : B) (p : A * B) :
  (a, b) = p -> a = fst p /\ b = snd p.
Proof. intros <-. auto. Qed.

Lemma control1_twice i j s :
  finitePair (cx1 s) (cy1 s) ->
  let m2 := M j (M i s) in
  closeU tol (cx1 m2) (cx1 s) /\ closeU tol (cy1 m2) (cy1 s).
Proof.
  intros H m2.
  assert (Hty : type (M i s) = type s)
    by exact (mirror_type i (Fin lx1) (Fin ly1) (Fin lx2) (Fin ly2) s).
  pose proof (mirror_control1 j (M i s)) as P. fold m2 in P.
  rewrite mirror_control1, Hty in P.
  destruct (isBox (type s)); apply pair_eq in P as [-> ->].
  - split; apply closeU_refl.
  - apply (pair_twice _ _ H).
Qed.

Lemma control2_twice i j s :
  finitePair (cx2 s) (cy2 s) ->
  let m2 := M j (M i s) in
  closeU tol (cx2 m2) (cx2 s) /\ closeU tol (cy2 m2) (cy2 s).
Proof.
  intros H m2.
  assert (Hty : type (M i s) = type s)
    by exact (mirror_type i (Fin lx1) (Fin ly1) (Fin lx2) (Fin ly2) s).
  pose proof (mirror_control2 j (M i s)) as P. fold m2 in P.
  rewrite mirror_control2, Hty in P.
  destruct (isBox (type s)); apply pair_eq in P as [-> ->].
  - split; apply closeU_refl.
  - apply (pair_twice _ _ H).
Qed.

Lemma label_twice i j s :
  finitePair (textX s) (textY s) ->
  let m2 := M j (M i s) in
  closeU tol (textX m2) (textX s) /\ closeU tol (textY m2) (textY s).
Proof.
  intros H m2.
  assert (Hty : type (M i s) = type s)
    by exact (mirror_type i (Fin lx1) (Fin ly1) (Fin lx2) (Fin ly2) s).
  pose proof (mirror_label j (M i s)) as P. fold m2 in P.
  rewrite mirror_label, Hty in P.
  destruct (isBox (type s)); apply pair_eq in P as [-> ->].
  - apply (pair_twice _ _ H).
  - split; apply closeU_refl.
Qed.

Lemma mirrorPoint_Fin (x y : R) :
  mirrorPoint (Fin lx1) (Fin ly1) (Fin lx2) (Fin ly2) (mkPoint (Fin x) (Fin y))
  = mkPoint (Fin (mX x y)) (Fin (mY x y)).
Proof. unfold mirrorPoint. cbn [p_x p_y]. rewrite reflect_Fin. reflexivity. Qed.

Lemma pointList_twice (ps : list Point) :
  Forall finite (flat_map (fun p => [p_x p; p_y p]) ps) ->
  Forall2 (closePoint tol)
    (map (mirrorPoint (Fin lx1) (Fin ly1) (Fin lx2) (Fin ly2))
         (map (mirrorPoint (Fin lx1) (Fin ly1) (Fin lx2) (Fin ly2)) ps))
    ps.
Proof.
  induction ps as [|[x y] ps IH]; intros H; [constructor|].
  cbn [flat_map p_x p_y app] in H.
  apply Forall_finite_cons in H as [[a ->] H].
  apply Forall_finite_cons in H as [[b ->] H].
  cbn [map]. rewrite !mirrorPoint_Fin. constructor; [|apply IH; exact H].
  apply twice_close.
Qed.

Lemma points_twice i j s :
  Forall finite (pointCoords (points s)) ->
  closePoints tol (points (M j (M i s))) (points s).
Proof.
  intros H. unfold M. rewrite !mirror_points, !mirror_type.
  destruct (isBox (type s)); [left; reflexivity|].
  destruct (points s) as [ps|]; [|left; reflexivity].
  right. eexists _, _. split; [reflexivity|]. split; [reflexivity|].
  apply pointList_twice. exact H.
Qed.

Lemma turn_once (o : option num) (r : R) :
  Js.orU o (lit 0) = Fin r ->
  Js.sub (Js.mul (lit 2)
            (Math.atan2 (Js.sub (Fin ly2) (Fin ly1))
                        (Js.sub (Fin lx2) (Fin lx1))))
         (Js.orU o (lit 0))
  = Fin (twiceLineAngle - r).
Proof.
  intros ->. unfold lit, twiceLineAngle. autorewrite with js. reflexivity.
Qed.

(** The angle after one mirror of an arc, as the program computes it. *)
Local Abbreviation swapped := (fun o : option num =>
  Some (Js.sub (Js.mul (lit 2)
                  (Math.atan2 (Js.sub (Fin ly2) (Fin ly1))
                              (Js.sub (Fin lx2) (Fin lx1))))
               (Js.orU o (lit 0)))).

Lemma angles_once i s :
  type s = ShapeType.arc ->
  startAngle (M i s) = swapped (endAngle s)
  /\ endAngle (M i s) = swapped (startAngle s).
Proof.
  intros H. unfold M. rewrite mirror_startAngle, mirror_endAngle.
  unfold isArc. rewrite H. split; reflexivity.
Qed.

Lemma angles_twice i j s :
  type s = ShapeType.arc ->
  startAngle (M j (M i s)) = swapped (swapped (startAngle s))
  /\ endAngle (M j (M i s)) = swapped (swapped (endAngle s)).
Proof.
  intros H.
  assert (H' : type (M i s) = ShapeType.arc)
    by (unfold M; rewrite mirror_type; exact H).
  destruct (angles_once j (M i s) H') as [-> ->].
  destruct (angles_once i s H) as [-> ->].
  split; reflexivity.
Qed.

Lemma angles_kept i s :
  type s <> ShapeType.arc ->
  startAngle (M i s) = startAngle s /\ endAngle (M i s) = endAngle s.
Proof.
  intros H. unfold M. rewrite mirror_startAngle, mirror_endAngle.
  unfold isArc. destruct (type s); try (split; reflexivity). congruence.
Qed.

(** An angle that was never set: 0 after two swaps. *)
Lemma unset_twice : swapped (swapped None) = Some (lit 0).
Proof.
  cbv beta.
  rewrite (turn_once None 0) by reflexivity.
  rewrite (turn_once (Some (Fin (twiceLineAngle - 0))) (twiceLineAngle - 0))
    by (apply orU_zero; discriminate).
  f_equal. apply Fin_eq. lra.
Qed.

End MirrorTwice.

Lemma sqrt2_bounds : 141 / 100 < sqrt 2 < 142 / 100.
Proof.
  assert (Hs : sqrt 2 * sqrt 2 = 2) by (apply sqrt_sqrt; lra).
  assert (H0 : 0 <= sqrt 2) by apply sqrt_pos.
  split.
  - destruct (Rlt_dec (141 / 100) (sqrt 2)) as [|Hn]; [assumption|].
    exfalso. apply Rnot_lt_le in Hn.
    assert (sqrt 2 * sqrt 2 <= 141 / 100 * (141 / 100))
      by (apply Rmult_le_compat; lra).
    lra.
  - destruct (Rlt_dec (sqrt 2) (142 / 100)) as [|Hn]; [assumption|].
    exfalso. apply Rnot_lt_le in Hn.
    assert (142 / 100 * (142 / 100) <= sqrt 2 * sqrt 2)
      by (apply Rmult_le_compat; lra).
    lra.
Qed.

(** C5, as the code has it.  Across a line of positive length, two
    mirrors in a row bring a shape with finite coordinates back to itself
    up to the rounding of the two reflections: every coordinate the mirror
    moves lands within [(1 + sqrt 2) / 2 * 1e-4] (more than 1e-4, less than
    1.21e-4) of where it was, and every other coordinate is untouched.  The
    anchors come back to the canonical ones: the corners of a [rect] or
    [round_rect] least corner first, the anchor of a [text] twice, the own
    anchors of any other type.  One mirror gives an arc the start angle
    [2 * lineAngle - oldEnd] and the end angle [2 * lineAngle - oldStart],
    [undefined] counting as 0; two mirrors give it the start angle
    [2 * lineAngle - (2 * lineAngle - oldStart)] and the end angle
    [2 * lineAngle - (2 * lineAngle - oldEnd)], which is 0 for an angle
    that was not set.  Any other shape keeps its two angles. *)
Theorem mirror_twice_returns (i j : string) (lx1 ly1 lx2 ly2 : R)
    (s : Shape) :
  lx1 <> lx2 \/ ly1 <> ly2 ->
  finiteShape s ->
  let m1 := mirrorShape i (Fin lx1) (Fin ly1) (Fin lx2) (Fin ly2) s in
  let m2 := mirrorShape j (Fin lx1) (Fin ly1) (Fin lx2) (Fin ly2) m1 in
  let lineAngle := Math.atan2 (Js.sub (Fin ly2) (Fin ly1))
                              (Js.sub (Fin lx2) (Fin lx1)) in
  let swap (old : option num) : option num :=
    Some (Js.sub (Js.mul (lit 2) lineAngle) (Js.orU old (lit 0))) in
  let '(ox1, oy1, ox2, oy2) := canonicalAnchors s in
  type m2 = type s
  /\ (closeTo tolerance (x1 m2) ox1 /\ closeTo tolerance (y1 m2) oy1
      /\ closeTo tolerance (x2 m2) ox2 /\ closeTo tolerance (y2 m2) oy2)
  /\ (closeU tolerance (cx1 m2) (cx1 s) /\ closeU tolerance (cy1 m2) (cy1 s)
      /\ closeU tolerance (cx2 m2) (cx2 s)
      /\ closeU tolerance (cy2 m2) (cy2 s))
  /\ (closeU tolerance (textX m2) (textX s)
      /\ closeU tolerance (textY m2) (textY s))
  /\ closePoints tolerance (points m2) (points s)
  /\ (type s = ShapeType.arc ->
      (startAngle m1 = swap (endAngle s)
       /\ endAngle m1 = swap (startAngle s))
      /\ (startAngle m2 = swap (swap (startAngle s))
          /\ endAngle m2 = swap (swap (endAngle s)))
      /\ (startAngle s = None -> startAngle m2 = Some (lit 0))
      /\ (endAngle s = None -> endAngle m2 = Some (lit 0)))
  /\ (type s <> ShapeType.arc ->
      startAngle m2 = startAngle s /\ endAngle m2 = endAngle s)
  /\ 1 / 10000 < tolerance < 121 / 1000000.
Proof.
  intros Hnd (Ha & Hc1 & Hc2 & Ht & Hp & _) m1 m2 lineAngle swap.
  pose proof (anchors_twice lx1 ly1 lx2 ly2 Hnd i j s Ha) as HA.
  cbv zeta in HA. destruct (canonicalAnchors s) as [[[ox1 oy1] ox2] oy2].
  split.
  { unfold m2, m1. rewrite !mirror_type. reflexivity. }
  split; [exact HA|].
  destruct (control1_twice lx1 ly1 lx2 ly2 Hnd i j s Hc1) as [C1 C2].
  destruct (control2_twice lx1 ly1 lx2 ly2 Hnd i j s Hc2) as [C3 C4].
  split; [auto|].
  split; [exact (label_twice lx1 ly1 lx2 ly2 Hnd i j s Ht)|].
  split; [exact (points_twice lx1 ly1 lx2 ly2 Hnd i j s Hp)|].
  split.
  { intros Harc.
    destruct (angles_twice lx1 ly1 lx2 ly2 i j s Harc) as [S2 E2].
    split; [exact (angles_once lx1 ly1 lx2 ly2 i s Harc)|].
    split; [split; [exact S2|exact E2]|].
    split; intros E.
    - unfold m2, m1. rewrite S2, E. exact (unset_twice lx1 ly1 lx2 ly2).
    - unfold m2, m1. rewrite E2, E. exact (unset_twice lx1 ly1 lx2 ly2). }
  split.
  { intros Harc. unfold m2, m1.
    assert (H' : type (mirrorShape i (Fin lx1) (Fin ly1) (Fin lx2) (Fin ly2) s)
                 <> ShapeType.arc) by (rewrite mirror_type; exact Harc).
    destruct (angles_kept lx1 ly1 lx2 ly2 j _ H') as [-> ->].
    exact (angles_kept lx1 ly1 lx2 ly2 i s Harc). }
  unfold tolerance. pose proof sqrt2_bounds. lra.
Qed.

Lemma mirror_2_1 (px py : R) :
  mirrorX 0 0 2 1 px py = Rround4 (3 / 5 * px + 4 / 5 * py)
  /\ mirrorY 0 0 2 1 px py = Rround4 (4 / 5 * px - 3 / 5 * py).
Proof.
  unfold mirrorX, mirrorY, reflectX, reflectY, coefA, coefB.
  split; f_equal; field.
Qed.

Lemma Rround4_unique (z : Z) (x : R) :
  IZR z - / 2 <= x * 10000 < IZR z + / 2 -> Rround4 x = IZR z / 10000.
Proof. intros H. unfold Rround4. rewrite (Rround_unique z) by exact H. reflexivity. Qed.

(** C5 as it is worded fails: mirrored twice across the line through (0,0)
    and (2,1), the end (0.000197, 0.000171) of [offGridLine] comes back at
    X = 0.0003, which is 1.03e-4 away from where it was. *)
Lemma mirror_twice_tolerance_counterexample :
  let m2 := mirrorShape "m2" (Fin 0) (Fin 0) (Fin 2) (Fin 1)
              (mirrorShape "m1" (Fin 0) (Fin 0) (Fin 2) (Fin 1) offGridLine) in
  x1 offGridLine = Fin (197 / 1000000)
  /\ x1 m2 = Fin (3 / 10000)
  /\ ~ closeTo (1 / 10000) (x1 m2) (x1 offGridLine).
Proof.
  intros m2.
  assert (Hnd : (0 : R) <> 2 \/ (0 : R) <> 1) by (left; lra).
  assert (E : x1 m2 = Fin (3 / 10000)).
  { destruct (anchor1_once 0 0 2 1 Hnd "m1" offGridLine
                (197 / 1000000) (171 / 1000000) eq_refl eq_refl eq_refl)
      as [F1 F2].
    destruct (anchor1_once 0 0 2 1 Hnd "m2"
                (mirrorShape "m1" (Fin 0) (Fin 0) (Fin 2) (Fin 1) offGridLine)
                _ _ eq_refl F1 F2) as [G1 _].
    unfold m2. rewrite G1. apply Fin_eq.
    destruct (mirror_2_1 (197 / 1000000) (171 / 1000000)) as [-> ->].
    rewrite (Rround4_unique 3) by lra.
    rewrite (Rround4_unique 1) by lra.
    destruct (mirror_2_1 (3 / 10000) (1 / 10000)) as [-> _].
    rewrite (Rround4_unique 3) by lra. reflexivity. }
  split; [reflexivity|]. split; [exact E|].
  rewrite E. intros (x & y & Ex & Ey & H).
  inversion Ex; inversion Ey; subst.
  assert (Hd : 3 / 10000 - 197 / 1000000 = 103 / 1000000) by lra.
  rewrite Hd, Rabs_right in H by lra. lra.
Qed.

Lemma mirror_twice_returns_witness :
  let s := sampleShape "a" ShapeType.line 0 0 3 4 in
  let m2 := mirrorShape "m2" (Fin 0) (Fin 0) (Fin 2) (Fin 1)
              (mirrorShape "m1" (Fin 0) (Fin 0) (Fin 2) (Fin 1) s) in
  (((0 : R) <> 2 \/ (0 : R) <> 1) /\ finiteShape s)
  /\ closeTo tolerance (x2 m2) (Fin 3) /\ closeTo tolerance (y2 m2) (Fin 4).
Proof.
  intros s m2.
  assert (Hnd : (0 : R) <> 2 \/ (0 : R) <> 1) by (left; lra).
  assert (Hfin : finiteShape s).
  { unfold finiteShape, finiteAnchors, s, sampleShape. simpl.
    repeat split; try (eexists; reflexivity); constructor. }
  split; [split; assumption|].
  pose proof (mirror_twice_returns "m1" "m2" 0 0 2 1 s Hnd Hfin) as H.
  cbv zeta in H.
  change (canonicalAnchors s) with (lit 0, lit 0, lit 3, lit 4) in H.
  destruct H as (_ & (_ & _ & H3 & H4) & _).
  split; assumption.
Defined.

(** * Properties of the handlers, the canvas and the templates *)

(** ** The timeline of the edit history *)

Lemma handleUndo_timeline st :
  history st <> [] ->
  timeline (handleUndo st) = timeline st
  /\ S (length (history (handleUndo st))) = length (history st).
Proof.
  intros H. rewrite handleUndo_nonempty by exact H. unfold timeline. simpl.
  destruct (exists_last H) as (h & x & E). rewrite E.
  rewrite last_last, removelast_last, rev_app_distr, length_app. simpl.
  rewrite <- !app_assoc. simpl. split; [reflexivity|lia].
Qed.

Lemma handleRedo_timeline st :
  future st <> [] ->
  timeline (handleRedo st) = timeline st
  /\ length (history (handleRedo st)) = S (length (history st)).
Proof.
  intros H. rewrite handleRedo_nonempty by exact H. unfold timeline. simpl.
  destruct (exists_last H) as (f & x & E). rewrite E.
  rewrite last_last, removelast_last, rev_app_distr, length_app. simpl.
  rewrite <- !app_assoc. simpl. split; [reflexivity|lia].
Qed.

(** The timeline and the length of the undo stack fix the three cells. *)
Lemma timeline_inj st st' :
  timeline st = timeline st' ->
  length (history st) = length (history st') ->
  history st = history st' /\ shapes st = shapes st'
  /\ future st = future st'.
Proof.
  unfold timeline. intros E L.
  apply app_inj_1 in E as [E1 E2]; [|exact L].
  simpl in E2. inversion E2 as [[E3 E4]].
  split; [exact E1|]. split; [reflexivity|].
  apply (f_equal (@rev _)) in E4. rewrite !rev_involutive in E4. exact E4.
Qed.

(** X1. Undo and redo walk along one timeline.  The undo stack, the
    current collection and the redo stack read from its top down form one
    list of collections.  An undo on a non-empty undo stack leaves that
    list as it is and moves the current position one place back; a redo on
    a non-empty redo stack moves it one place forward.  So a redo after an
    undo, and an undo after a redo, give back the undo stack, the
    collection and the redo stack exactly. *)
Theorem undo_redo_timeline (st : App) :
  (history st <> [] ->
   timeline (handleUndo st) = timeline st
   /\ S (length (history (handleUndo st))) = length (history st)
   /\ history (handleRedo (handleUndo st)) = history st
   /\ shapes (handleRedo (handleUndo st)) = shapes st
   /\ future (handleRedo (handleUndo st)) = future st)
  /\ (future st <> [] ->
      timeline (handleRedo st) = timeline st
      /\ length (history (handleRedo st)) = S (length (history st))
      /\ history (handleUndo (handleRedo st)) = history st
      /\ shapes (handleUndo (handleRedo st)) = shapes st
      /\ future (handleUndo (handleRedo st)) = future st).
Proof.
  split; intros H.
  - destruct (handleUndo_timeline st H) as [T L].
    split; [exact T|]. split; [exact L|].
    assert (Hf : future (handleUndo st) <> []).
    { rewrite handleUndo_nonempty by exact H. simpl. apply snoc_nonempty. }
    destruct (handleRedo_timeline _ Hf) as [T' L'].
    apply timeline_inj; [congruence|lia].
  - destruct (handleRedo_timeline st H) as [T L].
    split; [exact T|]. split; [exact L|].
    assert (Hh : history (handleRedo st) <> []).
    { rewrite handleRedo_nonempty by exact H. simpl. apply snoc_nonempty. }
    destruct (handleUndo_timeline _ Hh) as [T' L'].
    apply timeline_inj; [congruence|lia].
Qed.

Lemma timeline_length st :
  length (timeline st) = (length (history st) + 1 + length (future st))%nat.
Proof. unfold timeline. rewrite !length_app, length_rev. simpl. lia. Qed.

Lemma undo_iter (k : nat) : forall st,
  (k <= length (history st))%nat ->
  timeline (Nat.iter k handleUndo st) = timeline st
  /\ (length (history (Nat.iter k handleUndo st)) + k)%nat
     = length (history st).
Proof.
  induction k as [|k IH]; intros st Hk; simpl; [split; [reflexivity|lia]|].
  destruct (IH st) as [T L]; [lia|].
  assert (Hne : history (Nat.iter k handleUndo st) <> []).
  { intros E. rewrite E in L. simpl in L. lia. }
  destruct (handleUndo_timeline _ Hne) as [T' L'].
  split; [congruence|lia].
Qed.

Lemma redo_iter (k : nat) : forall st,
  (k <= length (future st))%nat ->
  timeline (Nat.iter k handleRedo st) = timeline st
  /\ length (history (Nat.iter k handleRedo st))
     = (length (history st) + k)%nat.
Proof.
  induction k as [|k IH]; intros st Hk; simpl; [split; [reflexivity|lia]|].
  destruct (IH st) as [T L]; [lia|].
  assert (Hne : future (Nat.iter k handleRedo st) <> []).
  { intros E. pose proof (timeline_length (Nat.iter k handleRedo st)) as H1.
    pose proof (timeline_length st) as H2.
    rewrite T, E in H1. simpl in H1. lia. }
  destruct (handleRedo_timeline _ Hne) as [T' L'].
  split; [congruence|lia].
Qed.

Lemma performAll_app ops1 : forall ops2 st,
  performAll (ops1 ++ ops2) st = performAll ops2 (performAll ops1 st).
Proof.
  induction ops1 as [|[rnd op] ops1 IH]; intros; simpl; [reflexivity|apply IH].
Qed.

Lemma allPerformed_app ops1 : forall ops2 st,
  allPerformed (ops1 ++ ops2) st
  = allPerformed ops1 st && allPerformed ops2 (performAll ops1 st).
Proof.
  induction ops1 as [|[rnd op] ops1 IH]; intros; simpl; [reflexivity|].
  rewrite IH, andb_assoc. reflexivity.
Qed.

(** Operations that are carried out push, one after the other, the
    collections they found. *)
Lemma performAll_pushes ops : forall st,
  allPerformed ops st = true ->
  exists X,
    history (performAll ops st) = history st ++ X
    /\ length X = length ops
    /\ head (X ++ [shapes (performAll ops st)]) = Some (shapes st).
Proof.
  induction ops as [|[rnd op] ops IH]; intros st H; simpl in *.
  - exists []. rewrite app_nil_r. auto.
  - apply andb_true_iff in H as [H1 H2].
    destruct (IH _ H2) as (X & E & L & _).
    destruct (perform_pushes rnd op st H1) as [Hh _].
    exists (shapes st :: X). rewrite E, Hh, <- app_assoc. simpl.
    split; [reflexivity|]. split; [lia|reflexivity].
Qed.

Lemma timeline_at st (h : list (list Shape)) (x : list Shape) rest :
  timeline st = h ++ x :: rest ->
  length (history st) = length h ->
  history st = h /\ shapes st = x.
Proof.
  unfold timeline. intros E L.
  apply app_inj_1 in E as [E1 E2]; [|exact L].
  simpl in E2. inversion E2. auto.
Qed.

(** X2. After [n] operations carried out in a row, [k <= n] undos give the
    collection and the undo stack as they were after the first [n - k]
    operations, and [k] redos after them give back the collection, the
    undo stack and the redo stack as they were after all [n]. *)
Theorem undo_many_redo_many (ops : list ((nat -> string) * Op)) (st : App)
    (k : nat) :
  allPerformed ops st = true ->
  (k <= length ops)%nat ->
  let st' := performAll ops st in
  let before := performAll (take (length ops - k) ops) st in
  let u := Nat.iter k handleUndo st' in
  let r := Nat.iter k handleRedo u in
  (shapes u = shapes before /\ history u = history before)
  /\ (shapes r = shapes st' /\ history r = history st'
      /\ future r = future st').
Proof.
  intros Hall Hk st' before u r.
  set (m := (length ops - k)%nat) in *.
  assert (Eops : ops = take m ops ++ drop m ops) by (symmetry; apply take_drop).
  assert (Hst' : st' = performAll (drop m ops) before).
  { unfold st', before. rewrite <- performAll_app, <- Eops. reflexivity. }
  rewrite Eops, allPerformed_app in Hall.
  apply andb_true_iff in Hall as [_ Hall]. fold before in Hall.
  destruct (performAll_pushes _ _ Hall) as (X & E & L & Hd).
  rewrite <- Hst' in E, Hd.
  rewrite length_drop in L. fold m in L.
  assert (Lk : length X = k) by (unfold m in L; lia).
  destruct (undo_iter k st') as [T Lu]; [rewrite E, length_app; lia|].
  fold u in T, Lu.
  assert (Hu : history u = history before /\ shapes u = shapes before).
  { destruct (X ++ [shapes st']) as [|x rest] eqn:EX; [discriminate|].
    simpl in Hd. inversion Hd; subst x.
    apply (timeline_at u _ _ (rest ++ rev (future st'))).
    - rewrite T. unfold timeline. rewrite E, <- app_assoc.
      f_equal. change (X ++ [shapes st'] ++ rev (future st'))
        with (X ++ ([shapes st'] ++ rev (future st'))).
      rewrite app_assoc, EX. reflexivity.
    - rewrite E, length_app in Lu. lia. }
  split; [tauto|].
  destruct (redo_iter k u) as [T' Lr].
  { pose proof (timeline_length u) as H1.
    pose proof (timeline_length st') as H2. rewrite T in H1. lia. }
  fold r in T', Lr.
  destruct (timeline_inj r st') as (A & B & C); [congruence|lia|].
  auto.
Qed.

Lemma undo_many_redo_many_witness :
  (allPerformed opsSample (initialApp [] ∅) = true
   /\ (1 <= length opsSample)%nat)
  /\ shapes (Nat.iter 1 handleUndo (performAll opsSample (initialApp [] ∅)))
     = shapes (performAll (take (length opsSample - 1) opsSample)
                          (initialApp [] ∅)).
Proof.
  assert (H1 : allPerformed opsSample (initialApp [] ∅) = true)
    by reflexivity.
  assert (H2 : (1 <= length opsSample)%nat) by (simpl; lia).
  split; [split; assumption|].
  exact (proj1 (proj1 (undo_many_redo_many opsSample (initialApp [] ∅) 1
                         H1 H2))).
Defined.

(** ** Delete and select all *)

Lemma size_idSet_nonempty (l : list Shape) :
  l <> [] -> size (list_to_set (map id l) : gset string) <> 0%nat.
Proof.
  intros H. destruct l as [|s l]; [congruence|].
  apply size_non_empty_iff. simpl. set_solver.
Qed.

Lemma handleDelete_state st :
  size (selectedShapeIds st) <> 0%nat ->
  handleDelete st
  = saveHistory st
      |> setShapes (List.filter
                      (fun s => negb (has (selectedShapeIds st) (id s)))
                      (shapes st))
      |> setSelectedShapeIds ∅.
Proof.
  intros H. unfold handleDelete. rewrite ltb_0_eqb_0.
  apply Nat.eqb_neq in H. rewrite H. reflexivity.
Qed.

Lemma has_spec (sel : gset string) (i : string) : has sel i = true <-> i ∈ sel.
Proof. unfold has. apply bool_decide_eq_true. Qed.

Lemma pruneSelection_empty l : pruneSelection l ∅ = ∅.
Proof. unfold pruneSelection. set_solver. Qed.

Lemma filter_none {A : Type} (p : A -> bool) (l : list A) :
  (forall x, In x l -> p x = false) -> List.filter p l = [].
Proof.
  induction l as [|a l IH]; intros H; simpl; [reflexivity|].
  rewrite (H a (or_introl eq_refl)). apply IH.
  intros x Hx. apply H. right. exact Hx.
Qed.

(** X3. Delete.  With nothing selected it does nothing.  Otherwise it
    removes exactly the selected shapes, keeps the others in their order,
    empties the selection, so that a second delete does nothing, keeps
    distinct identifiers distinct, and is one step of the history: an undo
    brings the collection back, with nothing selected.  Select all followed
    by delete empties the drawing, and when there was something to remove
    an undo brings all of it back. *)
Theorem delete_selected (st : App) :
  (size (selectedShapeIds st) = 0%nat -> handleDelete st = st)
  /\ (size (selectedShapeIds st) <> 0%nat ->
      let st' := handleDelete st in
      (forall s, In s (shapes st')
                 <-> In s (shapes st) /\ id s ∉ selectedShapeIds st)
      /\ sublist (shapes st') (shapes st)
      /\ selectedShapeIds st' = ∅
      /\ handleDelete st' = st'
      /\ (NoDup (id <$> shapes st) -> NoDup (id <$> shapes st'))
      /\ history st' = history st ++ [shapes st]
      /\ shapes (handleUndo st') = shapes st
      /\ selectedShapeIds (handleUndo st') = ∅)
  /\ (let st' := handleDelete (handleSelectAll st) in
      shapes st' = [] /\ selectedShapeIds st' = ∅
      /\ (shapes st <> [] ->
          history st' = history st ++ [shapes st]
          /\ shapes (handleUndo st') = shapes st
          /\ selectedShapeIds (handleUndo st') = ∅)).
Proof.
  split; [|split].
  - intros H. unfold handleDelete. rewrite H. reflexivity.
  - intros H st'. unfold st'. rewrite (handleDelete_state st H).
    split; [|split; [|split; [|split; [|split; [|split; [|split]]]]]].
    + intros s. simpl. rewrite filter_In, negb_true_iff.
      rewrite <- has_spec. destruct (has _ _); intuition congruence.
    + simpl. induction (shapes st) as [|s l IH]; simpl; [constructor|].
      destruct (negb _); [apply sublist_skip|apply sublist_cons]; exact IH.
    + reflexivity.
    + reflexivity.
    + simpl. intros Hnd.
      induction (shapes st) as [|s l IH]; simpl; [constructor|].
      apply NoDup_cons in Hnd as [Hs Hl].
      destruct (negb _); [|apply IH; exact Hl].
      simpl. apply NoDup_cons. split; [|apply IH; exact Hl].
      intros Hin. apply Hs.
      apply list_elem_of_fmap in Hin as (x & E & Hx).
      apply list_elem_of_fmap. exists x. split; [exact E|].
      apply list_elem_of_In. apply list_elem_of_In in Hx.
      apply filter_In in Hx as [Hx _]. exact Hx.
    + reflexivity.
    + rewrite handleUndo_nonempty by (simpl; apply snoc_nonempty).
      simpl. apply last_last.
    + rewrite handleUndo_nonempty by (simpl; apply snoc_nonempty).
      simpl. apply pruneSelection_empty.
  - intros st'.
    destruct (shapes st) as [|s0 l0] eqn:E.
    + assert (Hs : handleSelectAll st = st |> setSelectedShapeIds ∅).
      { unfold handleSelectAll. rewrite E. reflexivity. }
      unfold st'. rewrite Hs. unfold handleDelete.
      change (selectedShapeIds (setSelectedShapeIds ∅ st))
        with (∅ : gset string).
      rewrite size_empty. simpl.
      split; [exact E|]. split; [reflexivity|congruence].
    + assert (Hsz : size (selectedShapeIds (handleSelectAll st)) <> 0%nat).
      { unfold handleSelectAll. simpl. apply size_idSet_nonempty.
        rewrite E. discriminate. }
      unfold st'. rewrite (handleDelete_state _ Hsz).
      assert (Hf : List.filter
                (fun s => negb (has (selectedShapeIds (handleSelectAll st))
                                    (id s)))
                (shapes (handleSelectAll st)) = []).
      { apply filter_none. intros s Hs.
        apply negb_false_iff, has_spec.
        unfold handleSelectAll in *. simpl in *.
        apply elem_of_list_to_set, list_elem_of_In, in_map. exact Hs. }
      simpl. simpl in Hf. rewrite Hf.
      split; [reflexivity|]. split; [reflexivity|]. intros _.
      rewrite E. split; [reflexivity|].
      rewrite handleUndo_nonempty by (simpl; apply snoc_nonempty).
      simpl. rewrite last_last. split; [exact E|].
      apply pruneSelection_empty.
Qed.

Lemma delete_selected_witness :
  let a := sampleShape "a" ShapeType.line 0 0 3 4 in
  let b := sampleShape "b" ShapeType.rect 0 0 1 1 in
  let st := initialApp [a; b] {[ "a"%string ]} in
  size (selectedShapeIds st) <> 0%nat
  /\ handleDelete (handleDelete st) = handleDelete st
  /\ shapes (handleUndo (handleDelete st)) = shapes st.
Proof.
  intros a b st.
  assert (H : size (selectedShapeIds st) <> 0%nat).
  { change (size (selectedShapeIds st)) with 1%nat. discriminate. }
  split; [exact H|].
  destruct (delete_selected st) as (_ & Hd & _).
  destruct (Hd H) as (_ & _ & _ & H1 & _ & _ & H2 & _).
  split; [exact H1|exact H2].
Defined.

(** ** The callbacks of the canvas *)

Lemma findById_id (l : list Shape) (i : string) (u : Shape) :
  findById l i = Some u -> id u = i /\ In u l.
Proof.
  unfold findById. intros H. apply find_some in H as [H1 H2].
  apply String.eqb_eq in H2. auto.
Qed.

Lemma findById_None (l : list Shape) (i : string) :
  findById l i = None <-> forall u, In u l -> id u <> i.
Proof.
  unfold findById. split.
  - intros H u Hu E. pose proof (find_none _ _ H u Hu) as Hn. simpl in Hn.
    apply String.eqb_neq in Hn. contradiction.
  - intros H. destruct (List.find _ l) as [u|] eqn:E; [|reflexivity].
    apply find_some in E as [E1 E2]. apply String.eqb_eq in E2.
    exfalso. exact (H u E1 E2).
Qed.

Lemma findById_NoDup (l : list Shape) (u : Shape) :
  NoDup (id <$> l) -> In u l -> findById l (id u) = Some u.
Proof.
  unfold findById. induction l as [|a l IH]; intros Hnd Hin; [contradiction|].
  simpl in *. apply NoDup_cons in Hnd as [Ha Hl].
  destruct (String.eqb (id a) (id u)) eqn:E.
  - apply String.eqb_eq in E. destruct Hin as [->|Hin]; [reflexivity|].
    exfalso. apply Ha. rewrite E. apply list_elem_of_fmap.
    exists u. split; [reflexivity|]. apply list_elem_of_In. exact Hin.
  - destruct Hin as [->|Hin].
    + rewrite String.eqb_refl in E. discriminate.
    + apply IH; assumption.
Qed.

Lemma updated_id u s : id (updated u s) = id s.
Proof.
  unfold updated. destruct (findById u (id s)) as [x|] eqn:E; [|reflexivity].
  apply findById_id in E as [E _]. exact E.
Qed.

(** X4. The canvas hands back the shapes it has changed.  Each shape of
    the collection is replaced by the first update that carries its
    identifier, and kept when there is none: identifiers and order stay; a
    shape no update names is kept as it is; with distinct identifiers
    among the updates a shape is replaced by the update of its identifier;
    nothing else enters the collection, so an update that names no shape
    is dropped; the history, the redo stack and the selection are not
    touched; an empty update changes nothing. *)
Theorem shapes_update_in_place (u : list Shape) (st : App) :
  let st' := handleShapesUpdate u st in
  id <$> shapes st' = id <$> shapes st
  /\ (forall (j : nat) (s : Shape), shapes st !! j = Some s ->
        ((forall x, In x u -> id x <> id s) -> shapes st' !! j = Some s)
        /\ (forall x, In x u -> id x = id s -> NoDup (id <$> u) ->
              shapes st' !! j = Some x))
  /\ (forall x, In x (shapes st') -> In x (shapes st) \/ In x u)
  /\ (history st' = history st /\ future st' = future st
      /\ selectedShapeIds st' = selectedShapeIds st)
  /\ handleShapesUpdate [] st = st.
Proof.
  intros st'. unfold st', handleShapesUpdate. simpl.
  fold (updated u).
  split; [|split; [|split; [|split]]].
  - rewrite <- list_fmap_compose. apply list_fmap_ext.
    intros j s _. apply updated_id.
  - intros j s Hj. rewrite list_lookup_fmap, Hj. simpl. split.
    + intros Hno. unfold updated.
      rewrite (proj2 (findById_None u (id s)) Hno). reflexivity.
    + intros x Hx E Hnd. unfold updated. rewrite <- E.
      rewrite (findById_NoDup u x Hnd Hx). reflexivity.
  - intros x Hx. apply in_map_iff in Hx as (s & E & Hs). subst x.
    unfold updated. destruct (findById u (id s)) as [y|] eqn:F.
    + right. apply findById_id in F as [_ F]. exact F.
    + left. exact Hs.
  - auto.
  - clear st'. unfold updated. simpl. rewrite map_id.
    destruct st; reflexivity.
Qed.

(** X5. The gestures of the canvas and the history.  A press on a shape
    starts an interaction and sets the selection, and every move of the
    mouse that follows sends an update: together they are one step of the
    history, however many updates there are - also when there is none,
    where the collection stays as it is and the redo stack is emptied all
    the same.  One undo gives back the collection from before the press,
    with the undo stack it had, and a redo gives the dragged collection.
    A shape drawn with the mouse is two steps: the press starts an
    interaction, which pushes the collection, and the release adds the
    shape, which pushes it again; the first undo removes the shape, the
    second one changes nothing in the collection. *)
Theorem canvas_gestures_history (sel : option (gset string))
    (updates : list (list Shape)) (s : Shape) (st : App) :
  (let st1 :=
     fold_left (fun st u => handleShapesUpdate u st) updates
               (handleSelectionChange sel (handleInteractionStart st)) in
   history st1 = history st ++ [shapes st]
   /\ future st1 = []
   /\ (updates = [] -> shapes st1 = shapes st)
   /\ shapes (handleUndo st1) = shapes st
   /\ history (handleUndo st1) = history st
   /\ shapes (handleRedo (handleUndo st1)) = shapes st1)
  /\ (let st2 := handleShapeAdd s (handleInteractionStart st) in
      shapes st2 = shapes st ++ [s]
      /\ history st2 = history st ++ [shapes st; shapes st]
      /\ shapes (handleUndo st2) = shapes st
      /\ shapes (handleUndo (handleUndo st2)) = shapes st
      /\ history (handleUndo (handleUndo st2)) = history st).
Proof.
  split.
  - intros st1.
    assert (H : history st1 = history st ++ [shapes st] /\ future st1 = []).
    { unfold st1.
      assert (H0 : history (handleSelectionChange sel
                              (handleInteractionStart st))
                   = history st ++ [shapes st]
                   /\ future (handleSelectionChange sel
                                (handleInteractionStart st)) = [])
        by (destruct sel; split; reflexivity).
      revert H0.
      generalize (handleSelectionChange sel (handleInteractionStart st))
        as s0.
      induction updates as [|u l IH]; intros s0 H0; simpl; [exact H0|].
      apply IH. exact H0. }
    destruct H as [Hh Hf]. split; [exact Hh|]. split; [exact Hf|].
    split; [intros ->; unfold st1; destruct sel; reflexivity|].
    assert (Hne : history st1 <> []) by (rewrite Hh; apply snoc_nonempty).
    rewrite (handleUndo_nonempty st1 Hne).
    cbn [shapes history future setFuture setShapes setHistory
         setSelectedShapeIds].
    rewrite Hh, last_last, removelast_last.
    split; [reflexivity|]. split; [reflexivity|].
    rewrite handleRedo_nonempty; simpl; rewrite Hf; [reflexivity|discriminate].
  - intros st2.
    assert (Hh : history st2 = (history st ++ [shapes st]) ++ [shapes st])
      by reflexivity.
    assert (Hne : history st2 <> []) by (rewrite Hh; apply snoc_nonempty).
    split; [reflexivity|].
    split; [rewrite Hh, <- app_assoc; reflexivity|].
    rewrite (handleUndo_nonempty st2 Hne).
    rewrite Hh, last_last, removelast_last.
    split; [reflexivity|].
    rewrite handleUndo_nonempty
      by (cbn [history setFuture setShapes setHistory setSelectedShapeIds];
          apply snoc_nonempty).
    cbn [shapes history future setFuture setShapes setHistory
         setSelectedShapeIds].
    rewrite last_last, removelast_last. split; reflexivity.
Qed.

(** ** Nudge *)

Lemma nudgeShape_translate dx dy s : nudgeShape dx dy s = translateShape dx dy s.
Proof.
  unfold nudgeShape, translateShape, when.
  destruct s as [i ty a b c d o1 o2 o3 o4 ps tx ty' ? ? ? ? ? ? ? ? ? ? ? ?].
  destruct o1, o2, o3, o4, tx, ty', ps; reflexivity.
Qed.

Lemma handleNudge_state dx dy st :
  size (selectedShapeIds st) <> 0%nat ->
  handleNudge dx dy st
  = saveHistory st
      |> setShapes (nudged (selectedShapeIds st) dx dy (shapes st)).
Proof.
  intros H. unfold handleNudge. apply Nat.eqb_neq in H. rewrite H.
  unfold nudged. simpl.
  erewrite map_ext; [reflexivity|].
  intros s. simpl. rewrite nudgeShape_translate.
  destruct (has _ _); reflexivity.
Qed.

(** X6. Nudge.  With nothing selected it does nothing.  Otherwise every
    selected shape is moved whole by [(dx, dy)] - anchors, control points,
    points of a freehand path and label anchor alike - and the others are
    left alone; identifiers, order and selection stay, and the collection
    found is pushed on the undo stack. *)
Theorem nudge_translates (dx dy : num) (st : App) :
  (size (selectedShapeIds st) = 0%nat -> handleNudge dx dy st = st)
  /\ (size (selectedShapeIds st) <> 0%nat ->
      let st' := handleNudge dx dy st in
      (forall (j : nat) (s : Shape), shapes st !! j = Some s ->
         shapes st' !! j
         = Some (if has (selectedShapeIds st) (id s)
                 then translateShape dx dy s else s))
      /\ id <$> shapes st' = id <$> shapes st
      /\ selectedShapeIds st' = selectedShapeIds st
      /\ history st' = history st ++ [shapes st]
      /\ future st' = []).
Proof.
  split.
  - intros H. unfold handleNudge. rewrite H. reflexivity.
  - intros H st'. unfold st'. rewrite (handleNudge_state dx dy st H).
    simpl. split; [|split; [|auto]].
    + intros j s Hj. unfold nudged. rewrite list_lookup_fmap, Hj. reflexivity.
    + unfold nudged. rewrite <- list_fmap_compose. apply list_fmap_ext.
      intros j s _. simpl. destruct (has _ _); reflexivity.
Qed.

Lemma nudge_translates_witness :
  let st := initialApp [lineA] {[ "a"%string ]} in
  size (selectedShapeIds st) <> 0%nat
  /\ history (handleNudge (Fin 1) (Fin 0) st) = history st ++ [shapes st].
Proof.
  intros st.
  assert (H : size (selectedShapeIds st) <> 0%nat).
  { change (size (selectedShapeIds st)) with 1%nat. discriminate. }
  split; [exact H|].
  destruct (nudge_translates (Fin 1) (Fin 0) st) as (_ & Hb).
  destruct (Hb H) as (_ & _ & _ & Hh & _). exact Hh.
Defined.

(** ** Copy, paste and duplicate *)

Lemma handlePaste_state rnd st clip :
  clipboard st = Some clip -> clip <> [] ->
  handlePaste rnd st
  = saveHistory st
      |> setShapes (shapes st ++ copies rnd duplicateShape 0 clip)
      |> setSelectedShapeIds (∅ ∪ idSet (copies rnd duplicateShape 0 clip)).
Proof.
  intros E Hne. unfold handlePaste. rewrite E.
  destruct clip as [|c clip]; [congruence|].
  change (Nat.ltb 0 (length (c :: clip))) with true. cbv iota.
  unfold pasteBody.
  rewrite (forEach_copies rnd duplicateShape (c :: clip) (mkAcc [] ∅ 0)).
  reflexivity.
Qed.

Lemma handleDuplicate_state rnd st :
  size (selectedShapeIds st) <> 0%nat ->
  handleDuplicate rnd st
  = saveHistory st
      |> setShapes (shapes st ++ copies rnd duplicateShape 0 (selectedOf st))
      |> setSelectedShapeIds
           (∅ ∪ idSet (copies rnd duplicateShape 0 (selectedOf st))).
Proof.
  intros H. apply Nat.eqb_neq in H. unfold handleDuplicate. rewrite H.
  unfold duplicateBody.
  rewrite (forEach_filter (fun s => has (selectedShapeIds st) (id s))
             (fun shape acc =>
                acc |> tick |> push (duplicateShape (rnd (draws acc)) shape)
                    |> addId (id (duplicateShape (rnd (draws acc)) shape)))).
  fold (selectedOf st).
  rewrite (forEach_copies rnd duplicateShape (selectedOf st) (mkAcc [] ∅ 0)).
  reflexivity.
Qed.

Lemma selectedOf_size st : selectedOf st <> [] -> size (selectedShapeIds st) <> 0%nat.
Proof.
  intros H. destruct (selectedOf st) as [|s l] eqn:E; [congruence|].
  assert (Hin : In s (selectedOf st)) by (rewrite E; left; reflexivity).
  unfold selectedOf in Hin. apply filter_In in Hin as [_ Hs].
  apply has_spec in Hs. apply size_non_empty_iff. set_solver.
Qed.

(** X7. Copy changes the clipboard alone: the collection, both stacks
    and the selection stay; with an empty selection nothing changes at
    all, with a non-empty one the clipboard holds the selected shapes in
    the order of the collection.  When some shape of the collection is
    selected, copy followed by paste gives the collection, the selection
    and both stacks that duplicate gives. *)
Theorem copy_paste_is_duplicate (rnd : nat -> string) (st : App) :
  (shapes (handleCopy st) = shapes st
   /\ history (handleCopy st) = history st
   /\ future (handleCopy st) = future st
   /\ selectedShapeIds (handleCopy st) = selectedShapeIds st)
  /\ (size (selectedShapeIds st) = 0%nat -> handleCopy st = st)
  /\ (size (selectedShapeIds st) <> 0%nat ->
      clipboard (handleCopy st) = Some (selectedOf st))
  /\ (selectedOf st <> [] ->
      let p := handlePaste rnd (handleCopy st) in
      let d := handleDuplicate rnd st in
      shapes p = shapes d /\ selectedShapeIds p = selectedShapeIds d
      /\ history p = history d /\ future p = future d).
Proof.
  assert (Hc : size (selectedShapeIds st) <> 0%nat ->
               handleCopy st = st |> setClipboard (Some (selectedOf st))).
  { intros H. unfold handleCopy. rewrite ltb_0_eqb_0.
    apply Nat.eqb_neq in H. rewrite H. reflexivity. }
  split; [|split; [|split]].
  - unfold handleCopy. destruct (Nat.ltb _ _); auto.
  - intros H. unfold handleCopy. rewrite H. reflexivity.
  - intros H. rewrite (Hc H). reflexivity.
  - intros Hne p d.
    pose proof (selectedOf_size st Hne) as Hsz.
    unfold p, d. rewrite (handleDuplicate_state rnd st Hsz).
    rewrite (handlePaste_state rnd _ (selectedOf st));
      [|rewrite (Hc Hsz); reflexivity|exact Hne].
    rewrite (Hc Hsz). auto.
Qed.

Lemma copy_paste_is_duplicate_witness :
  let a := sampleShape "a" ShapeType.line 0 0 3 4 in
  let st := initialApp [a] {[ "a"%string ]} in
  selectedOf st <> []
  /\ shapes (handlePaste ids0 (handleCopy st))
     = shapes (handleDuplicate ids0 st).
Proof.
  intros a st.
  assert (Hsel : selectedOf st = [a]).
  { unfold selectedOf. simpl. rewrite has_true by set_solver. reflexivity. }
  assert (H : selectedOf st <> []) by (rewrite Hsel; discriminate).
  split; [exact H|].
  destruct (copy_paste_is_duplicate ids0 st) as (_ & _ & _ & Hp).
  destruct (Hp H) as [Hs _]. exact Hs.
Defined.

Lemma duplicateShape_set_id i k s :
  set_id k (duplicateShape i s) = duplicateShape k s.
Proof.
  unfold duplicateShape, when.
  destruct (points s);
    destruct (_ || _);
    repeat match goal with
           | |- context [if ?b then _ else _] => destruct b
           end; reflexivity.
Qed.

Lemma copies_set_id rnd rnd' (l : list Shape) : forall k k',
  Forall2 (fun c1 c2 => set_id (id c1) c2 = c1)
          (copies rnd duplicateShape k l) (copies rnd' duplicateShape k' l).
Proof.
  induction l as [|s l IH]; intros k k'; simpl; constructor; [|apply IH].
  rewrite duplicateShape_id. apply duplicateShape_set_id.
Qed.

(** X8. Every paste lands in the same place.  With a non-empty clipboard,
    two pastes in a row append two batches as long as the clipboard; the
    shapes of the second batch are those of the first but for their
    identifiers (the offset is taken from the clipboard each time, it does
    not add up); the clipboard is kept and the selection is the second
    batch. *)
Theorem paste_twice_stacks (rnd1 rnd2 : nat -> string) (st : App)
    (clip : list Shape) :
  clipboard st = Some clip -> clip <> [] ->
  let st1 := handlePaste rnd1 st in
  let st2 := handlePaste rnd2 st1 in
  exists batch1 batch2 : list Shape,
    shapes st1 = shapes st ++ batch1
    /\ shapes st2 = shapes st ++ batch1 ++ batch2
    /\ length batch1 = length clip /\ length batch2 = length clip
    /\ Forall2 (fun c1 c2 => set_id (id c1) c2 = c1) batch1 batch2
    /\ clipboard st2 = Some clip
    /\ selectedShapeIds st2 = idSet batch2.
Proof.
  intros E Hne st1 st2.
  assert (E1 : st1 = saveHistory st
      |> setShapes (shapes st ++ copies rnd1 duplicateShape 0 clip)
      |> setSelectedShapeIds (∅ ∪ idSet (copies rnd1 duplicateShape 0 clip)))
    by (apply handlePaste_state; assumption).
  assert (Ec : clipboard st1 = Some clip) by (rewrite E1; exact E).
  assert (E2 : st2 = saveHistory st1
      |> setShapes (shapes st1 ++ copies rnd2 duplicateShape 0 clip)
      |> setSelectedShapeIds (∅ ∪ idSet (copies rnd2 duplicateShape 0 clip)))
    by (apply handlePaste_state; assumption).
  exists (copies rnd1 duplicateShape 0 clip),
         (copies rnd2 duplicateShape 0 clip).
  split; [rewrite E1; reflexivity|].
  split; [rewrite E2, E1; simpl; rewrite <- app_assoc; reflexivity|].
  split; [apply copies_length|]. split; [apply copies_length|].
  split; [apply copies_set_id|].
  split; [rewrite E2; exact Ec|].
  rewrite E2. simpl. set_solver.
Qed.

Lemma paste_twice_stacks_witness :
  let a := sampleShape "a" ShapeType.line 0 0 3 4 in
  let st := initialApp [a] ∅ |> setClipboard (Some [a]) in
  (clipboard st = Some [a] /\ [a] <> [])
  /\ length (shapes (handlePaste ids0 (handlePaste ids0 st))) = 3%nat.
Proof.
  intros a st.
  assert (H1 : clipboard st = Some [a]) by reflexivity.
  assert (H2 : [a] <> []) by discriminate.
  split; [split; assumption|].
  destruct (paste_twice_stacks ids0 ids0 st [a] H1 H2)
    as (b1 & b2 & _ & Hs & L1 & L2 & _).
  rewrite Hs, !length_app, L1, L2. reflexivity.
Defined.

(** X9. What a duplicate moves.  The copy has the two anchors moved by
    [(2, -2)] and the points of a path moved likewise; the label anchor
    [(textX, textY)] is not moved; control points are moved for no type
    but [bezier] and [measure]; type, rotation and line style are kept. *)
Theorem duplicate_moves_anchors_only (newId : string) (s : Shape) :
  let c := duplicateShape newId s in
  (x1 c = Js.add (x1 s) (lit 2) /\ y1 c = Js.sub (y1 s) (lit 2)
   /\ x2 c = Js.add (x2 s) (lit 2) /\ y2 c = Js.sub (y2 s) (lit 2))
  /\ points c
     = map (fun p => mkPoint (Js.add (p_x p) (lit 2)) (Js.sub (p_y p) (lit 2)))
       <$> points s
  /\ (textX c = textX s /\ textY c = textY s)
  /\ (type s <> ShapeType.bezier -> type s <> ShapeType.measure ->
      cx1 c = cx1 s /\ cy1 c = cy1 s /\ cx2 c = cx2 s /\ cy2 c = cy2 s)
  /\ (type c = type s /\ rotation c = rotation s /\ style c = style s).
Proof.
  intros c. unfold c, duplicateShape, when.
  destruct s as [i ty a b c0 d o1 o2 o3 o4 ps tx ty' ? ? ? ? ? ? ? ? ? ? ? ?].
  cbn [type points cx1 cy1 cx2 cy2].
  destruct ps as [ps|];
    destruct (_ || _) eqn:Et;
    repeat match goal with
           | |- context [if ?b then _ else _] => destruct b
           end;
    (split; [repeat split; reflexivity|];
     split; [reflexivity|];
     split; [split; reflexivity|];
     split; [|repeat split; reflexivity];
     intros H1 H2;
     first [ repeat split; reflexivity
           | exfalso; destruct ty; simpl in Et; try discriminate; congruence ]).
Qed.

(** ** The copies of a circular pattern *)

Lemma circularCopy_appearance newId cx cy angle s :
  appearance (circularCopy newId cx cy angle s) = appearance s.
Proof.
  destruct s as [i ty xa ya xb yb o1 o2 o3 o4 ps tx ty' ? ? ? ? ? ? rot ? ? ? ? ?].
  destruct ty, o1, o3, tx, ps; reflexivity.
Qed.

Lemma circularCopy_rotation newId cx cy angle s :
  ShapeType.includes boxBasedRotate (type s) = false ->
  rotation (circularCopy newId cx cy angle s) = rotation s.
Proof.
  destruct s as [i ty xa ya xb yb o1 o2 o3 o4 ps tx ty' ? ? ? ? ? ? rot ? ? ? ? ?].
  destruct ty, o1, o3, tx, ps; simpl; intros H;
    first [reflexivity | discriminate H].
Qed.

(** X10. The copies of a circular pattern look like the original.  For a
    selected shape, copy [i] of the pattern is in the collection at its
    place after the guide circle, under the identifier drawn for it; it has
    the type, line style, arrow, line width, colours, hatching, sweep,
    corner radius, guide mark and text of the original, and, unless the
    shape is box-based, its rotation too. *)
Theorem circular_copies_keep_style (rnd : nat -> string) (cx cy : num)
    (st : App) (j : nat) (s : Shape) (i : nat) :
  size (selectedShapeIds st) <> 0%nat ->
  (2 <= circularCount st)%Z ->
  selectedOf st !! j = Some s ->
  (1 <= i <= rounds (circularCount st))%nat ->
  let n := rounds (circularCount st) in
  exists c : Shape,
    shapes (handleCircularPatternCenter rnd cx cy st)
      !! (length (shapes st) + 1 + j * n + (i - 1))%nat = Some c
    /\ id c = rnd (1 + (j * n + (i - 1)))%nat
    /\ type c = type s
    /\ appearance c = appearance s
    /\ (ShapeType.includes boxBasedRotate (type s) = false ->
        rotation c = rotation s).
Proof.
  intros Hsel HN Hj Hi n.
  eexists. split; [exact (circular_pattern_copy rnd cx cy st j s i
                            Hsel HN Hj Hi)|].
  split; [apply circularCopy_id|].
  split; [apply circular_type|].
  split; [apply circularCopy_appearance|].
  apply circularCopy_rotation.
Qed.

Lemma circular_copies_keep_style_witness :
  (size (selectedShapeIds lineApp) <> 0%nat
   /\ (2 <= circularCount lineApp)%Z
   /\ selectedOf lineApp !! 0%nat = Some lineA
   /\ (1 <= 1 <= rounds (circularCount lineApp))%nat)
  /\ exists c : Shape,
       shapes (handleCircularPatternCenter ids0 (Fin 1) (Fin 0) lineApp)
         !! 2%nat = Some c
       /\ appearance c = appearance lineA.
Proof.
  pose proof lineApp_size as H1.
  assert (H2 : (2 <= circularCount lineApp)%Z) by (simpl; lia).
  assert (H3 : selectedOf lineApp !! 0%nat = Some lineA)
    by (rewrite lineApp_selected; reflexivity).
  assert (H4 : (1 <= 1 <= rounds (circularCount lineApp))%nat)
    by (change (rounds (circularCount lineApp)) with 5%nat; lia).
  split; [split; [exact H1|split; [exact H2|split; [exact H3|exact H4]]]|].
  destruct (circular_copies_keep_style ids0 (Fin 1) (Fin 0) lineApp 0%nat
              lineA 1%nat H1 H2 H3 H4) as (c & Hl & _ & _ & Ha & _).
  exists c. split; [exact Hl|exact Ha].
Defined.

(** ** The mirror image of a point *)

(** X12. [reflectPoint] computes the mirror image, rounded.  Across a
    line of positive length the result is the reflection [(rX, rY)]
    rounded to four decimals, at most 0.00005 away from it in each
    coordinate; the reflection fixes the two points that define the line,
    keeps the distance between any two points, and takes the point one
    line length to the left of the first end to the point one line length
    to its right. *)
Theorem reflect_point_is_mirror (lx1 ly1 lx2 ly2 : R) :
  lx1 <> lx2 \/ ly1 <> ly2 ->
  let rX := reflectX lx1 ly1 lx2 ly2 in
  let rY := reflectY lx1 ly1 lx2 ly2 in
  (forall px py : R,
     reflectPoint (Fin lx1) (Fin ly1) (Fin lx2) (Fin ly2)
                  (Some (Fin px)) (Some (Fin py))
     = (Some (Fin (Rround4 (rX px py))), Some (Fin (Rround4 (rY px py))))
     /\ Rabs (Rround4 (rX px py) - rX px py) <= / 20000
     /\ Rabs (Rround4 (rY px py) - rY px py) <= / 20000)
  /\ (rX lx1 ly1 = lx1 /\ rY lx1 ly1 = ly1
      /\ rX lx2 ly2 = lx2 /\ rY lx2 ly2 = ly2)
  /\ (forall px py qx qy : R,
        dist (rX px py) (rY px py) (rX qx qy) (rY qx qy) = dist px py qx qy)
  /\ (rX (lx1 - (ly2 - ly1)) (ly1 + (lx2 - lx1)) = lx1 + (ly2 - ly1)
      /\ rY (lx1 - (ly2 - ly1)) (ly1 + (lx2 - lx1)) = ly1 - (lx2 - lx1)).
Proof.
  intros Hnd rX rY.
  pose proof (line_length_pos lx1 ly1 lx2 ly2 Hnd) as Hpos.
  pose proof (coef_unit lx1 ly1 lx2 ly2 Hnd) as Hunit.
  split; [|split; [|split]].
  - intros px py. split; [apply reflectPoint_Fin; exact Hnd|].
    split; apply Rround4_error.
  - unfold rX, rY, reflectX, reflectY, coefA, coefB.
    repeat split; field; lra.
  - intros px py qx qy. unfold dist. f_equal.
    unfold rX, rY, reflectX, reflectY.
    set (a := coefA lx1 ly1 lx2 ly2) in *.
    set (b := coefB lx1 ly1 lx2 ly2) in *.
    replace ((a * (px - lx1) + b * (py - ly1) + lx1
              - (a * (qx - lx1) + b * (qy - ly1) + lx1))
             * (a * (px - lx1) + b * (py - ly1) + lx1
                - (a * (qx - lx1) + b * (qy - ly1) + lx1))
             + (b * (px - lx1) - a * (py - ly1) + ly1
                - (b * (qx - lx1) - a * (qy - ly1) + ly1))
               * (b * (px - lx1) - a * (py - ly1) + ly1
                  - (b * (qx - lx1) - a * (qy - ly1) + ly1)))
      with ((a * a + b * b)
            * ((px - qx) * (px - qx) + (py - qy) * (py - qy))) by ring.
    rewrite Hunit. ring.
  - unfold rX, rY, reflectX, reflectY, coefA, coefB.
    split; field; lra.
Qed.

Lemma reflect_point_is_mirror_witness :
  (0 <> 2 \/ 0 <> 1)
  /\ reflectX 0 0 2 1 2 1 = 2 /\ reflectY 0 0 2 1 2 1 = 1.
Proof.
  assert (H : 0 <> 2 \/ 0 <> 1) by (left; lra).
  split; [exact H|].
  destruct (reflect_point_is_mirror 0 0 2 1 H) as (_ & (_ & _ & A & B) & _).
  split; [exact A|exact B].
Defined.

(** ** The mirror operation *)

Lemma mirrorShape_id newId a b c d s : id (mirrorShape newId a b c d s) = newId.
Proof.
  destruct s as [i ty xa ya xb yb o1 o2 o3 o4 ps tx ty' ? ? ? ? ? ? rot ? ? ? ? ?].
  destruct ty, o1, o3, tx, ps; reflexivity.
Qed.

(** X13. Mirror appends the images and selects them.  The collection
    grows by one image per selected shape, in their order; image [j] has
    the [j]-th identifier drawn and the type of its original; the
    selection becomes the images and the mode [pan]; the collection found
    is pushed on the undo stack, also when no shape is selected, where the
    collection stays and the selection becomes empty; with fresh draws
    distinct identifiers stay distinct. *)
Theorem mirror_appends_images (rnd : nat -> string) (a b c d : num)
    (st : App) :
  let st' := performMirror rnd a b c d st in
  exists imgs : list Shape,
    shapes st' = shapes st ++ imgs
    /\ length imgs = length (selectedOf st)
    /\ (forall (j : nat) (s : Shape), selectedOf st !! j = Some s ->
          exists img, imgs !! j = Some img
            /\ img = mirrorShape (rnd j) a b c d s
            /\ id img = rnd j /\ type img = type s)
    /\ selectedShapeIds st' = idSet imgs
    /\ mode st' = pan
    /\ (history st' = history st ++ [shapes st] /\ future st' = [])
    /\ (selectedOf st = [] ->
        shapes st' = shapes st /\ selectedShapeIds st' = ∅)
    /\ (freshDraws rnd (shapes st) (length imgs) ->
        NoDup (id <$> shapes st) -> NoDup (id <$> shapes st')).
Proof.
  intros st'. unfold st'. rewrite performMirror_state. cbv zeta.
  set (g := fun newId s => mirrorShape newId a b c d s).
  assert (Hid : forall newId s, id (g newId s) = newId)
    by (intros newId s; exact (mirrorShape_id newId a b c d s)).
  exists (copies rnd g 0 (selectedOf st)).
  split; [reflexivity|]. split; [apply copies_length|].
  split; [|split; [|split; [|split; [|split]]]].
  - intros j s Hj. eexists. split; [apply copies_lookup; exact Hj|].
    split; [reflexivity|]. split; [exact (Hid (rnd (0 + j)%nat) s)|].
    exact (mirror_type (rnd (0 + j)%nat) a b c d s).
  - simpl. set_solver.
  - reflexivity.
  - auto.
  - intros E. rewrite E. simpl. rewrite app_nil_r.
    split; [reflexivity|]. unfold idSet. simpl. set_solver.
  - intros Hfresh Hnd. simpl.
    apply (fresh_NoDup rnd); [|exact Hfresh|exact Hnd].
    rewrite (copies_ids _ _ _ Hid), copies_length. reflexivity.
Qed.

Lemma mirror_appends_images_witness :
  let a := sampleShape "a" ShapeType.line 0 0 3 4 in
  let st := initialApp [a] ∅ in
  selectedOf st = []
  /\ shapes (performMirror ids0 (lit 0) (lit 0) (lit 1) (lit 0) st) = [a]
  /\ history (performMirror ids0 (lit 0) (lit 0) (lit 1) (lit 0) st) = [[a]].
Proof.
  intros a st.
  assert (H : selectedOf st = []).
  { unfold selectedOf. simpl. rewrite has_false by set_solver. reflexivity. }
  split; [exact H|].
  destruct (mirror_appends_images ids0 (lit 0) (lit 0) (lit 1) (lit 0) st)
    as (imgs & _ & _ & _ & _ & _ & [Hh _] & He & _).
  destruct (He H) as [Hs _]. split; [exact Hs|exact Hh].
Defined.

(** X14. Mirror turns the angles of an arc about the line.  With [twice]
    the double of the angle of the mirror line, the image of an arc that
    starts at [u] and ends at [v] starts at [twice - v] and ends at
    [twice - u]: start and end change places, and the sweep from start to
    end is the same.  The rotation [r] becomes [twice - r], an absent one
    counting as 0. *)
Theorem mirror_arc_angles (newId : string) (lx1 ly1 lx2 ly2 : R) (s : Shape)
    (u v : R) :
  type s = ShapeType.arc ->
  startAngle s = Some (Fin u) -> endAngle s = Some (Fin v) ->
  let m := mirrorShape newId (Fin lx1) (Fin ly1) (Fin lx2) (Fin ly2) s in
  let twice := twiceLineAngle lx1 ly1 lx2 ly2 in
  startAngle m = Some (Fin (twice - v))
  /\ endAngle m = Some (Fin (twice - u))
  /\ Js.sub (Js.toNum (endAngle m)) (Js.toNum (startAngle m))
     = Js.sub (Js.toNum (endAngle s)) (Js.toNum (startAngle s))
  /\ (forall r, rotation s = Some (Fin r) ->
        rotation m = Some (Fin (twice - r)))
  /\ (rotation s = None -> rotation m = Some (Fin twice)).
Proof.
  intros Ht Es Ee m twice.
  assert (Ha : isArc (type s) = true) by (rewrite Ht; reflexivity).
  assert (Hb : isBox (type s) = true) by (rewrite Ht; reflexivity).
  assert (Hl : Js.mul (lit 2)
                 (Math.atan2 (Js.sub (Fin ly2) (Fin ly1))
                             (Js.sub (Fin lx2) (Fin lx1)))
               = Fin twice).
  { unfold twice, twiceLineAngle, lit. rewrite !sub_Fin, atan2_Fin, mul_Fin.
    reflexivity. }
  assert (Hs : startAngle m = Some (Fin (twice - v))).
  { unfold m. rewrite mirror_startAngle, Ha, Hl, Ee.
    rewrite orU_zero by discriminate. rewrite sub_Fin. reflexivity. }
  assert (He : endAngle m = Some (Fin (twice - u))).
  { unfold m. rewrite mirror_endAngle, Ha, Hl, Es.
    rewrite orU_zero by discriminate. rewrite sub_Fin. reflexivity. }
  split; [exact Hs|]. split; [exact He|]. split; [|split].
  - rewrite Hs, He, Es, Ee. unfold Js.toNum. rewrite !sub_Fin.
    apply Fin_eq. ring.
  - intros r Er. unfold m. rewrite mirror_rotation, Hb, Hl, Er.
    rewrite orU_zero by discriminate. rewrite sub_Fin. reflexivity.
  - intros Er. unfold m. rewrite mirror_rotation, Hb, Hl, Er.
    unfold Js.orU, lit. rewrite sub_Fin. do 2 f_equal. lra.
Qed.

Lemma mirror_arc_angles_witness :
  (type arcA = ShapeType.arc /\ startAngle arcA = Some (Fin 0)
   /\ endAngle arcA = Some (Fin 1))
  /\ startAngle (mirrorShape "m" (Fin 0) (Fin 0) (Fin 1) (Fin 0) arcA)
     = Some (Fin (twiceLineAngle 0 0 1 0 - 1)).
Proof.
  assert (H1 : type arcA = ShapeType.arc) by reflexivity.
  assert (H2 : startAngle arcA = Some (Fin 0)) by reflexivity.
  assert (H3 : endAngle arcA = Some (Fin 1)) by reflexivity.
  split; [repeat split; assumption|].
  exact (proj1 (mirror_arc_angles "m" 0 0 1 0 arcA 0 1 H1 H2 H3)).
Defined.

(** ** Offset *)

Lemma handleOffset_state rnd st :
  size (selectedShapeIds st) <> 0%nat ->
  let outs := offsets rnd (offsetDistance st) 0 (selectedOf st) in
  handleOffset rnd st
  = if Nat.ltb 0 (length outs) then
      saveHistory st |> setShapes (shapes st ++ outs)
                     |> setSelectedShapeIds (∅ ∪ idSet outs)
    else saveHistory st.
Proof.
  intros H outs. apply Nat.eqb_neq in H.
  unfold handleOffset. rewrite H, forEach_offsets. reflexivity.
Qed.

(** X15. Offset records a step of the history even when it builds
    nothing.  With a non-empty selection the collection found is pushed on
    the undo stack and the redo stack is emptied, and the mode stays; when
    no selected shape can be offset, the collection and the selection are
    as before, and the undo that follows changes nothing in the
    collection. *)
Theorem offset_always_records (rnd : nat -> string) (st : App) :
  size (selectedShapeIds st) <> 0%nat ->
  let st' := handleOffset rnd st in
  history st' = history st ++ [shapes st]
  /\ future st' = []
  /\ mode st' = mode st
  /\ (List.filter (offsetOk (offsetDistance st)) (selectedOf st) = [] ->
      shapes st' = shapes st
      /\ selectedShapeIds st' = selectedShapeIds st
      /\ shapes (handleUndo st') = shapes st).
Proof.
  intros H st'. unfold st'. rewrite (handleOffset_state rnd st H). cbv zeta.
  destruct (Nat.ltb 0 _) eqn:E.
  - split; [reflexivity|]. split; [reflexivity|]. split; [reflexivity|].
    intros Hk. apply Nat.ltb_lt in E.
    rewrite offsets_length, Hk in E. simpl in E. lia.
  - split; [reflexivity|]. split; [reflexivity|]. split; [reflexivity|].
    intros _. split; [reflexivity|]. split; [reflexivity|].
    rewrite handleUndo_nonempty by (simpl; apply snoc_nonempty).
    simpl. apply last_last.
Qed.

Lemma offset_always_records_witness :
  let a := sampleShape "a" ShapeType.line 0 0 3 4 in
  let st := initialApp [a] {[ "a"%string ]} in
  size (selectedShapeIds st) <> 0%nat
  /\ history (handleOffset ids0 st) = [[a]]
  /\ shapes (handleOffset ids0 st) = [a].
Proof.
  intros a st.
  assert (H : size (selectedShapeIds st) <> 0%nat).
  { change (size (selectedShapeIds st)) with 1%nat. discriminate. }
  split; [exact H|].
  destruct (offset_always_records ids0 st H) as (Hh & _ & _ & He).
  split; [exact Hh|].
  apply He. unfold selectedOf. simpl.
  rewrite has_true by set_solver. reflexivity.
Defined.

(** When the offset of a rectangle with finite corners is built, it is the
    one [offset_rect] describes. *)
Lemma offset_rect_built newId (d : R) (s ns : Shape) (a1 b1 a2 b2 : R) :
  type s = ShapeType.rect \/ type s = ShapeType.round_rect ->
  x1 s = Fin a1 -> y1 s = Fin b1 -> x2 s = Fin a2 -> y2 s = Fin b2 ->
  offsetShape newId (Fin d) s = Some ns ->
  (Rmin a1 a2 + d < Rmax a1 a2 - d /\ Rmin b1 b2 + d < Rmax b1 b2 - d)
  /\ type ns = type s
  /\ x1 ns = Fin (Rmin a1 a2 + d) /\ y1 ns = Fin (Rmin b1 b2 + d)
  /\ x2 ns = Fin (Rmax a1 a2 - d) /\ y2 ns = Fin (Rmax b1 b2 - d).
Proof.
  intros Ht E1 E2 E3 E4 Hns.
  destruct (offset_rect newId d s a1 b1 a2 b2 Ht E1 E2 E3 E4) as [P N].
  destruct (Rlt_dec (Rmin a1 a2 + d) (Rmax a1 a2 - d)) as [Hw|Hw];
    [|rewrite N in Hns by lra; discriminate].
  destruct (Rlt_dec (Rmin b1 b2 + d) (Rmax b1 b2 - d)) as [Hh|Hh];
    [|rewrite N in Hns by lra; discriminate].
  destruct P as (ns' & O & T & X1 & Y1 & X2 & Y2 & _); [split; lra|].
  rewrite O in Hns. inversion Hns. subst ns'.
  split; [split; assumption|]. auto 6.
Qed.

Lemma offsetShape_centre newId dist s ns :
  type s = ShapeType.circle \/ type s = ShapeType.ellipse ->
  offsetShape newId dist s = Some ns ->
  type ns = type s /\ x1 ns = x1 s /\ y1 ns = y1 s.
Proof.
  intros Ht. unfold offsetShape.
  destruct Ht as [Ht|Ht]; rewrite Ht; cbn [ShapeType.eqb orb];
    match goal with
    | |- context [if ?b then _ else _] => destruct b
    end; intros E; inversion E; auto.
Qed.

(** X16. Offsets nest.  When the offset by [d] of a [rect] or
    [round_rect] with finite corners is built, and then the offset by [e]
    of that copy, the first copy has the least corner of the original moved
    in by [d] and the greatest moved back by [d], and the second copy has
    these moved by [e] in turn; the copies bear the identifiers given and
    keep the type.  Two offsets of a [circle] or an [ellipse] keep its first
    anchor, the centre, as it is. *)
Theorem offset_twice_nests (i j : string) (d e : R) (s ns1 ns2 : Shape) :
  finiteAnchors s ->
  offsetShape i (Fin d) s = Some ns1 ->
  offsetShape j (Fin e) ns1 = Some ns2 ->
  (id ns1 = i /\ id ns2 = j)
  /\ (type s = ShapeType.rect \/ type s = ShapeType.round_rect ->
      let minX := Math.min (x1 s) (x2 s) in
      let maxX := Math.max (x1 s) (x2 s) in
      let minY := Math.min (y1 s) (y2 s) in
      let maxY := Math.max (y1 s) (y2 s) in
      type ns2 = type s
      /\ anchors ns1
         = (Js.add minX (Fin d), Js.add minY (Fin d),
            Js.sub maxX (Fin d), Js.sub maxY (Fin d))
      /\ anchors ns2
         = (Js.add (Js.add minX (Fin d)) (Fin e),
            Js.add (Js.add minY (Fin d)) (Fin e),
            Js.sub (Js.sub maxX (Fin d)) (Fin e),
            Js.sub (Js.sub maxY (Fin d)) (Fin e)))
  /\ (type s = ShapeType.circle \/ type s = ShapeType.ellipse ->
      type ns2 = type s /\ x1 ns2 = x1 s /\ y1 ns2 = y1 s).
Proof.
  intros ([a1 E1] & [b1 E2] & [a2 E3] & [b2 E4]) O1 O2.
  split; [split; eapply offsetShape_id; eassumption|].
  split.
  - intros Ht minX maxX minY maxY.
    destruct (offset_rect_built i d s ns1 a1 b1 a2 b2 Ht E1 E2 E3 E4 O1)
      as ((Hw & Hh) & T1 & X1 & Y1 & X2 & Y2).
    assert (Ht1 : type ns1 = ShapeType.rect \/ type ns1 = ShapeType.round_rect)
      by (rewrite T1; exact Ht).
    destruct (offset_rect_built j e ns1 ns2 _ _ _ _ Ht1 X1 Y1 X2 Y2 O2)
      as (_ & T2 & C1 & D1 & C2 & D2).
    rewrite (Rmin_left (Rmin a1 a2 + d)) in C1 by lra.
    rewrite (Rmin_left (Rmin b1 b2 + d)) in D1 by lra.
    rewrite (Rmax_right (Rmin a1 a2 + d)) in C2 by lra.
    rewrite (Rmax_right (Rmin b1 b2 + d)) in D2 by lra.
    split; [rewrite T2; exact T1|].
    unfold anchors, minX, maxX, minY, maxY.
    rewrite X1, Y1, X2, Y2, C1, D1, C2, D2, E1, E2, E3, E4.
    split; reflexivity.
  - intros Ht.
    destruct (offsetShape_centre i (Fin d) s ns1 Ht O1) as (T1 & X1 & Y1).
    assert (Ht1 : type ns1 = ShapeType.circle \/ type ns1 = ShapeType.ellipse)
      by (rewrite T1; exact Ht).
    destruct (offsetShape_centre j (Fin e) ns1 ns2 Ht1 O2) as (T2 & X2 & Y2).
    split; [congruence|]. split; congruence.
Qed.

Lemma offset_twice_nests_witness :
  let big := sampleShape "b" ShapeType.rect 0 0 10 10 in
  exists ns1 ns2 : Shape,
    (finiteAnchors big
     /\ offsetShape "i" (Fin 1) big = Some ns1
     /\ offsetShape "j" (Fin 2) ns1 = Some ns2)
    /\ id ns1 = "i"%string /\ id ns2 = "j"%string.
Proof.
  intros big.
  assert (Hm : Rmin 0 10 = 0) by (apply Rmin_left; lra).
  assert (HM : Rmax 0 10 = 10) by (apply Rmax_right; lra).
  assert (Hm' : Rmin (0 + 1) (10 - 1) = 0 + 1) by (apply Rmin_left; lra).
  assert (HM' : Rmax (0 + 1) (10 - 1) = 10 - 1) by (apply Rmax_right; lra).
  assert (Hf : finiteAnchors big)
    by (repeat split; eexists; reflexivity).
  assert (Ht : type big = ShapeType.rect \/ type big = ShapeType.round_rect)
    by (left; reflexivity).
  destruct (offset_rect "i" 1 big 0 0 10 10 Ht eq_refl eq_refl eq_refl
              eq_refl) as [P _].
  cbv zeta in P. rewrite Hm, HM in P.
  destruct P as (ns1 & O1 & T1 & X1 & Y1 & X2 & Y2 & _); [split; lra|].
  assert (Ht1 : type ns1 = ShapeType.rect \/ type ns1 = ShapeType.round_rect)
    by (rewrite T1; exact Ht).
  destruct (offset_rect "j" 2 ns1 _ _ _ _ Ht1 X1 Y1 X2 Y2) as [Q _].
  cbv zeta in Q. rewrite Hm', HM' in Q.
  destruct Q as (ns2 & O2 & _); [split; lra|].
  exists ns1, ns2.
  split; [split; [exact Hf|split; [exact O1|exact O2]]|].
  exact (proj1 (offset_twice_nests "i" "j" 1 2 big ns1 ns2 Hf O1 O2)).
Defined.

(** ** Edits of style, text and corner radius *)

Lemma setProperty_geometry p s : geometry (setProperty p s) = geometry s.
Proof. destruct p; reflexivity. Qed.

Lemma map_geometry_ext (f : Shape -> Shape) (l : list Shape) :
  (forall s, geometry (f s) = geometry s) ->
  map geometry (map f l) = map geometry l.
Proof. intros H. rewrite map_map. apply map_ext. exact H. Qed.

(** X17. Edits of style, text and corner radius leave every shape where
    it is.  [updateSelectedProperty], [handleTextChange] and
    [handleRadiusApply] keep the identifier, the type and every coordinate
    of every shape, in the same order.  A property update keeps the shapes
    that are not selected and, with an empty selection, sets the toolbar
    alone; a text change does nothing unless exactly one identifier is
    selected; a corner radius is applied to no shape when no shape is
    being edited. *)
Theorem style_edits_keep_geometry (p : Property) (newText : string)
    (radius : num) (st : App) (ui : Ui) :
  (map geometry (shapes (updateSelectedProperty p st))
   = map geometry (shapes st)
   /\ (forall s, In s (shapes st) -> id s ∉ selectedShapeIds st ->
         In s (shapes (updateSelectedProperty p st)))
   /\ (size (selectedShapeIds st) = 0%nat ->
       updateSelectedProperty p st
       = st |> setToolbar (setToolbarCell p (toolbar st))))
  /\ (map geometry (shapes (handleTextChange newText st))
      = map geometry (shapes st)
      /\ (size (selectedShapeIds st) <> 1%nat ->
          handleTextChange newText st = st))
  /\ (map geometry (shapes (app (handleRadiusApply radius ui)))
      = map geometry (shapes (app ui))
      /\ (editingShapeId ui = None -> handleRadiusApply radius ui = ui)).
Proof.
  split; [|split].
  - unfold updateSelectedProperty. simpl.
    destruct (Nat.ltb 0 (size (selectedShapeIds st))) eqn:E.
    + split; [|split].
      * simpl. apply map_geometry_ext. intros s.
        destruct (has _ _); [apply setProperty_geometry|reflexivity].
      * intros s Hs Hn. simpl. apply in_map_iff. exists s.
        rewrite has_false by exact Hn. auto.
      * intros H. rewrite H in E. discriminate.
    + split; [reflexivity|]. split; [intros s Hs _; exact Hs|reflexivity].
  - unfold handleTextChange.
    destruct (Nat.eqb (size (selectedShapeIds st)) 1) eqn:E.
    + split.
      * simpl. apply map_geometry_ext. intros s.
        destruct (has _ _); reflexivity.
      * intros H. apply Nat.eqb_eq in E. contradiction.
    + split; reflexivity.
  - unfold handleRadiusApply.
    destruct (editingShapeId ui) as [i|]; [|split; reflexivity].
    destruct (Nat.eqb (String.length i) 0).
    + split; [reflexivity|discriminate].
    + split; [|discriminate].
      simpl. apply map_geometry_ext. intros s.
      destruct (String.eqb _ _); reflexivity.
Qed.

(** ** Diameter of a circle *)




(** ** Keyboard *)

(** X19. The shortcuts.  A key pressed in an input field does nothing.
    Escape sets the mode to [pan], empties the selection and closes the
    corner-radius dialog, and leaves the collection and the undo stack.
    With Ctrl or Meta: z undoes, or redoes with Shift; y redoes; a selects
    all - in either case of the letter - while d, c and v duplicate, copy
    and paste in lower case only.  Without Ctrl or Meta these letters do
    nothing.  Delete and Backspace delete the selection unless it is empty
    or the dialog is open.  The arrow keys nudge a non-empty selection by
    0.1, or by 1 with Shift, and do nothing with an empty one. *)
Theorem keyboard_shortcuts (rnd : nat -> string) (ui : Ui)
    (meta ctrl shift : bool) :
  let hit := fun k => handleKeyDown rnd (press meta ctrl shift k) ui in
  (forall e, targetIsInput e = true -> handleKeyDown rnd e ui = ui)
  /\ (let ui' := hit "Escape"%string in
      mode (app ui') = pan /\ selectedShapeIds (app ui') = ∅
      /\ shapes (app ui') = shapes (app ui)
      /\ history (app ui') = history (app ui)
      /\ isRadiusModalOpen ui' = false)
  /\ (meta || ctrl = true ->
      (shift = false ->
       hit "z"%string = onApp handleUndo ui
       /\ hit "Z"%string = onApp handleUndo ui)
      /\ (shift = true ->
          hit "z"%string = onApp handleRedo ui
          /\ hit "Z"%string = onApp handleRedo ui)
      /\ (hit "y"%string = onApp handleRedo ui
          /\ hit "Y"%string = onApp handleRedo ui)
      /\ (hit "a"%string = onApp handleSelectAll ui
          /\ hit "A"%string = onApp handleSelectAll ui)
      /\ (hit "d"%string = onApp (handleDuplicate rnd) ui
          /\ hit "c"%string = onApp handleCopy ui
          /\ hit "v"%string = onApp (handlePaste rnd) ui)
      /\ (hit "D"%string = ui /\ hit "C"%string = ui /\ hit "V"%string = ui))
  /\ (meta || ctrl = false ->
      forall k, In k ["z"; "y"; "a"; "d"; "c"; "v"]%string -> hit k = ui)
  /\ (forall k, In k ["Delete"; "Backspace"]%string ->
      (size (selectedShapeIds (app ui)) <> 0%nat ->
       isRadiusModalOpen ui = false -> hit k = onApp handleDelete ui)
      /\ (isRadiusModalOpen ui = true -> hit k = ui)
      /\ (size (selectedShapeIds (app ui)) = 0%nat -> hit k = ui))
  /\ (let step := if shift then lit 1 else Fin (1 / 10) in
      (size (selectedShapeIds (app ui)) <> 0%nat ->
       hit "ArrowUp"%string = onApp (handleNudge (lit 0) step) ui
       /\ hit "ArrowDown"%string
          = onApp (handleNudge (lit 0) (Js.neg step)) ui
       /\ hit "ArrowLeft"%string
          = onApp (handleNudge (Js.neg step) (lit 0)) ui
       /\ hit "ArrowRight"%string = onApp (handleNudge step (lit 0)) ui)
      /\ (size (selectedShapeIds (app ui)) = 0%nat ->
          forall k, In k ["ArrowUp"; "ArrowDown"; "ArrowLeft"; "ArrowRight"]%string ->
                    hit k = ui)).
Proof.
  intros hit. unfold hit, press. clear hit.
  split; [|split; [|split; [|split; [|split]]]].
  - intros e H. unfold handleKeyDown. rewrite H. reflexivity.
  - unfold handleKeyDown, onApp, setIsRadiusModalOpen. simpl.
    destruct (isRadiusModalOpen ui); repeat split; reflexivity.
  - intros Hm.
    assert (Hsame : forall u : Ui,
              (if Nat.ltb 0 (size (selectedShapeIds (app ui))) then u else u)
              = u) by (intros; destruct (Nat.ltb _ _); reflexivity).
    unfold handleKeyDown. simpl.
    destruct meta, ctrl; try discriminate Hm; destruct shift; simpl;
      repeat split; try reflexivity;
      try match goal with H : true = false |- _ => discriminate H
                        | H : false = true |- _ => discriminate H end;
      apply Hsame.
  - intros Hm k Hk. unfold handleKeyDown. simpl. rewrite Hm.
    simpl in Hk.
    repeat (destruct Hk as [<-|Hk]; [simpl; destruct (Nat.ltb _ _); reflexivity|]).
    contradiction.
  - intros k Hk. simpl in Hk.
    assert (Hlt : size (selectedShapeIds (app ui)) <> 0%nat ->
                  Nat.ltb 0 (size (selectedShapeIds (app ui))) = true).
    { intros H. rewrite ltb_0_eqb_0. apply Nat.eqb_neq in H. rewrite H.
      reflexivity. }
    destruct Hk as [<-|[<-|[]]];
      (split; [|split]);
      try (intros Hs Ho; unfold handleKeyDown; simpl;
           rewrite (Hlt Hs), Ho; destruct meta, ctrl, shift; reflexivity);
      try (intros Ho; unfold handleKeyDown; simpl; rewrite Ho;
           destruct meta, ctrl, shift, (Nat.ltb _ _); reflexivity);
      try (intros Hs; unfold handleKeyDown; simpl; rewrite Hs;
           destruct meta, ctrl, shift; reflexivity).
  - cbv zeta. split.
    + intros Hs.
      assert (Hlt : Nat.ltb 0 (size (selectedShapeIds (app ui))) = true).
      { rewrite ltb_0_eqb_0. apply Nat.eqb_neq in Hs. rewrite Hs.
        reflexivity. }
      unfold handleKeyDown. simpl. rewrite Hlt.
      unfold NUDGE_LARGE, NUDGE_SMALL.
      repeat split; destruct meta, ctrl, shift; reflexivity.
    + intros Hs k Hk. simpl in Hk. unfold handleKeyDown. simpl. rewrite Hs.
      repeat (destruct Hk as [<-|Hk];
              [destruct meta, ctrl, shift; reflexivity|]).
      contradiction.
Qed.

(** An operation either leaves the collection and both stacks as they
    are, or pushes one step that an undo takes back. *)
Lemma perform_step rnd op st :
  let st' := perform rnd op st in
  (shapes st' = shapes st /\ history st' = history st
   /\ future st' = future st)
  \/ (history st' = history st ++ [shapes st]
      /\ shapes (handleUndo st') = shapes st).
Proof.
  intros st'. destruct (performed op st) eqn:E.
  - right. destruct (perform_pushes rnd op st E) as [Hh Hf].
    fold st' in Hh, Hf. split; [exact Hh|].
    rewrite handleUndo_nonempty by (rewrite Hh; apply snoc_nonempty).
    simpl. rewrite Hh, last_last. reflexivity.
  - left. unfold st'. destruct op; simpl in *; try discriminate.
    + unfold handleDuplicate. apply negb_false_iff in E. rewrite E. auto.
    + unfold handlePaste. destruct (clipboard st); [rewrite E|]; auto.
    + unfold handleLinearPattern.
      destruct (Nat.eqb (size (selectedShapeIds st)) 0); [auto|].
      simpl in E. apply negb_false_iff in E. rewrite E. auto.
    + unfold handleCircularPatternCenter.
      destruct (Nat.eqb (size (selectedShapeIds st)) 0); [auto|].
      simpl in E. apply negb_false_iff in E. rewrite E. auto.
    + unfold handleOffset. apply negb_false_iff in E. rewrite E. auto.
    + unfold handleNudge. apply negb_false_iff in E. rewrite E. auto.
    + unfold handleDelete. rewrite ltb_0_eqb_0, E. auto.
    + unfold updateSelectedProperty. simpl. rewrite ltb_0_eqb_0, E. auto.
Qed.

Ltac key_case k lit :=
  let E := fresh "E" in
  destruct (String.eqb k lit) eqn:E;
  [apply String.eqb_eq in E; subst k; simpl|].

(** X20. Whatever a key changes in the drawing, Ctrl+z brings back.  A
    key either leaves the collection and both stacks as they are, or is an
    undo, or is a redo, or pushes the collection it found on the undo
    stack, and then Ctrl+z gives that collection back. *)
Theorem keyboard_edits_undoable (rnd : nat -> string) (e : KeyboardEvent)
    (ui : Ui) :
  let ui' := handleKeyDown rnd e ui in
  (shapes (app ui') = shapes (app ui)
   /\ history (app ui') = history (app ui)
   /\ future (app ui') = future (app ui))
  \/ app ui' = handleUndo (app ui)
  \/ app ui' = handleRedo (app ui)
  \/ (history (app ui') = history (app ui) ++ [shapes (app ui)]
      /\ shapes (app (handleKeyDown rnd (press false true false "z") ui'))
         = shapes (app ui)).
Proof.
  intros ui'. unfold ui'.
  assert (Hop : forall op,
    let u := onApp (perform rnd op) ui in
    (shapes (app u) = shapes (app ui) /\ history (app u) = history (app ui)
     /\ future (app u) = future (app ui))
    \/ app u = handleUndo (app ui)
    \/ app u = handleRedo (app ui)
    \/ (history (app u) = history (app ui) ++ [shapes (app ui)]
        /\ shapes (app (handleKeyDown rnd (press false true false "z") u))
           = shapes (app ui))).
  { intros op u. destruct (perform_step rnd op (app ui)) as [H|H];
      [left; exact H|right; right; right; exact H]. }
  assert (Hsame : (shapes (app ui) = shapes (app ui)
                   /\ history (app ui) = history (app ui)
                   /\ future (app ui) = future (app ui))) by auto.
  destruct e as [inp m c sh k]. unfold handleKeyDown. simpl.
  destruct inp; [left; exact Hsame|].
  destruct (String.eqb k "Escape").
  { left. unfold onApp, setIsRadiusModalOpen. simpl.
    destruct (isRadiusModalOpen ui); auto. }
  match goal with |- context [if ?b then onApp handleUndo ui else _] =>
    destruct b end; [right; left; reflexivity|].
  match goal with |- context [if ?b then onApp handleRedo ui else _] =>
    destruct b end; [right; right; left; reflexivity|].
  match goal with |- context [if ?b then onApp handleSelectAll ui else _] =>
    destruct b end; [left; auto|].
  key_case k "d"%string.
  { destruct (m || c), (Nat.ltb _ _); simpl;
      first [left; exact Hsame | exact (Hop OpDuplicate)]. }
  key_case k "c"%string.
  { destruct (m || c), (Nat.ltb _ _); simpl;
      first [left; exact Hsame
            | left; unfold handleCopy; destruct (Nat.ltb _ _); auto]. }
  key_case k "v"%string.
  { destruct (m || c), (Nat.ltb _ _); simpl;
      first [left; exact Hsame | exact (Hop OpPaste)]. }
  rewrite !andb_false_r. simpl.
  key_case k "Delete"%string.
  { destruct (Nat.ltb _ _), (negb _); simpl;
      first [left; exact Hsame | exact (Hop OpDelete)]. }
  key_case k "Backspace"%string.
  { destruct (Nat.ltb _ _), (negb _); simpl;
      first [left; exact Hsame | exact (Hop OpDelete)]. }
  simpl.
  destruct (Nat.ltb _ _); [|left; exact Hsame].
  key_case k "ArrowUp"%string; [apply (Hop (OpNudge _ _))|].
  key_case k "ArrowDown"%string; [apply (Hop (OpNudge _ _))|].
  key_case k "ArrowLeft"%string; [apply (Hop (OpNudge _ _))|].
  key_case k "ArrowRight"%string; [apply (Hop (OpNudge _ _))|].
  left. exact Hsame.
Qed.

(** X21. An arrow key and the opposite arrow key are two steps that two
    undos take back.  With a non-empty selection, ArrowUp moves the
    selected shapes by the step upwards and ArrowRight by the step to the
    right, the step being 1 with Shift and 0.1 without; ArrowDown after
    ArrowUp moves what ArrowUp gave by the opposite of the step, and so
    does ArrowLeft after ArrowRight; the two presses push the collection
    found and the collection moved on the undo stack, and Ctrl+z twice
    gives the collection found. *)
Theorem arrow_keys_two_steps (rnd : nat -> string) (ui : Ui)
    (meta ctrl shift : bool) :
  size (selectedShapeIds (app ui)) <> 0%nat ->
  let hit := fun k u => handleKeyDown rnd (press meta ctrl shift k) u in
  let undo := handleKeyDown rnd (press false true false "z") in
  let step := if shift then lit 1 else Fin (1 / 10) in
  let sel := selectedShapeIds (app ui) in
  let found := shapes (app ui) in
  let up := nudged sel (lit 0) step found in
  let right := nudged sel step (lit 0) found in
  let upDown := hit "ArrowDown"%string (hit "ArrowUp"%string ui) in
  let rightLeft := hit "ArrowLeft"%string (hit "ArrowRight"%string ui) in
  (shapes (app (hit "ArrowUp"%string ui)) = up
   /\ shapes (app (hit "ArrowRight"%string ui)) = right)
  /\ (shapes (app upDown) = nudged sel (lit 0) (Js.neg step) up
      /\ shapes (app rightLeft) = nudged sel (Js.neg step) (lit 0) right)
  /\ (history (app upDown) = history (app ui) ++ [found; up]
      /\ history (app rightLeft) = history (app ui) ++ [found; right])
  /\ (shapes (app (undo (undo upDown))) = found
      /\ shapes (app (undo (undo rightLeft))) = found).
Proof.
  intros Hs hit undo step sel found up right upDown rightLeft.
  unfold upDown, rightLeft. clear upDown rightLeft.
  assert (Hlt : forall st, size (selectedShapeIds st) <> 0%nat ->
                  Nat.ltb 0 (size (selectedShapeIds st)) = true).
  { intros st H. rewrite ltb_0_eqb_0. apply Nat.eqb_neq in H. rewrite H.
    reflexivity. }
  assert (Hstep : (if shift then NUDGE_LARGE else NUDGE_SMALL) = step)
    by (unfold step; destruct shift; reflexivity).
  assert (Hkey : forall k dx dy u,
    size (selectedShapeIds (app u)) <> 0%nat ->
    (k = "ArrowUp" /\ dx = lit 0 /\ dy = step
     \/ k = "ArrowDown" /\ dx = lit 0 /\ dy = Js.neg step
     \/ k = "ArrowLeft" /\ dx = Js.neg step /\ dy = lit 0
     \/ k = "ArrowRight" /\ dx = step /\ dy = lit 0)%string ->
    hit k u = onApp (handleNudge dx dy) u).
  { intros k dx dy u Hu Hk. unfold hit, handleKeyDown, press. simpl.
    rewrite (Hlt _ Hu), Hstep.
    destruct Hk as [(-> & -> & ->)|[(-> & -> & ->)|[(-> & -> & ->)|(-> & -> & ->)]]];
      destruct meta, ctrl, shift; reflexivity. }
  assert (Hundo : forall u, app (undo u) = handleUndo (app u))
    by (intros u; reflexivity).
  assert (Htwo : forall dx dy dx' dy',
    let st2 := handleNudge dx' dy' (handleNudge dx dy (app ui)) in
    shapes (handleNudge dx dy (app ui)) = nudged sel dx dy found
    /\ shapes st2 = nudged sel dx' dy' (nudged sel dx dy found)
    /\ history st2 = history (app ui) ++ [found; nudged sel dx dy found]
    /\ shapes (handleUndo (handleUndo st2)) = found).
  { intros dx dy dx' dy' st2.
    assert (E1 : handleNudge dx dy (app ui)
                 = saveHistory (app ui)
                     |> setShapes (nudged sel dx dy found))
      by (apply handleNudge_state; exact Hs).
    assert (E2 : st2 = saveHistory (handleNudge dx dy (app ui))
                         |> setShapes
                              (nudged (selectedShapeIds
                                         (handleNudge dx dy (app ui)))
                                      dx' dy'
                                      (shapes (handleNudge dx dy (app ui)))))
      by (apply handleNudge_state; rewrite E1; exact Hs).
    rewrite E1 in E2. cbn [shapes setShapes saveHistory setHistory setFuture
      selectedShapeIds history] in E2.
    fold sel found in E2.
    split; [rewrite E1; reflexivity|].
    split; [rewrite E2; reflexivity|].
    assert (Hh : history st2
                 = (history (app ui) ++ [found]) ++ [nudged sel dx dy found])
      by (rewrite E2; reflexivity).
    split; [rewrite Hh, <- app_assoc; reflexivity|].
    assert (Hu1 : history (handleUndo st2) = history (app ui) ++ [found]).
    { rewrite handleUndo_nonempty by (rewrite Hh; apply snoc_nonempty).
      cbn [history setHistory setFuture setShapes setSelectedShapeIds].
      rewrite Hh. apply removelast_last. }
    rewrite (handleUndo_nonempty (handleUndo st2))
      by (rewrite Hu1; apply snoc_nonempty).
    cbn [shapes setHistory setFuture setShapes setSelectedShapeIds].
    rewrite Hu1. apply last_last. }
  assert (Hsel : forall dx dy,
    size (selectedShapeIds (app (onApp (handleNudge dx dy) ui))) <> 0%nat).
  { intros dx dy. simpl. rewrite handleNudge_state by exact Hs. exact Hs. }
  assert (HU : hit "ArrowDown"%string (hit "ArrowUp"%string ui)
               = onApp (handleNudge (lit 0) (Js.neg step))
                       (onApp (handleNudge (lit 0) step) ui)).
  { rewrite (Hkey "ArrowUp"%string (lit 0) step ui Hs) by auto.
    apply Hkey; [apply Hsel|auto]. }
  assert (HR : hit "ArrowLeft"%string (hit "ArrowRight"%string ui)
               = onApp (handleNudge (Js.neg step) (lit 0))
                       (onApp (handleNudge step (lit 0)) ui)).
  { rewrite (Hkey "ArrowRight"%string step (lit 0) ui Hs) by auto 6.
    apply Hkey; [apply Hsel|auto 6]. }
  destruct (Htwo (lit 0) step (lit 0) (Js.neg step)) as (U1 & U2 & U3 & U4).
  destruct (Htwo step (lit 0) (Js.neg step) (lit 0)) as (R1 & R2 & R3 & R4).
  split.
  { split.
    - rewrite (Hkey "ArrowUp"%string (lit 0) step ui Hs) by auto. exact U1.
    - rewrite (Hkey "ArrowRight"%string step (lit 0) ui Hs) by auto 6.
      exact R1. }
  split; [rewrite HU, HR; split; [exact U2|exact R2]|].
  split; [rewrite HU, HR; split; [exact U3|exact R3]|].
  rewrite !Hundo, HU, HR. split; [exact U4|exact R4].
Qed.

Lemma arrow_keys_two_steps_witness :
  size (selectedShapeIds (app (uiOf lineApp))) <> 0%nat
  /\ shapes (app (handleKeyDown ids0 (press false true false "z")
                    (handleKeyDown ids0 (press false true false "z")
                      (handleKeyDown ids0
                         (press false false false "ArrowDown")
                         (handleKeyDown ids0
                            (press false false false "ArrowUp")
                            (uiOf lineApp))))))
     = shapes (app (uiOf lineApp)).
Proof.
  assert (H : size (selectedShapeIds (app (uiOf lineApp))) <> 0%nat)
    by exact lineApp_size.
  split; [exact H|].
  destruct (arrow_keys_two_steps ids0 (uiOf lineApp) false false false H)
    as (_ & _ & _ & Hu & _).
  exact Hu.
Defined.

(** ** Which controls show *)

Lemma modeIs_not_pan m ty : modeIs m ty = true -> m <> pan.
Proof. destruct m; simpl; congruence. Qed.

(** The arrow and the fill controls show only while the group of
    controls is active. *)
Lemma shown_controls_are_active (st : App) :
  (showArrowControls st = true -> controlsActive st = true)
  /\ (showFillControls st = true -> controlsActive st = true)
  /\ (mode st = pan -> size (selectedShapeIds st) = 0%nat ->
      showArrowControls st = false /\ showFillControls st = false
      /\ controlsActive st = false)
  /\ (showArrowControls st = true -> mode st = pan ->
      exists s, In s (shapes st) /\ id s ∈ selectedShapeIds st
                /\ In (type s) [ShapeType.line; ShapeType.arc;
                                ShapeType.bezier; ShapeType.measure_radius]).
Proof.
  assert (Hact : mode st <> pan \/ size (selectedShapeIds st) <> 0%nat ->
                 controlsActive st = true).
  { intros [H|H]; unfold controlsActive.
    - destruct (mode st); try reflexivity. congruence.
    - rewrite ltb_0_eqb_0. apply Nat.eqb_neq in H. rewrite H.
      apply orb_true_r. }
  split; [|split; [|split]].
  - unfold showArrowControls. intros H. apply Hact.
    destruct (modeIs (mode st) ShapeType.line) eqn:E1;
      [left; exact (modeIs_not_pan _ _ E1)|].
    destruct (modeIs (mode st) ShapeType.arc) eqn:E2;
      [left; exact (modeIs_not_pan _ _ E2)|].
    destruct (modeIs (mode st) ShapeType.bezier) eqn:E3;
      [left; exact (modeIs_not_pan _ _ E3)|].
    destruct (modeIs (mode st) ShapeType.measure_radius) eqn:E4;
      [left; exact (modeIs_not_pan _ _ E4)|].
    simpl in H. right.
    destruct (Nat.eqb (size (selectedShapeIds st)) 0) eqn:E; [discriminate|].
    apply Nat.eqb_neq. exact E.
  - unfold showFillControls. intros H. apply Hact.
    destruct (existsb (modeIs (mode st)) fillable) eqn:E1.
    + left. apply existsb_exists in E1 as (ty & _ & Hty).
      exact (modeIs_not_pan _ _ Hty).
    + right.
      destruct (Nat.eqb (size (selectedShapeIds st)) 0) eqn:E; [discriminate|].
      apply Nat.eqb_neq. exact E.
  - intros Hm Hs. unfold showArrowControls, showFillControls, controlsActive.
    rewrite Hm, Hs. auto.
  - intros H Hm. unfold showArrowControls in H. rewrite Hm in H. simpl in H.
    destruct (Nat.eqb _ _); [discriminate|].
    apply existsb_exists in H as (s & Hs & Hc).
    apply andb_true_iff in Hc as [Hsel Hty].
    exists s. split; [exact Hs|]. split; [apply has_spec; exact Hsel|].
    destruct (type s); simpl in Hty; try discriminate; simpl; auto.
Qed.

(** ** Grid and screen coordinates *)

Lemma eq_Fin_false (x y : R) : x <> y -> Js.eq (Fin x) (Fin y) = false.
Proof.
  intros H. destruct (Js.eq (Fin x) (Fin y)) eqn:E; [|reflexivity].
  apply eq_Fin in E. contradiction.
Qed.

(** Before the canvas is laid out, every screen point is the origin. *)
Lemma screenToGrid_unmounted (v : Canvas.View) (sx sy : num) :
  Canvas.container v = None \/ Canvas.width v = lit 0 ->
  Canvas.screenToGrid v sx sy = mkPoint (lit 0) (lit 0).
Proof.
  intros [H|H]; unfold Canvas.screenToGrid; rewrite H; [reflexivity|].
  destruct (Canvas.container v); [|reflexivity].
  unfold lit. rewrite (proj2 (eq_Fin _ _) eq_refl). reflexivity.
Qed.

(** X22. Which way the screen goes.  For a view with finite numbers and
    a positive scale, a greater ordinate of the grid is higher on the
    screen; the origin of the grid is at the middle of the canvas, moved by
    the pan offset.  While the container is not mounted or has the width 0,
    whatever the view, every screen position goes to the origin of the
    grid. *)
Theorem grid_screen_orientation (k ox oy w h l t : R) :
  let v := finiteView k ox oy w h l t in
  (forall gx gy gy' : R, 0 < k -> gy < gy' ->
     Rval (p_y (Canvas.gridToScreen v (Fin gx) (Fin gy')))
     < Rval (p_y (Canvas.gridToScreen v (Fin gx) (Fin gy))))
  /\ Canvas.gridToScreen v (Fin 0) (Fin 0)
     = mkPoint (Fin (w / 2 + ox)) (Fin (h / 2 + oy))
  /\ (forall (v0 : Canvas.View) (sx sy : num),
        Canvas.container v0 = None \/ Canvas.width v0 = lit 0 ->
        Canvas.screenToGrid v0 sx sy = mkPoint (lit 0) (lit 0)).
Proof.
  intros v.
  split; [|split]; [| |exact screenToGrid_unmounted].
  - intros gx gy gy' Hpos Hlt. unfold v, finiteView, Canvas.gridToScreen.
    cbn [Canvas.container Canvas.width Canvas.height Canvas.scale
         Canvas.offset p_x p_y].
    unfold lit. autorewrite with js. simpl. nra.
  - unfold v, finiteView, Canvas.gridToScreen.
    cbn [Canvas.container Canvas.width Canvas.height Canvas.scale
         Canvas.offset p_x p_y].
    unfold lit. autorewrite with js. f_equal; apply Fin_eq; lra.
Qed.

(** ** Snapping *)

(** X23. Snapping lands on the half grid, close by, and stays there: with
    snapping on, a finite coordinate goes to a multiple of 0.5 at most
    0.25 away, and snapping the result changes nothing; with snapping off
    every value is returned as it is. *)
Theorem snap_to_half_grid (x : R) :
  exists r : R,
    Canvas.snap true (Fin x) = Fin r
    /\ (exists z : Z, r = IZR z / 2)
    /\ Rabs (r - x) <= 1 / 4
    /\ Canvas.snap true (Fin r) = Fin r
    /\ (forall v, Canvas.snap false v = v).
Proof.
  exists (Math.Rround (x * 2) / 2).
  assert (Hs : forall y, Canvas.snap true (Fin y) = Fin (Math.Rround (y * 2) / 2)).
  { intros y. unfold Canvas.snap. simpl negb. cbv iota. unfold lit.
    rewrite mul_Fin, round_Fin, div_lit2. reflexivity. }
  split; [apply Hs|]. split; [|split; [|split]].
  - exists (Zfloor (x * 2 + / 2)). reflexivity.
  - unfold Math.Rround.
    pose proof (Zfloor_bound (x * 2 + / 2)) as [Hlo Hhi].
    apply Rabs_le. split; lra.
  - rewrite Hs. apply Fin_eq. f_equal.
    unfold Math.Rround at 1.
    replace (IZR (Zfloor (x * 2 + / 2)) / 2 * 2 + / 2)
      with (IZR (Zfloor (x * 2 + / 2)) + / 2) by field.
    unfold Math.Rround. f_equal. apply Zfloor_eq. lra.
  - reflexivity.
Qed.

(** ** Hit testing *)

Lemma Canvas_dist_Fin (x y u v : R) :
  Canvas.dist (pt x y) (pt u v) = Fin (dist x y u v).
Proof.
  unfold Canvas.dist, pt, dist. cbn [p_x p_y].
  rewrite !sub_Fin, !pow2_Fin, add_Fin, sqrt_Fin by apply sum_sqr_nonneg.
  reflexivity.
Qed.

Lemma dist_sqr (x y u v : R) :
  dist x y u v * dist x y u v = (x - u) * (x - u) + (y - v) * (y - v).
Proof. unfold dist. apply sqrt_sqrt. apply sum_sqr_nonneg. Qed.

Lemma dist_le (x y u v x' y' u' v' : R) :
  (x - u) * (x - u) + (y - v) * (y - v)
  <= (x' - u') * (x' - u') + (y' - v') * (y' - v') ->
  dist x y u v <= dist x' y' u' v'.
Proof. intros H. unfold dist. apply sqrt_le_1_alt. exact H. Qed.

Lemma clamp_cases (t : R) :
  let c := Rmax 0 (Rmin 1 t) in
  (c = t /\ 0 <= t <= 1) \/ (c = 0 /\ t <= 0) \/ (c = 1 /\ 1 <= t).
Proof.
  simpl. unfold Rmax, Rmin.
  destruct (Rle_dec 1 t); destruct (Rle_dec 0 1); try lra;
    destruct (Rle_dec 0 t); lra.
Qed.

(** The clamped parameter is the best one on the segment. *)
Lemma clamp_is_closest (ux uy ex ey s : R) :
  0 < ex * ex + ey * ey -> 0 <= s <= 1 ->
  let t := Rmax 0 (Rmin 1 ((ux * ex + uy * ey) / (ex * ex + ey * ey))) in
  (ux - t * ex) * (ux - t * ex) + (uy - t * ey) * (uy - t * ey)
  <= (ux - s * ex) * (ux - s * ex) + (uy - s * ey) * (uy - s * ey).
Proof.
  intros Hl Hs t.
  set (l2 := ex * ex + ey * ey) in *.
  set (q := (ux * ex + uy * ey) / l2) in *.
  assert (Hq : ux * ex + uy * ey = q * l2)
    by (unfold q, l2 in *; field; lra).
  assert (Hd : (ux - s * ex) * (ux - s * ex) + (uy - s * ey) * (uy - s * ey)
               - ((ux - t * ex) * (ux - t * ex) + (uy - t * ey) * (uy - t * ey))
               = l2 * (s - t) * (s + t - 2 * q)).
  { replace ((ux - s * ex) * (ux - s * ex) + (uy - s * ey) * (uy - s * ey)
             - ((ux - t * ex) * (ux - t * ex)
                + (uy - t * ey) * (uy - t * ey)))
      with (-2 * (s - t) * (ux * ex + uy * ey)
            + (s * s - t * t) * (ex * ex + ey * ey)) by ring.
    rewrite Hq. unfold l2. ring. }
  assert (Hnn : 0 <= l2 * (s - t) * (s + t - 2 * q)).
  { destruct (clamp_cases q) as [[E H]|[[E H]|[E H]]]; fold t in E;
      rewrite E.
    - replace (l2 * (s - q) * (s + q - 2 * q)) with (l2 * ((s - q) * (s - q)))
        by ring.
      apply Rmult_le_pos; [lra|]. apply Rle_0_sqr.
    - replace (l2 * (s - 0) * (s + 0 - 2 * q)) with (l2 * (s * (s - 2 * q)))
        by ring.
      apply Rmult_le_pos; [lra|]. apply Rmult_le_pos; lra.
    - replace (l2 * (s - 1) * (s + 1 - 2 * q))
        with (l2 * ((1 - s) * (2 * q - s - 1))) by ring.
      apply Rmult_le_pos; [lra|]. apply Rmult_le_pos; lra. }
  lra.
Qed.

Lemma distToSegment_Fin (px py vx vy wx wy : R) :
  vx <> wx \/ vy <> wy ->
  let t := Rmax 0 (Rmin 1 (((px - vx) * (wx - vx) + (py - vy) * (wy - vy))
                           / ((vx - wx) * (vx - wx) + (vy - wy) * (vy - wy)))) in
  Canvas.distToSegment (pt px py) (pt vx vy) (pt wx wy)
  = Fin (dist px py (fst (along vx vy wx wy t)) (snd (along vx vy wx wy t))).
Proof.
  intros Hne t.
  assert (Hpos : 0 < (vx - wx) * (vx - wx) + (vy - wy) * (vy - wy)).
  { pose proof (line_length_pos vx vy wx wy Hne) as H.
    replace ((vx - wx) * (vx - wx) + (vy - wy) * (vy - wy))
      with ((wx - vx) * (wx - vx) + (wy - vy) * (wy - vy)) by ring.
    exact H. }
  unfold Canvas.distToSegment. rewrite Canvas_dist_Fin, pow2_Fin, dist_sqr.
  unfold lit. rewrite eq_Fin_false by lra.
  unfold pt. cbn [p_x p_y].
  rewrite !sub_Fin, !mul_Fin, add_Fin, div_Fin by lra.
  rewrite min_Fin, max_Fin. fold t.
  rewrite !mul_Fin, !add_Fin.
  apply (Canvas_dist_Fin px py).
Qed.

(** X24. [distToSegment] is the distance to the nearest point of the
    segment: for finite points the result is finite and not negative, it
    is the distance from [p] to some point of the segment from [v] to [w],
    and no point of the segment is nearer; when [v] and [w] are the same
    point it is the distance to that point. *)
Theorem distToSegment_nearest (px py vx vy wx wy : R) :
  exists d : R,
    Canvas.distToSegment (pt px py) (pt vx vy) (pt wx wy) = Fin d
    /\ 0 <= d
    /\ (exists s, 0 <= s <= 1
          /\ d = dist px py (fst (along vx vy wx wy s))
                            (snd (along vx vy wx wy s)))
    /\ (forall s, 0 <= s <= 1 ->
          d <= dist px py (fst (along vx vy wx wy s))
                          (snd (along vx vy wx wy s)))
    /\ (vx = wx -> vy = wy -> d = dist px py vx vy).
Proof.
  destruct (Req_dec_T vx wx) as [Ex|Nx];
    [destruct (Req_dec_T vy wy) as [Ey|Ny]|].
  - subst wx wy. exists (dist px py vx vy).
    assert (E : Canvas.distToSegment (pt px py) (pt vx vy) (pt vx vy)
                = Fin (dist px py vx vy)).
    { unfold Canvas.distToSegment.
      rewrite (Canvas_dist_Fin vx vy vx vy), pow2_Fin, dist_sqr.
      replace ((vx - vx) * (vx - vx) + (vy - vy) * (vy - vy)) with 0 by ring.
      unfold lit. rewrite (proj2 (eq_Fin 0 0) eq_refl).
      apply Canvas_dist_Fin. }
    split; [exact E|]. split; [apply sqrt_pos|].
    split; [|split; [|reflexivity]].
    + exists 0. split; [lra|]. unfold along. simpl.
      f_equal; lra.
    + intros s _. unfold along. simpl. apply dist_le. nra.
  - assert (Hne : vx <> wx \/ vy <> wy) by (right; exact Ny).
    pose proof (distToSegment_Fin px py vx vy wx wy Hne) as E.
    cbv zeta in E. eexists. split; [exact E|].
    split; [apply sqrt_pos|]. split; [|split; [|intros; contradiction]].
    + eexists. split; [|reflexivity].
      match goal with |- 0 <= Rmax 0 (Rmin 1 ?q) <= 1 =>
        destruct (clamp_cases q) as [[-> H]|[[-> H]|[-> H]]]; lra end.
    + intros s Hs. apply dist_le. unfold along. simpl.
      pose proof (line_length_pos vx vy wx wy Hne) as Hpos.
      pose proof (clamp_is_closest (px - vx) (py - vy) (wx - vx) (wy - vy)
                    s Hpos Hs) as Hc.
      cbv zeta in Hc.
      replace ((vx - wx) * (vx - wx) + (vy - wy) * (vy - wy))
        with ((wx - vx) * (wx - vx) + (wy - vy) * (wy - vy)) by ring.
      nra.
  - assert (Hne : vx <> wx \/ vy <> wy) by (left; exact Nx).
    pose proof (distToSegment_Fin px py vx vy wx wy Hne) as E.
    cbv zeta in E. eexists. split; [exact E|].
    split; [apply sqrt_pos|]. split; [|split; [|intros; contradiction]].
    + eexists. split; [|reflexivity].
      match goal with |- 0 <= Rmax 0 (Rmin 1 ?q) <= 1 =>
        destruct (clamp_cases q) as [[-> H]|[[-> H]|[-> H]]]; lra end.
    + intros s Hs. apply dist_le. unfold along. simpl.
      pose proof (line_length_pos vx vy wx wy Hne) as Hpos.
      pose proof (clamp_is_closest (px - vx) (py - vy) (wx - vx) (wy - vy)
                    s Hpos Hs) as Hc.
      cbv zeta in Hc.
      replace ((vx - wx) * (vx - wx) + (vy - wy) * (vy - wy))
        with ((wx - vx) * (wx - vx) + (wy - vy) * (wy - vy)) by ring.
      nra.
Qed.

Lemma ge_Fin_true (x y : R) : y <= x -> Js.ge (Fin x) (Fin y) = true.
Proof. intros H. apply ge_Fin. exact H. Qed.

(** X25. A point is in a rectangle whichever corners span it.  For
    finite arguments [isPointInRect] holds exactly when the point lies
    between the least and the greatest of the two abscissas and of the two
    ordinates, the border included; exchanging the two corners changes
    nothing; the corners themselves pass; a NaN coordinate of the point
    never passes. *)
Theorem point_in_rect_any_corners (px py xa ya xb yb : R) :
  (Canvas.isPointInRect (Fin px) (Fin py) (Fin xa) (Fin ya) (Fin xb) (Fin yb)
   = true
   <-> Rmin xa xb <= px <= Rmax xa xb /\ Rmin ya yb <= py <= Rmax ya yb)
  /\ Canvas.isPointInRect (Fin px) (Fin py) (Fin xa) (Fin ya) (Fin xb) (Fin yb)
     = Canvas.isPointInRect (Fin px) (Fin py) (Fin xb) (Fin yb)
                            (Fin xa) (Fin ya)
  /\ Canvas.isPointInRect (Fin xa) (Fin ya) (Fin xa) (Fin ya) (Fin xb) (Fin yb)
     = true
  /\ Canvas.isPointInRect (Fin xb) (Fin ya) (Fin xa) (Fin ya) (Fin xb) (Fin yb)
     = true
  /\ (forall a b c d e : num,
        Canvas.isPointInRect NaN a b c d e = false
        /\ Canvas.isPointInRect a NaN b c d e = false).
Proof.
  assert (Hiff : forall px py xa ya xb yb,
    Canvas.isPointInRect (Fin px) (Fin py) (Fin xa) (Fin ya) (Fin xb) (Fin yb)
    = true
    <-> Rmin xa xb <= px <= Rmax xa xb /\ Rmin ya yb <= py <= Rmax ya yb).
  { clear. intros. unfold Canvas.isPointInRect, Js_le.
    rewrite !min_Fin, !max_Fin, !andb_true_iff, !ge_Fin. tauto. }
  split; [apply Hiff|]. split; [|split; [|split]].
  - destruct (Canvas.isPointInRect (Fin px) (Fin py) (Fin xa) (Fin ya)
                                   (Fin xb) (Fin yb)) eqn:E1;
    destruct (Canvas.isPointInRect (Fin px) (Fin py) (Fin xb) (Fin yb)
                                   (Fin xa) (Fin ya)) eqn:E2;
      try reflexivity; exfalso.
    + apply Hiff in E1. apply not_true_iff_false in E2. apply E2, Hiff.
      rewrite (Rmin_comm xb), (Rmax_comm xb), (Rmin_comm yb), (Rmax_comm yb).
      exact E1.
    + apply Hiff in E2. apply not_true_iff_false in E1. apply E1, Hiff.
      rewrite (Rmin_comm xa), (Rmax_comm xa), (Rmin_comm ya), (Rmax_comm ya).
      exact E2.
  - apply Hiff.
    pose proof (Rmin_l xa xb). pose proof (Rmax_l xa xb).
    pose proof (Rmin_l ya yb). pose proof (Rmax_l ya yb). lra.
  - apply Hiff.
    pose proof (Rmin_r xa xb). pose proof (Rmax_r xa xb).
    pose proof (Rmin_l ya yb). pose proof (Rmax_l ya yb). lra.
  - intros a b c d e. unfold Canvas.isPointInRect, Js_le. split.
    + destruct (Math.min b d); reflexivity.
    + destruct (Js.ge a (Math.min b d)), (Js.ge (Math.max b d) a),
               (Math.min c e); reflexivity.
Qed.

(** ** Zoom *)

Lemma zoomStep_range v ev :
  finiteWheel ev -> scaleInRange v -> scaleInRange (zoomStep v ev).
Proof.
  intros Hf (k & E & Hk). unfold scaleInRange.
  destruct ev as [| | |d]; simpl; unfold ZoomControls.zoomIn,
    ZoomControls.zoomOut, lit; rewrite ?E.
  - rewrite mul_Fin, min_Fin. eexists. split; [reflexivity|].
    unfold Rmin. destruct (Rle_dec _ _); lra.
  - rewrite div_Fin by lra. rewrite max_Fin. eexists. split; [reflexivity|].
    unfold Rmax. destruct (Rle_dec _ _); lra.
  - exists 30. split; [reflexivity|lra].
  - destruct Hf as [y ->]. unfold lit.
    rewrite neg_Fin, mul_Fin. unfold Math_exp.
    rewrite mul_Fin, min_Fin, max_Fin. eexists. split; [reflexivity|].
    unfold Rmax, Rmin.
    repeat destruct (Rle_dec _ _); lra.
Qed.

(** X26. The zoom stays between 5 and 500.  From a scale in that range,
    any sequence of zoom in, zoom out, reset and (finite) wheel events
    gives a scale in that range; reset gives the scale 30. *)
Theorem zoom_stays_in_range (evs : list ZoomEvent) (v : Canvas.View) :
  Forall finiteWheel evs -> scaleInRange v ->
  scaleInRange (fold_left zoomStep evs v)
  /\ Canvas.scale (zoomStep v ResetView) = Fin 30.
Proof.
  intros Hf Hv. split.
  - revert v Hv. induction evs as [|ev evs IH]; intros v Hv; simpl; [exact Hv|].
    apply List.Forall_cons_iff in Hf as [H1 H2].
    apply IH; [exact H2|]. apply zoomStep_range; assumption.
  - reflexivity.
Qed.

Lemma zoom_stays_in_range_witness :
  let v := finiteView 30 0 0 800 600 0 0 in
  let evs := [ZoomIn; Wheel (Fin 100); ZoomOut; ResetView] in
  (Forall finiteWheel evs /\ scaleInRange v)
  /\ scaleInRange (fold_left zoomStep evs v).
Proof.
  intros v evs.
  assert (H1 : Forall finiteWheel evs).
  { unfold evs. constructor; [exact I|]. constructor; [exists 100; reflexivity|].
    constructor; [exact I|]. constructor; [exact I|constructor]. }
  assert (H2 : scaleInRange v) by (exists 30; split; [reflexivity|lra]).
  split; [split; assumption|].
  exact (proj1 (zoom_stays_in_range evs v H1 H2)).
Defined.

(** ** Dragging *)

Lemma dragShape_id h dx dy s : id (Canvas.dragShape h dx dy s) = id s.
Proof.
  destruct s as [i ty xa ya xb yb o1 o2 o3 o4 ps tx ty' ? ? ? ? ? ? ? ? ? ? ? ?].
  unfold Canvas.dragShape, when. cbn.
  destruct ps;
    repeat match goal with
           | |- context [if ?b then _ else _] => destruct b
           end; reflexivity.
Qed.

Lemma findById_map (f : Shape -> Shape) (l : list Shape) (i : string) :
  (forall s, id (f s) = id s) ->
  findById (map f l) i = f <$> findById l i.
Proof.
  intros Hid. unfold findById.
  induction l as [|s l IH]; simpl; [reflexivity|].
  rewrite Hid. destruct (String.eqb (id s) i); [reflexivity|exact IH].
Qed.

(** X27. While dragging, the shapes follow the last position of the
    cursor alone: the update of a mouse move is computed from the shapes
    as they were when the drag began, so two moves in a row give the
    collection of the second move alone; identifiers and order stay, and a
    shape that is not among the dragged ones is not touched. *)
Theorem drag_follows_last_move (h : HandleType.t) (taken : list Shape)
    (dx1 dy1 dx2 dy2 : num) (st : App) :
  let move := fun dx dy =>
    handleShapesUpdate (map (Canvas.dragShape h dx dy) taken) in
  shapes (move dx2 dy2 (move dx1 dy1 st)) = shapes (move dx2 dy2 st)
  /\ id <$> shapes (move dx1 dy1 st) = id <$> shapes st
  /\ (forall (j : nat) (s : Shape), shapes st !! j = Some s ->
        (forall x, In x taken -> id x <> id s) ->
        shapes (move dx1 dy1 st) !! j = Some s).
Proof.
  intros move. unfold move, handleShapesUpdate. simpl.
  split; [|split].
  - rewrite map_map. apply map_ext. intros s.
    rewrite !findById_map by apply dragShape_id.
    destruct (findById taken (id s)) as [x|] eqn:E; simpl.
    + rewrite dragShape_id.
      destruct (findById_id _ _ _ E) as [Ei _]. rewrite Ei, E. reflexivity.
    + rewrite E. reflexivity.
  - rewrite <- list_fmap_compose. apply list_fmap_ext. intros j s _. simpl.
    rewrite findById_map by apply dragShape_id.
    destruct (findById taken (id s)) as [x|] eqn:E; simpl; [|reflexivity].
    rewrite dragShape_id. apply findById_id in E as [E _]. exact E.
  - intros j s Hj Hno. rewrite list_lookup_fmap, Hj. simpl.
    rewrite findById_map by apply dragShape_id.
    rewrite (proj2 (findById_None taken (id s)) Hno). reflexivity.
Qed.

Lemma le_Fin_true (x y : R) : x <= y -> Js_le (Fin x) (Fin y) = true.
Proof. intros H. unfold Js_le. apply ge_Fin. exact H. Qed.

Lemma le_Fin_false (x y : R) : y < x -> Js_le (Fin x) (Fin y) = false.
Proof.
  intros H. unfold Js_le. destruct (Js.ge (Fin y) (Fin x)) eqn:E; [|reflexivity].
  apply ge_Fin in E. lra.
Qed.

(** X28. What each handle of a box-based shape with finite anchors moves,
    for a displacement [(dx, dy)] of the cursor.  The east handle moves
    the greater and the west handle the lesser abscissa by [dx]; the south
    handle moves the lesser ordinate by [dy]; the north handle moves the
    greater ordinate by [dy] twice over, as its statement is there twice;
    the move handle moves all four by [(dx, dy)]. *)
Theorem drag_box_handles (dx dy : R) (s : Shape) (a1 b1 a2 b2 : R) :
  Canvas.isBoxShape (type s) = true ->
  x1 s = Fin a1 -> y1 s = Fin b1 -> x2 s = Fin a2 -> y2 s = Fin b2 ->
  let drag := fun h => anchors (Canvas.dragShape h (Fin dx) (Fin dy) s) in
  (a1 <= a2 ->
   drag HandleType.e = (Fin a1, Fin b1, Fin (a2 + dx), Fin b2)
   /\ drag HandleType.w = (Fin (a1 + dx), Fin b1, Fin a2, Fin b2))
  /\ (a2 < a1 ->
      drag HandleType.e = (Fin (a1 + dx), Fin b1, Fin a2, Fin b2)
      /\ drag HandleType.w = (Fin a1, Fin b1, Fin (a2 + dx), Fin b2))
  /\ (b1 <= b2 ->
      drag HandleType.s = (Fin a1, Fin (b1 + dy), Fin a2, Fin b2)
      /\ drag HandleType.n = (Fin a1, Fin b1, Fin a2, Fin (b2 + dy + dy)))
  /\ (b2 < b1 ->
      drag HandleType.s = (Fin a1, Fin b1, Fin a2, Fin (b2 + dy))
      /\ drag HandleType.n = (Fin a1, Fin (b1 + dy + dy), Fin a2, Fin b2))
  /\ drag HandleType.move
     = (Fin (a1 + dx), Fin (b1 + dy), Fin (a2 + dx), Fin (b2 + dy)).
Proof.
  intros Hbox E1 E2 E3 E4 drag. unfold drag, anchors.
  destruct s as [i ty xa ya xb yb o1 o2 o3 o4 ps tx ty' ? ? ? ? ? ? ? ? ? ? ? ?].
  cbn [x1 y1 x2 y2 type] in *. subst xa ya xb yb.
  split; [|split; [|split; [|split]]].
  - intros H. unfold Canvas.dragShape. cbn [type x1 y1 x2 y2].
    rewrite Hbox, (le_Fin_true a1 a2 H). simpl.
    destruct (Js_le (Fin b1) (Fin b2)); simpl; rewrite !add_Fin; auto.
  - intros H. unfold Canvas.dragShape. cbn [type x1 y1 x2 y2].
    rewrite Hbox, (le_Fin_false a1 a2 H). simpl.
    destruct (Js_le (Fin b1) (Fin b2)); simpl; rewrite !add_Fin; auto.
  - intros H. unfold Canvas.dragShape. cbn [type x1 y1 x2 y2].
    rewrite Hbox, (le_Fin_true b1 b2 H). simpl.
    destruct (Js_le (Fin a1) (Fin a2)); simpl; rewrite !add_Fin; auto.
  - intros H. unfold Canvas.dragShape. cbn [type x1 y1 x2 y2].
    rewrite Hbox, (le_Fin_false b1 b2 H). simpl.
    destruct (Js_le (Fin a1) (Fin a2)); simpl; rewrite !add_Fin; auto.
  - unfold Canvas.dragShape, when. simpl.
    destruct ps;
      repeat match goal with
             | |- context [if ?b then _ else _] => destruct b
             end; simpl; rewrite !add_Fin; reflexivity.
Qed.

Lemma drag_box_handles_witness :
  (Canvas.isBoxShape (type rectB) = true /\ 0 <= 1)
  /\ anchors (Canvas.dragShape HandleType.n (Fin 1) (Fin 1) rectB)
     = (Fin 0, Fin 0, Fin 1, Fin (1 + 1 + 1)).
Proof.
  assert (H1 : Canvas.isBoxShape (type rectB) = true) by reflexivity.
  assert (H2 : 0 <= 1) by lra.
  split; [split; assumption|].
  destruct (drag_box_handles 1 1 rectB 0 0 1 1 H1
              eq_refl eq_refl eq_refl eq_refl) as (_ & _ & Hn & _).
  exact (proj2 (Hn H2)).
Defined.

(** ** Export *)

Lemma exportShapes_all (l : list Shape) :
  Forall notGuide l -> exportShapes l = l.
Proof.
  unfold exportShapes. induction l as [|s l IH]; intros H; [reflexivity|].
  apply List.Forall_cons_iff in H as [Hs Hl]. simpl.
  unfold notGuide in Hs.
  destruct (isGuide s) as [[|]|]; try congruence; simpl; rewrite (IH Hl);
    reflexivity.
Qed.

Lemma exportShapes_app (l1 l2 : list Shape) :
  exportShapes (l1 ++ l2) = exportShapes l1 ++ exportShapes l2.
Proof. unfold exportShapes. apply List.filter_app. Qed.

Lemma circularCopy_isGuide newId cx cy angle s :
  isGuide (circularCopy newId cx cy angle s) = isGuide s.
Proof.
  destruct s as [i ty xa ya xb yb o1 o2 o3 o4 ps tx ty' ? ? ? ? ? ? rot ? ? ? ? ?].
  destruct ty, o1, o3, tx, ps; reflexivity.
Qed.

Lemma blocks_Forall (P : Shape -> Prop) rnd mk n l :
  (forall s newId i, In s l -> P (mk s newId i)) ->
  forall k, Forall P (blocks rnd mk n k l).
Proof.
  intros H. induction l as [|s l IH]; intros k; simpl; [constructor|].
  apply Forall_app. split.
  - assert (Hs : forall newId i, P (mk s newId i))
      by (intros; apply H; left; reflexivity).
    clear -Hs. generalize 1%Z as i. revert k.
    induction n as [|n IHn]; intros k i; simpl; constructor; [apply Hs|apply IHn].
  - apply IH. intros s' newId i Hin. apply H. right. exact Hin.
Qed.

(** X29. The guide circle of a circular pattern is never exported.  When
    the drawing holds no guide, the pattern appends one guide circle and
    the copies, and the shapes the export dialog works on are the drawing
    and the copies without it: one shape less than the collection. *)
Theorem guide_circle_not_exported (rnd : nat -> string) (cx cy : num)
    (st : App) :
  size (selectedShapeIds st) <> 0%nat -> (2 <= circularCount st)%Z ->
  Forall notGuide (shapes st) ->
  let st' := handleCircularPatternCenter rnd cx cy st in
  exists (g : Shape) (cps : list Shape),
    shapes st' = shapes st ++ g :: cps
    /\ isGuide g = Some true
    /\ exportShapes (shapes st') = shapes st ++ cps
    /\ length (exportShapes (shapes st')) = (length (shapes st') - 1)%nat.
Proof.
  intros Hsel HN Hng st'.
  pose proof (circular_pattern_state rnd cx cy st Hsel HN) as Hst.
  cbv zeta in Hst. fold st' in Hst.
  eexists. eexists. split; [rewrite Hst; reflexivity|].
  split; [reflexivity|].
  assert (Hc : Forall notGuide
                 (blocks rnd (circularMk cx cy (circularCount st))
                         (rounds (circularCount st)) 1 (selectedOf st))).
  { apply blocks_Forall. intros s newId i Hin. unfold notGuide, circularMk.
    rewrite circularCopy_isGuide.
    rewrite List.Forall_forall in Hng. apply Hng.
    unfold selectedOf in Hin. apply filter_In in Hin as [Hin _]. exact Hin. }
  assert (He : exportShapes (shapes st')
               = shapes st ++ blocks rnd (circularMk cx cy (circularCount st))
                                (rounds (circularCount st)) 1 (selectedOf st)).
  { rewrite Hst.
    cbn [shapes setShapes setSelectedShapeIds setMode saveHistory setHistory
         setFuture].
    rewrite exportShapes_app, (exportShapes_all _ Hng). f_equal.
    change (exportShapes (guideCircle (rnd 0%nat) cx cy
              (guideRadius cx cy (selectionBounds (selectedOf st))) :: ?l))
      with (exportShapes l).
    apply (exportShapes_all _ Hc). }
  split; [exact He|].
  rewrite He, Hst. simpl. rewrite !length_app. simpl. lia.
Qed.

Lemma guide_circle_not_exported_witness :
  (size (selectedShapeIds lineApp) <> 0%nat
   /\ (2 <= circularCount lineApp)%Z
   /\ Forall notGuide (shapes lineApp))
  /\ length (exportShapes
               (shapes (handleCircularPatternCenter ids0 (Fin 1) (Fin 0)
                          lineApp)))
     = (length (shapes (handleCircularPatternCenter ids0 (Fin 1) (Fin 0)
                          lineApp)) - 1)%nat.
Proof.
  pose proof lineApp_size as H1.
  assert (H2 : (2 <= circularCount lineApp)%Z) by (simpl; lia).
  assert (H3 : Forall notGuide (shapes lineApp)).
  { constructor; [unfold notGuide; simpl; discriminate|constructor]. }
  split; [split; [exact H1|split; [exact H2|exact H3]]|].
  destruct (guide_circle_not_exported ids0 (Fin 1) (Fin 0) lineApp H1 H2 H3)
    as (g & cps & _ & _ & _ & H).
  exact H.
Defined.

(** ** Templates *)

Lemma sidesLoop_spec rnd side n : forall i k acc,
  sidesLoop rnd side i n k acc = acc ++ loopShapes rnd side i n k.
Proof.
  induction n as [|n IH]; intros i k acc; simpl.
  - rewrite app_nil_r. reflexivity.
  - rewrite IH, <- app_assoc. reflexivity.
Qed.

(** X30. The templates are connected chains.  A polygon of [N] sides is
    [N] segments; side [j] has the [j]-th identifier drawn and goes from
    corner [j] to corner [j + 1], where corner [k] is the point at the
    angle [-PI/2 + k * (2 * PI / N)] of the circle of the given radius
    about the origin, as the program computes it; each side starts where
    the side before it ends.  A star of [p] points is [2 * p] segments
    through tips that lie in turn on the outer and on the inner circle,
    [PI / p] apart, each side starting where the side before it ends.
    Adding a template appends its shapes to the collection, selects exactly
    them, sets the mode to [pan], and is one step of the history. *)
Theorem templates_connected_chains (rnd : nat -> string) :
  (forall (N : Z) (radius : num),
     let P := createPolygon rnd N radius in
     let v := spoke radius (Js.div (Js.mul (lit 2) Math.PI) (lit N)) in
     length P = Z.to_nat N
     /\ (forall j : nat, (j < Z.to_nat N)%nat ->
           exists s, P !! j = Some s
             /\ isSide s (rnd j) (v (Z.of_nat j)) (v (Z.of_nat j + 1)%Z))
     /\ (forall (j : nat) (s s' : Shape),
           P !! j = Some s -> P !! S j = Some s' ->
           (x1 s', y1 s') = (x2 s, y2 s)))
  /\ (forall (p : Z) (outer inner : num),
       let S0 := createStar rnd p outer inner in
       let w := starTip p outer inner in
       length S0 = Z.to_nat (2 * p)
       /\ (forall j : nat, (j < Z.to_nat (2 * p))%nat ->
             exists s, S0 !! j = Some s
               /\ isSide s (rnd j) (w (Z.of_nat j)) (w (Z.of_nat j + 1)%Z))
       /\ (forall (j : nat) (s s' : Shape),
             S0 !! j = Some s -> S0 !! S j = Some s' ->
             (x1 s', y1 s') = (x2 s, y2 s)))
  /\ (forall (tpl : list Shape) (st : App),
       let st' := handleAddTemplate tpl st in
       shapes st' = shapes st ++ tpl
       /\ (forall i, i ∈ selectedShapeIds st'
                     <-> exists s, In s tpl /\ id s = i)
       /\ mode st' = pan
       /\ (history st' = history st ++ [shapes st] /\ future st' = [])
       /\ shapes (handleUndo st') = shapes st).
Proof.
  assert (Hchain : forall (u : Z -> num * num) (n : nat),
    let L := loopShapes rnd
      (fun newId i =>
         templateLine newId (fst (u i)) (snd (u i))
                      (fst (u (i + 1)%Z)) (snd (u (i + 1)%Z)))
      0%Z n 0 in
    length L = n
    /\ (forall j : nat, (j < n)%nat ->
          exists s, L !! j = Some s
            /\ isSide s (rnd j) (u (Z.of_nat j)) (u (Z.of_nat j + 1)%Z))
    /\ (forall (j : nat) (s s' : Shape),
          L !! j = Some s -> L !! S j = Some s' ->
          (x1 s', y1 s') = (x2 s, y2 s))).
  { intros u n L.
    assert (Hl : length L = n) by apply loopShapes_length.
    assert (Hk : forall j : nat, (j < n)%nat ->
      L !! j = Some (templateLine (rnd j)
                       (fst (u (Z.of_nat j))) (snd (u (Z.of_nat j)))
                       (fst (u (Z.of_nat j + 1)%Z))
                       (snd (u (Z.of_nat j + 1)%Z)))).
    { intros j Hj. unfold L. rewrite loopShapes_lookup by exact Hj.
      reflexivity. }
    split; [exact Hl|]. split.
    - intros j Hj. eexists. split; [exact (Hk j Hj)|].
      unfold isSide. simpl. split; [reflexivity|]. split; reflexivity.
    - intros j s s' Hs Hs'.
      assert (Hj' : (S j < n)%nat)
        by (rewrite <- Hl; apply lookup_lt_is_Some; eexists; exact Hs').
      rewrite Hk in Hs by lia. rewrite Hk in Hs' by exact Hj'.
      inversion Hs. inversion Hs'. simpl.
      replace (Z.of_nat (S j)) with (Z.of_nat j + 1)%Z by lia.
      reflexivity. }
  split; [|split].
  - intros N radius P v.
    assert (HP : P = loopShapes rnd
      (fun newId i =>
         templateLine newId (fst (v i)) (snd (v i))
                      (fst (v (i + 1)%Z)) (snd (v (i + 1)%Z)))
      0%Z (Z.to_nat N) 0).
    { unfold P, createPolygon. rewrite sidesLoop_spec. reflexivity. }
    rewrite HP. apply Hchain.
  - intros p outer inner S0 w.
    assert (HS : S0 = loopShapes rnd
      (fun newId i =>
         templateLine newId (fst (w i)) (snd (w i))
                      (fst (w (i + 1)%Z)) (snd (w (i + 1)%Z)))
      0%Z (Z.to_nat (2 * p)) 0).
    { unfold S0, createStar. rewrite sidesLoop_spec. reflexivity. }
    rewrite HS. apply Hchain.
  - intros tpl st st'. unfold st', handleAddTemplate.
    split; [reflexivity|]. split; [|split; [reflexivity|split; [auto|]]].
    + intros i. simpl.
      rewrite elem_of_list_to_set, list_elem_of_In, in_map_iff.
      split; intros (s & A & B); exists s; auto.
    + rewrite handleUndo_nonempty by (simpl; apply snoc_nonempty).
      simpl. apply last_last.
Qed.
